(** * grazer: the revalidation queue and its controller

    A shallow embedding of [queue.go] (the deduplicating priority queue built
    on Go's [container/heap]) and of the controller of [grazer.go] (the
    reconciliation, the wake signal, the worker loop and the shutdown),
    together with the properties the specification states about them.

    The queue is modelled with its pointers: the slice [q] and the map
    [pathIdx] hold addresses of [queueItem] objects that live in a memory
    [mem], so that a priority written through [pathIdx] is the priority
    [Less] reads through [q], and the [index] field that [Swap], [Push] and
    [Pop] maintain is the position [heap.Fix] is called with.  The counter
    [currentPriority] is a [uint64] and wraps around; positions are Go [int]s,
    which a slice in memory cannot overflow, and are modelled on [Z].

    The controller is modelled as a transition system: the goroutine of
    [run] moves from one program point to the next, and calls of
    [revalidate] and [shutdownAndWait] are interleaved with its actions. *)

From stdpp Require Import gmap strings list fin_maps sorting.
From Stdlib Require Import ZArith Lia.
From Stdlib Require OrderedTypeEx.

Local Open Scope Z_scope.

(** ** Outcomes of Go code

    A Go function either returns, or panics at run time (index out of range,
    nil dereference, send on or close of a closed channel), or blocks for
    ever.  The loops are modelled with a loop bound; [OutOfFuel] is the
    outcome of a loop that would exceed it (the bounds chosen for [up] and
    [down] are shown never to be reached, on any state). *)

Inductive result (A : Type) : Type :=
  | Ok (a : A)
  | Panic
  | Blocked
  | OutOfFuel.

Arguments Ok {A} a.
Arguments Panic {A}.
Arguments Blocked {A}.
Arguments OutOfFuel {A}.

Definition rbind {A B : Type} (m : result A) (k : A → result B) : result B :=
  match m with
  | Ok a => k a
  | Panic => Panic
  | Blocked => Blocked
  | OutOfFuel => OutOfFuel
  end.

#[export] Instance result_ret : MRet result := @Ok.
#[export] Instance result_bind : MBind result := λ A B k m, rbind m k.

(** ** Data model *)

(** [uint64] arithmetic wraps around. *)
Definition uint64_max : Z := 2 ^ 64 - 1.
Definition wrap64 (z : Z) : Z := z `mod` 2 ^ 64.

(** Addresses of heap-allocated [queueItem] objects ([*queueItem]). *)
Definition loc := nat.

(** [type queueItem struct { priority uint64; routePath string; index int }] *)
Record queueItem := QueueItem {
  priority : Z;
  routePath : string;
  index : Z
}.

Definition set_priority (it : queueItem) (p : Z) : queueItem :=
  QueueItem p (routePath it) (index it).
Definition set_index (it : queueItem) (i : Z) : queueItem :=
  QueueItem (priority it) (routePath it) i.

(** [type queue struct { mx; currentPriority uint64; q queueItems;
    pathIdx map[string]*queueItem }].  The slice [q] and the map [pathIdx]
    hold pointers to the same [queueItem] objects; [mem] is the memory those
    pointers point into and [next] the next address [&queueItem{...}] returns.
    Every method body runs with [mx] held, so a call is one atomic step. *)
Record queue := Queue {
  currentPriority : Z;
  q : list loc;
  pathIdx : gmap string loc;
  mem : gmap loc queueItem;
  next : loc
}.

Definition with_q (s : queue) (l : list loc) : queue :=
  Queue (currentPriority s) l (pathIdx s) (mem s) (next s).
Definition with_mem (s : queue) (m : gmap loc queueItem) : queue :=
  Queue (currentPriority s) (q s) (pathIdx s) m (next s).
Definition with_pathIdx (s : queue) (ix : gmap string loc) : queue :=
  Queue (currentPriority s) (q s) ix (mem s) (next s).
Definition with_currentPriority (s : queue) (c : Z) : queue :=
  Queue c (q s) (pathIdx s) (mem s) (next s).

(** [l[i]] for a Go [int] index: out of range panics. *)
Definition at_index {A : Type} (l : list A) (i : Z) : result A :=
  if i <? 0 then Panic
  else match l !! Z.to_nat i with
       | Some a => Ok a
       | None => Panic
       end.

(** [*p]: a pointer that is not allocated behaves like nil. *)
Definition deref (s : queue) (p : loc) : result queueItem :=
  match mem s !! p with
  | Some it => Ok it
  | None => Panic
  end.

(** [p.index = i] *)
Definition store_index (s : queue) (p : loc) (i : Z) : result queue :=
  it ← deref s p;
  Ok (with_mem s (<[p := set_index it i]> (mem s))).

(** ** [queueItems]: the [heap.Interface] implementation *)

Module queueItems.

Definition Len (s : queue) : Z := Z.of_nat (length (q s)).

(** The comparison of [Less] on two items. *)
Definition less (a b : queueItem) : bool :=
  let pi := priority a in
  let pj := priority b in
  if pi =? pj then String.ltb (routePath a) (routePath b)
  else if pi =? 0 then false
  else if pj =? 0 then true
  else pi <? pj.

Definition Less (s : queue) (i j : Z) : result bool :=
  pi ← at_index (q s) i;
  a ← deref s pi;
  pj ← at_index (q s) j;
  b ← deref s pj;
  Ok (less a b).

(** [q[i], q[j] = q[j], q[i]; q[i].index = i; q[j].index = j] *)
Definition Swap (s : queue) (i j : Z) : result queue :=
  pi ← at_index (q s) i;
  pj ← at_index (q s) j;
  let s1 := with_q s (<[Z.to_nat j := pi]> (<[Z.to_nat i := pj]> (q s))) in
  s2 ← store_index s1 pj i;
  store_index s2 pi j.

(** [item.index = n], then the item is appended to the slice. *)
Definition Push (s : queue) (x : loc) : result queue :=
  let n := Len s in
  s1 ← store_index s x n;
  Ok (with_q s1 (q s1 ++ [x])).

(** [item := old[n-1]; old[n-1] = nil; item.index = -1], and the slice
    becomes [old[0:n-1]]: the nil is written past its new length. *)
Definition Pop (s : queue) : result (loc * queue) :=
  let n := Len s in
  item ← at_index (q s) (n - 1);
  s1 ← store_index s item (-1);
  Ok (item, with_q s1 (take (Z.to_nat (n - 1)) (q s1))).

End queueItems.

(** ** Go's [container/heap], instantiated at [queueItems] *)

Module heap.

(** [for { i := (j - 1) / 2; if i == j || !h.Less(j, i) { break };
           h.Swap(i, j); j = i }] *)
Fixpoint up_loop (fuel : nat) (h : queue) (j : Z) : result queue :=
  match fuel with
  | O => OutOfFuel
  | S fuel' =>
      let i := Z.quot (j - 1) 2 in
      if decide (i = j) then Ok h
      else
        b ← queueItems.Less h j i;
        if negb b then Ok h
        else h' ← queueItems.Swap h i j; up_loop fuel' h' i
  end.

Definition up (h : queue) (j : Z) : result queue :=
  up_loop (S (Z.to_nat j)) h j.

(** The loop of [down]; the result is [i > i0] and the heap. *)
Fixpoint down_loop (fuel : nat) (h : queue) (i0 i n : Z) : result (bool * queue) :=
  match fuel with
  | O => OutOfFuel
  | S fuel' =>
      let j1 := 2 * i + 1 in
      if (n <=? j1) || (j1 <? 0) then Ok (i0 <? i, h)
      else
        j ← (let j2 := j1 + 1 in
             if j2 <? n
             then b ← queueItems.Less h j2 j1; Ok (if b : bool then j2 else j1)
             else Ok j1);
        b ← queueItems.Less h j i;
        if negb b then Ok (i0 <? i, h)
        else h' ← queueItems.Swap h i j; down_loop fuel' h' i0 j n
  end.

Definition down (h : queue) (i0 n : Z) : result (bool * queue) :=
  down_loop (S (Z.to_nat n)) h i0 i0 n.

(** [for i := n/2 - 1; i >= 0; i-- { down(h, i, n) }], counted by [k = i + 1]. *)
Fixpoint init_loop (k : nat) (h : queue) (n : Z) : result queue :=
  match k with
  | O => Ok h
  | S k' => r ← down h (Z.of_nat k') n; init_loop k' r.2 n
  end.

Definition Init (h : queue) : result queue :=
  let n := queueItems.Len h in
  init_loop (Z.to_nat (Z.quot n 2)) h n.

Definition Push (h : queue) (x : loc) : result queue :=
  h1 ← queueItems.Push h x;
  up h1 (queueItems.Len h1 - 1).

Definition Pop (h : queue) : result (loc * queue) :=
  let n := queueItems.Len h - 1 in
  h1 ← queueItems.Swap h 0 n;
  r ← down h1 0 n;
  queueItems.Pop r.2.

Definition Fix (h : queue) (i : Z) : result queue :=
  r ← down h i (queueItems.Len h);
  if negb r.1 then up r.2 i else Ok r.2.

End heap.

(** ** The queue *)

Definition emptyQueue : queue := Queue 0 [] ∅ ∅ 0%nat.

Definition newQueue : result queue := heap.Init emptyQueue.

Definition _addOrUpdate (routePath : string) (prio : Z) (s : queue) : result queue :=
  match pathIdx s !! routePath with
  | Some existingItem =>
      it ← deref s existingItem;
      if (priority it =? 0) && negb (prio =? 0)
      then
        let s1 := with_mem s (<[existingItem := set_priority it prio]> (mem s)) in
        it1 ← deref s1 existingItem;
        heap.Fix s1 (index it1)
      else Ok s
  | None =>
      let item := next s in
      let s1 := Queue (currentPriority s) (q s) (pathIdx s)
                      (<[item := QueueItem prio routePath 0]> (mem s)) (S (next s)) in
      s2 ← heap.Push s1 item;
      Ok (with_pathIdx s2 (<[routePath := item]> (pathIdx s2)))
  end.

(** [for _, routePath := range paths { q._addOrUpdate(routePath, prio) }] *)
Fixpoint addAll (paths : list string) (prio : Z) (s : queue) : result queue :=
  match paths with
  | [] => Ok s
  | routePath :: rest => s' ← _addOrUpdate routePath prio s; addAll rest prio s'
  end.

Definition enqueue (invalidatedRoutePaths allRoutePaths : list string) (s : queue)
  : result queue :=
  let s1 := with_currentPriority s (wrap64 (currentPriority s + 1)) in
  let prio := currentPriority s1 in
  s2 ← addAll invalidatedRoutePaths prio s1;
  addAll allRoutePaths 0 s2.

(** [pop] returns [nil] ([None]) on an empty queue. *)
Definition pop (s : queue) : result (option string * queue) :=
  if queueItems.Len s =? 0 then Ok (None, s)
  else
    r ← heap.Pop s;
    it ← deref r.2 r.1;
    Ok (Some (routePath it), with_pathIdx r.2 (delete (routePath it) (pathIdx r.2))).

(** ** Running call sequences *)

Inductive call :=
  | Enqueue (invalidated background : list string)
  | PopCall.

Definition run_call (c : call) (s : queue) : result (option string * queue) :=
  match c with
  | Enqueue inv bg => s' ← enqueue inv bg s; Ok (None, s')
  | PopCall => pop s
  end.

(** The state after a sequence of calls, with what every call returned. *)
Fixpoint run_calls (cs : list call) (s : queue) : result (list (option string) * queue) :=
  match cs with
  | [] => Ok ([], s)
  | c :: rest =>
      r ← run_call c s;
      r' ← run_calls rest r.2;
      Ok (r.1 :: r'.1, r'.2)
  end.

(** [pop] until it returns nil, with the route paths in the order they came
    out: the loop of [queuePopBatch] without its batch bound. *)
Fixpoint drain_loop (fuel : nat) (s : queue) : result (list string * queue) :=
  match fuel with
  | O => OutOfFuel
  | S fuel' =>
      r ← pop s;
      match r.1 with
      | None => Ok ([], r.2)
      | Some path => r' ← drain_loop fuel' r.2; Ok (path :: r'.1, r'.2)
      end
  end.

Definition drain (s : queue) : result (list string * queue) :=
  drain_loop (S (length (q s))) s.

(* ================================================================= *)
(** * The controller *)

(** [revalidateRequestDocument] and [DocumentsItem]: a route path. *)
Record document := Document { RoutePath : string }.

(** Go errors: a message, or [fmt.Errorf("msg: %w", cause)]. *)
Inductive error :=
  | Err (msg : string)
  | Errorf (msg : string) (cause : error).

(** [sig chan struct{}], made by [make(chan struct{})]: it has no buffer, so
    its state is whether it has been closed. *)
Inductive chan_state := ChanOpen | ChanClosed.

(** Where the goroutine of [run] is. *)
Inductive worker_state :=
  | AtReceive                              (* about to receive from [sig] in the outer loop *)
  | Parked                                 (* blocked in that receive *)
  | AtSelect                               (* at the [select] of the inner loop *)
  | AtPopBatch                             (* about to call [queuePopBatch] *)
  | InRevalidate (routePaths : list string) (* inside [revalidator.Revalidate] *)
  | Returned.                              (* [run] has returned and [wg.Done()] has run *)

(** The controller: its batch size, its queue (the field [queue]), its signal
    channel, the goroutine [newController] starts (the one [wg] counts), and
    the batches handed to the revalidator so far. *)
Record controller := Controller {
  revalidateBatchSize : Z;
  ctrl_queue : queue;
  sig : chan_state;
  worker : worker_state;
  submitted : list (list string)
}.

Definition with_queue (c : controller) (s : queue) : controller :=
  Controller (revalidateBatchSize c) s (sig c) (worker c) (submitted c).
Definition with_sig (c : controller) (ch : chan_state) : controller :=
  Controller (revalidateBatchSize c) (ctrl_queue c) ch (worker c) (submitted c).
Definition with_worker (c : controller) (w : worker_state) : controller :=
  Controller (revalidateBatchSize c) (ctrl_queue c) (sig c) w (submitted c).

(** [newController]: the goroutine has been started and has not yet reached
    its receive. *)
Definition newController : result controller :=
  s ← newQueue;
  Ok (Controller 1 s ChanOpen AtReceive []).

(** [select { case c.sig <- struct{}{}: default: }].  A send on a closed
    channel panics.  On an open channel without buffer the send goes through
    only if the receiver is blocked in its receive, which then returns with
    [ok = true]; otherwise the [default] branch runs. *)
Definition ensureProcessQueue (c : controller) : result controller :=
  match sig c with
  | ChanClosed => Panic
  | ChanOpen =>
      match worker c with
      | Parked => Ok (with_worker c AtSelect)
      | _ => Ok c
      end
  end.

(** [revalidate].  [fetched] is what [c.fetcher.ListDocuments(ctx)] returns.
    The body runs with [c.mx] held.  The map [currentRoutePaths] it fills is
    not read afterwards. *)
Definition revalidate (fetched : error + list document)
    (invalidatedDocuments : list document) (c : controller)
  : result (option error * controller) :=
  match fetched with
  | inl err => Ok (Some (Errorf "listing documents" err), c)
  | inr documents =>
      let invalidatedRoutePaths := RoutePath <$> invalidatedDocuments in
      let allRoutePaths := RoutePath <$> documents in
      s' ← enqueue invalidatedRoutePaths allRoutePaths (ctrl_queue c);
      c' ← ensureProcessQueue (with_queue c s');
      Ok (None, c')
  end.

(** The loop of [queuePopBatch]: [pop] until nil or until the batch is full. *)
Fixpoint queuePopBatch_loop (fuel : nat) (size : Z) (res : list string) (s : queue)
  : result (list string * queue) :=
  match fuel with
  | O => OutOfFuel
  | S fuel' =>
      r ← pop s;
      match r.1 with
      | None => Ok (res, r.2)
      | Some path =>
          let res' := res ++ [path] in
          if Z.of_nat (length res') =? size then Ok (res', r.2)
          else queuePopBatch_loop fuel' size res' r.2
      end
  end.

Definition queuePopBatch (c : controller) : result (list string * controller) :=
  r ← queuePopBatch_loop (S (length (q (ctrl_queue c)))) (revalidateBatchSize c) []
                         (ctrl_queue c);
  Ok (r.1, with_queue c r.2).

(** [run], one action of its goroutine at a time; [None] when it is blocked
    (parked on the open channel) or has returned.  A receive from a closed
    channel returns at once with [ok = false].  The [select] of the inner loop
    cannot receive a value, since no sender ever waits.  The error of
    [revalidator.Revalidate] is only logged. *)
Definition run_step (c : controller) : result (option controller) :=
  match worker c with
  | AtReceive =>
      match sig c with
      | ChanClosed => Ok (Some (with_worker c Returned))
      | ChanOpen => Ok (Some (with_worker c Parked))
      end
  | Parked =>
      match sig c with
      | ChanClosed => Ok (Some (with_worker c Returned))
      | ChanOpen => Ok None
      end
  | AtSelect =>
      match sig c with
      | ChanClosed => Ok (Some (with_worker c Returned))
      | ChanOpen => Ok (Some (with_worker c AtPopBatch))
      end
  | AtPopBatch =>
      r ← queuePopBatch c;
      if Z.of_nat (length r.1) =? 0
      then Ok (Some (with_worker r.2 AtReceive))
      else Ok (Some (with_worker r.2 (InRevalidate r.1)))
  | InRevalidate routePaths =>
      Ok (Some (Controller (revalidateBatchSize c) (ctrl_queue c) (sig c) AtSelect
                           (submitted c ++ [routePaths])))
  | Returned => Ok None
  end.

(** [close(c.sig)]: closing a closed channel panics. *)
Definition close_sig (c : controller) : result controller :=
  match sig c with
  | ChanClosed => Panic
  | ChanOpen => Ok (with_sig c ChanClosed)
  end.

(** [c.wg.Wait()]: the caller waits while the worker runs, until [run] has
    returned; it blocks for ever if the worker does. *)
Fixpoint wg_Wait (fuel : nat) (c : controller) : result controller :=
  match worker c with
  | Returned => Ok c
  | _ =>
      match fuel with
      | O => OutOfFuel
      | S fuel' =>
          r ← run_step c;
          match r with
          | Some c' => wg_Wait fuel' c'
          | None => Blocked
          end
      end
  end.

Definition shutdownAndWait (fuel : nat) (c : controller) : result controller :=
  c1 ← close_sig c;
  wg_Wait fuel c1.

(** Schedules: the calls of [revalidate], each run to its end, interleaved
    with the actions of the worker. *)
Inductive event :=
  | Revalidate (fetched : error + list document) (invalidated : list document)
  | WorkerStep.

Definition do_event (e : event) (c : controller) : result controller :=
  match e with
  | Revalidate fetched invalidated => r ← revalidate fetched invalidated c; Ok r.2
  | WorkerStep =>
      r ← run_step c;
      match r with
      | Some c' => Ok c'
      | None => Blocked
      end
  end.

Fixpoint schedule (es : list event) (c : controller) : result controller :=
  match es with
  | [] => Ok c
  | e :: rest => c' ← do_event e c; schedule rest c'
  end.

(** [run] left to itself: the actions of its goroutine, one after the other,
    until it is blocked in its receive or has returned. *)
Fixpoint run (fuel : nat) (c : controller) : result controller :=
  match fuel with
  | O => OutOfFuel
  | S fuel' =>
      r ← run_step c;
      match r with
      | Some c' => run fuel' c'
      | None => Ok c
      end
  end.

(* ================================================================= *)
(** * The HTTP handler *)

(** ** [crypto/subtle]

    Bytes are numbers below 256. *)

Definition wrap32 (z : Z) : Z := z mod 2 ^ 32.

(** [int((uint32(x^y) - 1) >> 31)] *)
Definition ConstantTimeByteEq (x y : Z) : Z :=
  Z.shiftr (wrap32 (Z.lxor x y - 1)) 31.

(** [for i := 0; i < len(x); i++ { v |= x[i] ^ y[i] }], run on slices of the
    same length. *)
Fixpoint ConstantTimeCompare_loop (v : Z) (x y : list Z) : Z :=
  match x, y with
  | a :: x', b :: y' => ConstantTimeCompare_loop (Z.lor v (Z.lxor a b)) x' y'
  | _, _ => v
  end.

Definition ConstantTimeCompare (x y : list Z) : Z :=
  if negb (length x =? length y)%nat then 0
  else ConstantTimeByteEq (ConstantTimeCompare_loop 0 x y) 0.

(** [[]byte(s)] *)
Definition bytes_of (s : string) : list Z :=
  (λ a, Z.of_N (Ascii.N_of_ascii a)) <$> String.list_ascii_of_string s.

(** ** [Handler] *)


(** The handler: its token, its controller, and the goroutines that
    [handleRevalidate] has started (the ones [wg] counts), each with the
    documents it will pass to [ctrl.revalidate]. *)
Record Handler := MkHandler {
  revalidateToken : string;
  ctrl : controller;
  started : list (list document)
}.


Definition StatusOK : Z := 200.
Definition StatusBadRequest : Z := 400.
Definition StatusForbidden : Z := 403.

(** [handleRevalidate]: [authHeader] is the [Authorization] header of the
    request and [decoded] is what decoding the request body gives, the
    documents or an error.  It returns the status written to the response. *)
Definition handleRevalidate (authHeader : string) (decoded : error + list document)
    (h : Handler) : Z * Handler :=
  if negb (ConstantTimeCompare (bytes_of authHeader)
                               (bytes_of ("Bearer " ++ revalidateToken h)) =? 1)
  then (StatusForbidden, h)
  else
    match decoded with
    | inl _ => (StatusBadRequest, h)
    | inr documents =>
        (StatusOK, MkHandler (revalidateToken h) (ctrl h) (started h ++ [documents]))
    end.


(* ================================================================= *)
(** * The logger of the cron scheduler *)

(** A log entry: its fields, in the order [WithField] added them.  The
    values are of any type [V]; [Sprint] is [fmt.Sprint] on them and [cron]
    is the string ["cron"] as such a value. *)
Definition entry (V : Type) : Type := list (string * V).

(** The loop of [createEntry], [for i := 0; i < len(keysAndValues); i += 2]:
    it reads [keysAndValues[i]] and [keysAndValues[i+1]], and the second
    read is out of range when one element is left. *)
Fixpoint createEntry_loop {V : Type} (Sprint : V → string) (e : entry V)
    (keysAndValues : list V) : result (entry V) :=
  match keysAndValues with
  | [] => Ok e
  | [_] => Panic
  | k :: v :: rest => createEntry_loop Sprint (e ++ [(Sprint k, v)]) rest
  end.

Definition createEntry {V : Type} (Sprint : V → string) (cron : V)
    (keysAndValues : list V) : result (entry V) :=
  createEntry_loop Sprint [("component", cron)] keysAndValues.

(* ================================================================= *)
(** * Vocabulary of the properties *)

(** An outcome that is a return or a panic: the loop bounds were enough and
    nothing blocked. *)
Definition returns_or_panics {A : Type} (r : result A) : Prop :=
  r = Panic ∨ ∃ a, r = Ok a.

(** The worker is on its way to [queuePopBatch]: it will look at the queue
    again before it parks. *)
Definition drain_pending (c : controller) : Prop :=
  worker c = AtSelect ∨ worker c = AtPopBatch ∨ ∃ b, worker c = InRevalidate b.

(** ** The order of [Less] *)

(** [Less] reads only the priority and the route path of an item. *)
Definition key : Type := Z * string.
Definition key_of (it : queueItem) : key := (priority it, routePath it).
Definition lessk (a b : key) : bool :=
  queueItems.less (QueueItem a.1 a.2 0) (QueueItem b.1 b.2 0).

(** ** The shape of a binary heap

    Positions are read through a function [f] giving the key stored at each
    position; [Swap] composes it with a transposition. *)

Definition parent (j : nat) : nat := ((j - 1) / 2)%nat.

Definition transp (i j k : nat) : nat :=
  if decide (k = i) then j else if decide (k = j) then i else k.

(** The key at position [i] is not after the key at position [j]. *)
Definition le_at (f : nat → option key) (i j : nat) : Prop :=
  ∀ a b, f i = Some a → f j = Some b → lessk b a = false.

Definition defined (n : nat) (f : nat → option key) : Prop :=
  ∀ k, (k < n)%nat → is_Some (f k).

(** The heap condition of [container/heap] on the first [n] positions. *)
Definition heap_upto (n : nat) (f : nat → option key) : Prop :=
  ∀ j, (0 < j < n)%nat → le_at f (parent j) j.

(** The heap condition everywhere but around position [i]: the pairs that
    do not involve [i] are in order, and so are the pairs that skip it. *)
Definition hole_inv (n : nat) (f : nat → option key) (i : nat) : Prop :=
  (∀ j, (0 < j < n)%nat → j ≠ i → parent j ≠ i → le_at f (parent j) j) ∧
  (∀ j, (0 < j < n)%nat → parent j = i → (0 < i)%nat → le_at f (parent i) j).

Definition children_ok (n : nat) (f : nat → option key) (i : nat) : Prop :=
  ∀ j, (0 < j < n)%nat → parent j = i → le_at f i j.

(** ** Reading a queue state *)

(** The item and the key stored at a position of the slice. *)
Definition item_at (s : queue) (k : nat) : option queueItem :=
  match q s !! k with
  | Some p => mem s !! p
  | None => None
  end.

Definition key_at (s : queue) (k : nat) : option key := key_of <$> item_at s k.

(** Every position of the slice points to an allocated item whose [index]
    field is that position. *)
Definition idx_ok (s : queue) : Prop :=
  ∀ i p, q s !! i = Some p → ∃ it, mem s !! p = Some it ∧ index it = Z.of_nat i.

(** What the loops of [container/heap] leave alone: the key index, the
    counter, the allocator, the set of queued pointers, and the priority and
    route path of every item. *)
Record frame (s s' : queue) : Prop := Frame {
  frame_pathIdx : pathIdx s' = pathIdx s;
  frame_currentPriority : currentPriority s' = currentPriority s;
  frame_next : next s' = next s;
  frame_length : length (q s') = length (q s);
  frame_elem : ∀ p, p ∈ q s' ↔ p ∈ q s;
  frame_mem : ∀ p, key_of <$> mem s' !! p = key_of <$> mem s !! p
}.

(** ** Well-formed queue states *)

(** The route path of the item a pointer points to. *)
Definition rp_of (s : queue) (p : loc) : option string := routePath <$> mem s !! p.

(** [pathIdx] maps exactly the route paths of the queued items, each to the
    pointer of its item. *)
Definition path_ok (s : queue) : Prop :=
  ∀ k p, pathIdx s !! k = Some p ↔ p ∈ q s ∧ rp_of s p = Some k.

(** The representation invariant of the queue. *)
Record wf (s : queue) : Prop := Wf {
  wf_idx : idx_ok s;
  wf_path : path_ok s;
  wf_fresh : ∀ p, is_Some (mem s !! p) → (p < next s)%nat;
  wf_heap : heap_upto (length (q s)) (key_at s);
  wf_counter : 0 ≤ currentPriority s < 2 ^ 64;
  wf_prio : ∀ p it, mem s !! p = Some it → 0 ≤ priority it < 2 ^ 64
}.

(** The live entries, in slice order, and the priority a key is queued with
    (read through the key index, as [_addOrUpdate] does). *)
Definition entries (s : queue) : list queueItem := omap (λ p, mem s !! p) (q s).

Definition prio_of (s : queue) (k : string) : option Z :=
  match pathIdx s !! k with
  | Some p => priority <$> mem s !! p
  | None => None
  end.

(** The priority a key has after [_addOrUpdate] with [prio]. *)
Definition merge_prio (old : option Z) (prio : Z) : Z :=
  match old with
  | Some p0 => if p0 =? 0 then prio else p0
  | None => prio
  end.

(** The generation an [enqueue] call on state [s] assigns. *)
Definition generation (s : queue) : Z := wrap64 (currentPriority s + 1).

(** The keys of the live entries. *)
Definition keys (s : queue) : list string := routePath <$> entries s.

(** The states the queue can be in: those a sequence of [enqueue] and [pop]
    calls leads to from [newQueue()]. *)
Definition reachable (s : queue) : Prop :=
  ∃ cs outs, newQueue ≫= run_calls cs = Ok (outs, s).

(** ** Duplicates, generations and pop order *)

(** A list without the elements of [seen] and without repetitions, each key
    kept at its first occurrence: what "deduplicated" means for the lists of
    an [enqueue] call. *)
Fixpoint dedup_seen (seen l : list string) : list string :=
  match l with
  | [] => []
  | x :: r =>
      if decide (x ∈ seen) then dedup_seen seen r
      else x :: dedup_seen (x :: seen) r
  end.

Definition dedup (l : list string) : list string := dedup_seen [] l.

(** [_addOrUpdate k prio] has nothing left to do: [k] is queued, and either
    with a nonzero priority or with [prio = 0]. *)
Definition settled (s : queue) (k : string) (prio : Z) : Prop :=
  ∃ z, prio_of s k = Some z ∧ (z ≠ 0 ∨ prio = 0).

(** The number of [enqueue] calls in a sequence of calls. *)
Fixpoint count_enqueues (cs : list call) : Z :=
  match cs with
  | [] => 0
  | Enqueue _ _ :: rest => 1 + count_enqueues rest
  | PopCall :: rest => count_enqueues rest
  end.

(** In a list of pop results, [x] comes out before [y] does: every
    occurrence of [y] has an occurrence of [x] before it. *)
Definition pops_before (x y : string) (outs : list (option string)) : Prop :=
  ∀ o1 o2, outs = o1 ++ Some y :: o2 → Some x ∈ o1.

(** The scenario of the generation order: call N ([enqueue invN bgN]) on
    state [s], the calls [mid], call M ([enqueue invM bgM]), the calls
    [rest].  The key [x] gets its priority from call N, the key [y] gets its
    priority from call M: whenever [y] is popped after call M, [x] has been
    popped since call N. *)
Definition generation_order_scenario
    (s : queue) (invN bgN : list string) (mid : list call)
    (invM bgM : list string) (rest : list call) (x y : string) : Prop :=
  ∀ sN outs_mid s2 sM outs s',
    enqueue invN bgN s = Ok sN → run_calls mid sN = Ok (outs_mid, s2) →
    enqueue invM bgM s2 = Ok sM → run_calls rest sM = Ok (outs, s') →
    x ∈ invN → prio_of s x = None ∨ prio_of s x = Some 0 →
    y ∈ invM → prio_of s2 y = None ∨ prio_of s2 y = Some 0 →
    ∀ o1 o2, outs = o1 ++ Some y :: o2 → Some x ∈ outs_mid ++ o1.

(** A queue without entries whose counter is two calls short of the largest
    [uint64]. *)
Definition nearWrapQueue : queue := Queue (2 ^ 64 - 2) [] ∅ ∅ 0%nat.

(** The queue after [enqueue(["/contact"], ["/about", "/home"])] on a new
    queue, and a controller that is about to pop a batch from it. *)
Definition sampleQueue : queue :=
  Eval vm_compute in
    match enqueue ["/contact"] ["/about"; "/home"] emptyQueue with
    | Ok s => s
    | _ => emptyQueue
    end.

Definition sampleController : controller :=
  Controller 1 sampleQueue ChanOpen AtPopBatch [].

(** ** The order in which keys leave the queue *)

(** Both keys are queued in [s], and the entry of [k1] is before the entry
    of [k2] in the order of [Less]. *)
Definition before (s : queue) (k1 k2 : string) : Prop :=
  ∃ z1 z2, prio_of s k1 = Some z1 ∧ prio_of s k2 = Some z2 ∧
           lessk (z1, k1) (z2, k2) = true.

(** The batches the worker takes from a list of route paths in pop order:
    [size] at a time, and all at once when [size] is not positive. *)
Fixpoint batches (fuel : nat) (size : Z) (ks : list string) : list (list string) :=
  match fuel, ks with
  | O, _ | _, [] => []
  | S fuel', _ =>
      if 1 <=? size
      then take (Z.to_nat size) ks :: batches fuel' size (drop (Z.to_nat size) ks)
      else [ks]
  end.

(** A handler with the token ["s3cret"] around [sampleController]. *)
Definition sampleHandler : Handler := MkHandler "s3cret" sampleController [].

(* ================================================================= *)
(** * The order of [Less] is a strict total order *)

Lemma less_lessk a b : queueItems.less a b = lessk (key_of a) (key_of b).
Proof. reflexivity. Qed.

Section string_order.

Lemma ltb_lt (a b : string) :
  String.ltb a b = true ↔ OrderedTypeEx.String_as_OT.lt a b.
Proof.
  rewrite <- OrderedTypeEx.String_as_OT.cmp_lt.
  unfold String.ltb, OrderedTypeEx.String_as_OT.cmp.
  destruct (String.compare a b); split; congruence.
Qed.

Lemma ltb_irrefl (a : string) : String.ltb a a = false.
Proof.
  destruct (String.ltb a a) eqn:E; [|done].
  apply ltb_lt in E.
  by destruct (OrderedTypeEx.String_as_OT.lt_not_eq _ _ E).
Qed.

Lemma ltb_trans (a b c : string) :
  String.ltb a b = true → String.ltb b c = true → String.ltb a c = true.
Proof.
  rewrite !ltb_lt. apply OrderedTypeEx.String_as_OT.lt_trans.
Qed.

Lemma ltb_total (a b : string) :
  String.ltb a b = false → String.ltb b a = false → a = b.
Proof.
  unfold String.ltb. rewrite (String.compare_antisym a b).
  destruct (String.compare b a) eqn:E; simpl; try congruence.
  intros _ _. symmetry. by apply String.compare_eq_iff.
Qed.

End string_order.

Section lessk_order.

Ltac cases :=
  unfold lessk, queueItems.less; simpl;
  repeat match goal with
         | |- context [?x =? ?y] => destruct (Z.eqb_spec x y)
         | |- context [?x <? ?y] => destruct (Z.ltb_spec x y)
         end;
  try (intros; subst; (congruence || lia)).

Lemma lessk_irrefl (a : key) : lessk a a = false.
Proof. cases. apply ltb_irrefl. Qed.

Lemma lessk_trans (a b c : key) :
  lessk a b = true → lessk b c = true → lessk a c = true.
Proof. cases. apply ltb_trans. Qed.

Lemma lessk_total (a b : key) :
  lessk a b = false → lessk b a = false → a = b.
Proof.
  destruct a as [pa ra], b as [pb rb]. cases.
  intros H1 H2. f_equal; [done|]. by apply ltb_total.
Qed.

Lemma lessk_asym (a b : key) : lessk a b = true → lessk b a = false.
Proof.
  intros H. destruct (lessk b a) eqn:E; [|done].
  pose proof (lessk_trans _ _ _ H E) as F. by rewrite lessk_irrefl in F.
Qed.

(** [a ≤ b] and [b ≤ c] give [a ≤ c], with [x ≤ y] read as [lessk y x = false]. *)
Lemma lessk_le_trans (a b c : key) :
  lessk b a = false → lessk c b = false → lessk c a = false.
Proof.
  intros H1 H2. destruct (lessk c a) eqn:E; [|done].
  destruct (lessk a b) eqn:F.
  - pose proof (lessk_trans _ _ _ E F). congruence.
  - pose proof (lessk_total _ _ F H1). subst. congruence.
Qed.

End lessk_order.

(* ================================================================= *)
(** * Heap shape lemmas *)

Section heap_shape.
Implicit Types (f g : nat → option key) (n i j k : nat).

Lemma parent_lt j : (0 < j)%nat → (parent j < j)%nat.
Proof. unfold parent. intros. apply Nat.Div0.div_lt_upper_bound. lia. Qed.

Lemma parent_child i j :
  (0 < j)%nat → parent j = i ↔ (j = 2 * i + 1 ∨ j = 2 * i + 2)%nat.
Proof.
  unfold parent. intros Hj.
  pose proof (Nat.div_mod_eq (j - 1) 2) as E.
  pose proof (Nat.mod_upper_bound (j - 1) 2) as B.
  split; [intros <-; lia|].
  intros [-> | ->].
  - replace (2 * i + 1 - 1)%nat with (i * 2)%nat by lia. by rewrite Nat.div_mul.
  - replace (2 * i + 2 - 1)%nat with (1 + i * 2)%nat by lia.
    by rewrite Nat.div_add.
Qed.

Lemma heap_of_hole n f i :
  hole_inv n f i → children_ok n f i →
  ((0 < i < n)%nat → le_at f (parent i) i) →
  heap_upto n f.
Proof.
  intros [H1 _] H2 H3 j Hj.
  destruct (decide (j = i)) as [->|]; [by apply H3|].
  destruct (decide (parent j = i)) as [E|]; [rewrite E; by apply H2|].
  by apply H1.
Qed.

Lemma le_at_trans n f i j k :
  defined n f → (j < n)%nat → le_at f i j → le_at f j k → le_at f i k.
Proof.
  intros Hd Hj H1 H2 a c Ha Hc.
  destruct (Hd j Hj) as [b Hb].
  eapply lessk_le_trans; eauto.
Qed.

(** After the key at position [i] of a heap has changed, the heap condition
    holds everywhere but around [i]. *)
Lemma hole_of_heap_update n f g i :
  defined n f → heap_upto n f → (∀ k, k ≠ i → g k = f k) →
  hole_inv n g i.
Proof.
  intros Hd Hh Hg. split.
  - intros j Hj Hji Hpi a b. rewrite !Hg by done. by apply Hh.
  - intros j Hj Hp Hi a b.
    pose proof (parent_lt i Hi). pose proof (parent_lt j ltac:(lia)).
    rewrite !Hg by lia.
    apply (le_at_trans n f (parent i) i j); [done|lia|apply Hh; lia|].
    rewrite <- Hp. apply Hh; lia.
Qed.

Lemma hole_of_heap n f i : defined n f → heap_upto n f → hole_inv n f i.
Proof. intros. by apply (hole_of_heap_update n f f i). Qed.

Lemma children_of_heap n f i : heap_upto n f → children_ok n f i.
Proof. intros Hh j Hj <-. by apply Hh. Qed.

(** One iteration of [up] that swaps position [j] with its parent. *)
Lemma up_step n f g j :
  defined n f → hole_inv n f j → children_ok n f j → (0 < j < n)%nat →
  (∀ k, g k = f (transp (parent j) j k)) →
  (∀ a b, f j = Some a → f (parent j) = Some b → lessk a b = true) →
  hole_inv n g (parent j) ∧ children_ok n g (parent j).
Proof.
  intros Hd [H1 H2] Hc Hj Hg Hlt.
  pose proof (parent_lt j ltac:(lia)) as Hpj.
  assert (Hsib : ∀ k, (0 < k < n)%nat → parent k = parent j → le_at g (parent j) k).
  { intros k Hk Hpk a b. rewrite !Hg. unfold transp.
    pose proof (parent_lt k ltac:(lia)).
    repeat case_decide; subst; try lia.
    - intros Ha Hb. eapply lessk_asym, Hlt; eauto.
    - intros Ha Hb.
      destruct (Hd (parent j) ltac:(lia)) as [c Hcc].
      apply (lessk_le_trans a c b).
      + eapply lessk_asym, Hlt; eauto.
      + rewrite <- Hpk in Hcc. eapply (H1 k); eauto. lia. }
  split; [split|].
  - intros k Hk Hne Hpne a b. rewrite !Hg. unfold transp.
    pose proof (parent_lt k ltac:(lia)).
    repeat case_decide; subst; try lia.
    + intros Ha Hb. eapply (H2 k); eauto. lia.
    + by apply H1.
  - intros k Hk Hpk Hpos a b. rewrite !Hg. unfold transp.
    pose proof (parent_lt (parent j) Hpos).
    repeat case_decide; subst; try lia.
    + intros Ha Hb. eapply (H1 (parent j)); eauto; lia.
    + intros Ha Hb.
      apply (le_at_trans n f (parent (parent j)) (parent j) k); eauto; try lia.
      * apply H1; lia.
      * rewrite <- Hpk. apply H1; lia.
  - intros k Hk Hpk. by apply Hsib.
Qed.

(** One iteration of [down] that swaps position [i] with its least child [j]. *)
Lemma down_step n f g i j :
  defined n f → hole_inv n f i → (0 < j < n)%nat → parent j = i →
  (∀ j', (0 < j' < n)%nat → parent j' = i → le_at f j j') →
  (∀ k, g k = f (transp i j k)) →
  (∀ a b, f j = Some a → f i = Some b → lessk a b = true) →
  hole_inv n g j ∧ le_at g i j.
Proof.
  intros Hd [H1 H2] Hj Hp Hmin Hg Hlt.
  pose proof (parent_lt j ltac:(lia)) as Hpj.
  split; [split|].
  - intros k Hk Hne Hpne a b. rewrite !Hg. unfold transp.
    pose proof (parent_lt k ltac:(lia)).
    repeat case_decide; subst; try lia; intros Ha Hb.
    + eapply (Hmin k); eauto.
    + eapply (H2 j); eauto. lia.
    + eapply (H1 k); eauto.
  - intros k Hk Hpk Hpos a b. rewrite !Hg. unfold transp.
    pose proof (parent_lt k ltac:(lia)).
    repeat case_decide; subst; try lia.
    intros Ha Hb. eapply (H1 k); eauto; lia.
  - intros a b. rewrite !Hg. unfold transp.
    repeat case_decide; subst; try lia.
    intros Ha Hb. eapply lessk_asym, Hlt; eauto.
Qed.

(** The root of a heap is its least key. *)
Lemma root_min n f k :
  defined n f → heap_upto n f → (k < n)%nat → le_at f 0 k.
Proof.
  intros Hd Hh. induction (lt_wf k) as [k _ IH]. intros Hk.
  destruct (decide (k = 0)%nat) as [->|].
  - intros a b Ha Hb. simplify_eq. apply lessk_irrefl.
  - pose proof (parent_lt k ltac:(lia)).
    apply (le_at_trans n f 0 (parent k) k); [done|lia| |].
    + apply IH; lia.
    + apply Hh. lia.
Qed.

End heap_shape.

(* ================================================================= *)
(** * [Less] and [Swap] on a queue state *)

Lemma bind_Ok {A B} (a : A) (k : A → result B) : (Ok a ≫= k) = k a.
Proof. reflexivity. Qed.

Ltac rsimpl := unfold mbind, result_bind, rbind; simpl.

Section reading.
Implicit Types (s : queue) (i j k n : nat) (p : loc).

Lemma frame_refl s : frame s s.
Proof. by split. Qed.

Lemma frame_trans s1 s2 s3 : frame s1 s2 → frame s2 s3 → frame s1 s3.
Proof.
  intros [] []. split; try congruence.
  intros p. etrans; eauto.
Qed.

Lemma at_index_nat {A} (l : list A) i a :
  l !! i = Some a → at_index l (Z.of_nat i) = Ok a.
Proof.
  intros H. unfold at_index.
  destruct (Z.ltb_spec (Z.of_nat i) 0); [lia|].
  by rewrite Nat2Z.id, H.
Qed.

Lemma at_index_Ok {A} (l : list A) (z : Z) a :
  at_index l z = Ok a → 0 ≤ z ∧ l !! Z.to_nat z = Some a.
Proof.
  unfold at_index. destruct (Z.ltb_spec z 0); [done|].
  destruct (l !! Z.to_nat z); [|done]. intros [= ->]. done.
Qed.

Lemma deref_Some s p it : mem s !! p = Some it → deref s p = Ok it.
Proof. unfold deref. by intros ->. Qed.

Lemma idx_ok_inj s i j p :
  idx_ok s → q s !! i = Some p → q s !! j = Some p → i = j.
Proof.
  intros H Hi Hj.
  destruct (H _ _ Hi) as (it & E1 & E2), (H _ _ Hj) as (it' & E1' & E2').
  simplify_eq. lia.
Qed.

Lemma idx_ok_NoDup s : idx_ok s → NoDup (q s).
Proof.
  intros H. apply NoDup_alt. intros i j p. by apply idx_ok_inj.
Qed.

Lemma idx_ok_defined s : idx_ok s → defined (length (q s)) (key_at s).
Proof.
  intros H k Hk. destruct (lookup_lt_is_Some_2 _ _ Hk) as [p Hp].
  destruct (H _ _ Hp) as (it & E & _).
  unfold key_at, item_at. rewrite Hp, E. by eexists.
Qed.

Lemma defined_le n m (f : nat → option key) :
  (n ≤ m)%nat → defined m f → defined n f.
Proof. intros ? H k ?. apply H. lia. Qed.

Lemma key_at_frame_mem s s' k :
  q s' !! k = q s !! k →
  (∀ p, key_of <$> mem s' !! p = key_of <$> mem s !! p) →
  key_at s' k = key_at s k.
Proof.
  intros Hq Hm. unfold key_at, item_at. rewrite Hq.
  destruct (q s !! k); [apply Hm|done].
Qed.

(** [Less] compares the keys at the two positions. *)
Lemma Less_spec s i j :
  idx_ok s → (i < length (q s))%nat → (j < length (q s))%nat →
  ∃ a b, key_at s i = Some a ∧ key_at s j = Some b ∧
         queueItems.Less s (Z.of_nat i) (Z.of_nat j) = Ok (lessk a b).
Proof.
  intros H Hi Hj.
  destruct (lookup_lt_is_Some_2 _ _ Hi) as [pi Hpi].
  destruct (lookup_lt_is_Some_2 _ _ Hj) as [pj Hpj].
  destruct (H _ _ Hpi) as (a & Ea & _), (H _ _ Hpj) as (b & Eb & _).
  exists (key_of a), (key_of b). unfold key_at, item_at, queueItems.Less.
  rewrite Hpi, Hpj, Ea, Eb, (at_index_nat _ _ _ Hpi), (at_index_nat _ _ _ Hpj).
  rsimpl. by rewrite (deref_Some _ _ _ Ea), (deref_Some _ _ _ Eb).
Qed.

Lemma transp_invol i j k : transp i j (transp i j k) = k.
Proof. unfold transp. repeat case_decide; congruence. Qed.

(** [Swap] exchanges two positions and keeps the [index] fields right. *)
Lemma Swap_spec s i j :
  idx_ok s → (i < length (q s))%nat → (j < length (q s))%nat →
  ∃ s', queueItems.Swap s (Z.of_nat i) (Z.of_nat j) = Ok s' ∧
        idx_ok s' ∧ frame s s' ∧
        (∀ k, q s' !! k = q s !! transp i j k) ∧
        (∀ k, key_at s' k = key_at s (transp i j k)).
Proof.
  intros H Hi Hj.
  destruct (lookup_lt_is_Some_2 _ _ Hi) as [pi Hpi].
  destruct (lookup_lt_is_Some_2 _ _ Hj) as [pj Hpj].
  destruct (H _ _ Hpi) as (a & Ea & Ia), (H _ _ Hpj) as (b & Eb & Ib).
  unfold queueItems.Swap.
  rewrite (at_index_nat _ _ _ Hpi), (at_index_nat _ _ _ Hpj). rsimpl.
  rewrite !Nat2Z.id. unfold store_index, deref. simpl. rewrite Eb. rsimpl.
  set (m1 := <[pj := set_index b (Z.of_nat i)]> (mem s)).
  assert (∃ a', m1 !! pi = Some a' ∧ key_of a' = key_of a) as (a' & Ea' & Ka).
  { unfold m1. destruct (decide (pi = pj)) as [->|].
    - rewrite lookup_insert_eq. eexists; split; [done|]. by simplify_eq.
    - rewrite lookup_insert_ne by done. eauto. }
  rewrite Ea'.
  set (q' := <[j := pi]> (<[i := pj]> (q s))).
  set (m2 := <[pi := set_index a' (Z.of_nat j)]> m1).
  exists (Queue (currentPriority s) q' (pathIdx s) m2 (next s)).
  split; [done|].
  assert (Hq' : ∀ k, q' !! k = q s !! transp i j k).
  { intros k. unfold q', transp.
    destruct (decide (k = j)) as [->|].
    - rewrite list_lookup_insert_eq by (rewrite length_insert; lia).
      case_decide; by subst.
    - rewrite list_lookup_insert_ne by done.
      destruct (decide (k = i)) as [->|].
      + by rewrite list_lookup_insert_eq.
      + by rewrite list_lookup_insert_ne. }
  assert (Hm : ∀ p, key_of <$> m2 !! p = key_of <$> mem s !! p).
  { intros p. unfold m2, m1.
    destruct (decide (p = pi)) as [->|].
    - rewrite lookup_insert_eq, Ea. simpl. f_equal. apply Ka.
    - rewrite lookup_insert_ne by done.
      destruct (decide (p = pj)) as [->|].
      + by rewrite lookup_insert_eq, Eb.
      + by rewrite lookup_insert_ne. }
  split; [|split; [|split]].
  - intros k p. simpl. rewrite Hq'. intros Hk.
    destruct (H _ _ Hk) as (it & Eit & Iit). unfold m2, m1.
    destruct (decide (p = pi)) as [->|Hne].
    + rewrite lookup_insert_eq. eexists; split; [done|]. simpl.
      pose proof (idx_ok_inj _ _ _ _ H Hk Hpi) as Et.
      unfold transp in Et. repeat case_decide; subst; lia.
    + rewrite lookup_insert_ne by done.
      destruct (decide (p = pj)) as [->|Hne'].
      * rewrite lookup_insert_eq. eexists; split; [done|]. simpl.
        pose proof (idx_ok_inj _ _ _ _ H Hk Hpj) as Et.
        unfold transp in Et. repeat case_decide; subst; lia.
      * rewrite lookup_insert_ne by done. eexists; split; [done|].
        rewrite Iit. f_equal. unfold transp in *.
        repeat case_decide; subst; congruence.
  - split; simpl; try done.
    + unfold q'. by rewrite !length_insert.
    + intros p. rewrite !list_elem_of_lookup. split.
      * intros [k Hk]. rewrite Hq' in Hk. eauto.
      * intros [k Hk]. exists (transp i j k). by rewrite Hq', transp_invol.
  - done.
  - intros k. unfold key_at, item_at. simpl. rewrite Hq'.
    destruct (q s !! transp i j k); [apply Hm|done].
Qed.

End reading.

(* ================================================================= *)
(** * The loops of [container/heap] *)

Section heap_loops.
Implicit Types (s : queue) (i j k n : nat).

Lemma quot_parent j : Z.quot (Z.of_nat j - 1) 2 = Z.of_nat (parent j).
Proof.
  unfold parent. destruct j as [|j]; [done|].
  rewrite Z.quot_div_nonneg by lia.
  rewrite Nat2Z.inj_div, Nat2Z.inj_sub by lia. done.
Qed.

(** [up] restores the heap condition when only position [j] may be before
    its parent; it never exhausts its loop bound. *)
Lemma up_loop_spec fuel : ∀ s j n,
  idx_ok s → n = length (q s) → (j < n)%nat → (j < fuel)%nat →
  hole_inv n (key_at s) j → children_ok n (key_at s) j →
  ∃ s', heap.up_loop fuel s (Z.of_nat j) = Ok s' ∧
        idx_ok s' ∧ frame s s' ∧ heap_upto n (key_at s').
Proof.
  induction fuel as [|fuel IH]; intros s j n Hs Hn Hj Hf Hh Hc; [lia|].
  simpl. rewrite quot_parent. case_decide as Hpj.
  { exists s. split; [done|]. split; [done|]. split; [apply frame_refl|].
    apply (heap_of_hole n _ j); [done..|].
    intros ?. pose proof (parent_lt j). lia. }
  assert (0 < j)%nat as Hj0.
  { destruct j; [|lia]. by destruct Hpj. }
  pose proof (parent_lt j Hj0) as Hp.
  destruct (Less_spec s j (parent j) Hs) as (a & b & Ka & Kb & ->); [lia..|].
  rsimpl. destruct (lessk a b) eqn:Hab; simpl.
  - destruct (Swap_spec s (parent j) j Hs) as (s1 & -> & Hs1 & Hfr & Hq1 & Hk1);
      [lia..|].
    rsimpl.
    destruct (up_step n (key_at s) (key_at s1) j) as [Hh1 Hc1]; try done.
    { subst n. by apply idx_ok_defined. }
    { intros a' b' Ha' Hb'. by simplify_eq. }
    destruct (IH s1 (parent j) n) as (s' & E & Hs' & Hfr' & Hheap); try done.
    { by rewrite (frame_length _ _ Hfr). }
    { lia. }
    { lia. }
    exists s'. split; [done|]. split; [done|]. split; [|done].
    by apply (frame_trans s s1 s').
  - exists s. split; [done|]. split; [done|]. split; [apply frame_refl|].
    apply (heap_of_hole n _ j); [done..|].
    intros _ b' a' Hb' Ha'. by simplify_eq.
Qed.

(** [down] sinks position [i] below its lesser children.  It reports
    whether the position moved; when it did not, nothing changed and the
    children of [i] are in order. *)
Lemma down_loop_spec fuel : ∀ s i0 i n,
  idx_ok s → (n ≤ length (q s))%nat → (i0 ≤ i)%nat →
  (0 < fuel ∧ n < fuel + i)%nat →
  hole_inv n (key_at s) i →
  ∃ b s', heap.down_loop fuel s (Z.of_nat i0) (Z.of_nat i) (Z.of_nat n) = Ok (b, s') ∧
          idx_ok s' ∧ frame s s' ∧
          (∀ k, (n ≤ k)%nat → q s' !! k = q s !! k) ∧
          ((s' = s ∧ b = (Z.of_nat i0 <? Z.of_nat i) ∧ children_ok n (key_at s) i) ∨
           (b = true ∧ heap_upto n (key_at s'))).
Proof.
  induction fuel as [|fuel IH]; intros s i0 i n Hs Hn Hi0 Hf Hh; [lia|].
  pose proof (idx_ok_defined s Hs) as Hdef.
  apply (defined_le n) in Hdef; [|done].
  simpl. destruct (Z.leb_spec (Z.of_nat n) (2 * Z.of_nat i + 1)) as [Hle|Hlt]; simpl.
  { exists (Z.of_nat i0 <? Z.of_nat i), s.
    split; [done|]. split; [done|]. split; [apply frame_refl|]. split; [done|].
    left. split; [done|]. split; [done|].
    intros j Hj Hpj. apply parent_child in Hpj; lia. }
  destruct (Z.ltb_spec (2 * Z.of_nat i + 1) 0) as [?|_]; [lia|].
  (* the lesser child *)
  assert (∃ j,
    (if 2 * Z.of_nat i + 1 + 1 <? Z.of_nat n
     then b ← queueItems.Less s (2 * Z.of_nat i + 1 + 1) (2 * Z.of_nat i + 1);
          Ok (if b : bool then 2 * Z.of_nat i + 1 + 1 else 2 * Z.of_nat i + 1)
     else Ok (2 * Z.of_nat i + 1)) = Ok (Z.of_nat j) ∧
    (0 < j < n)%nat ∧ parent j = i ∧
    ∀ j', (0 < j' < n)%nat → parent j' = i → le_at (key_at s) j j')
    as (j & -> & Hj & Hpj & Hmin).
  { destruct (Z.ltb_spec (2 * Z.of_nat i + 1 + 1) (Z.of_nat n)) as [H2|H2].
    - replace (2 * Z.of_nat i + 1 + 1) with (Z.of_nat (2 * i + 2)) by lia.
      replace (2 * Z.of_nat i + 1) with (Z.of_nat (2 * i + 1)) by lia.
      destruct (Less_spec s (2 * i + 2) (2 * i + 1) Hs) as (a & b & Ka & Kb & ->);
        [lia..|].
      rsimpl. destruct (lessk a b) eqn:Hab.
      + exists (2 * i + 2)%nat. split; [done|]. split; [lia|].
        split; [apply parent_child; lia|].
        intros j' Hj' Hp'. apply parent_child in Hp'; [|lia].
        intros x y Hx Hy. destruct Hp' as [-> | ->]; simplify_eq.
        * by apply lessk_asym.
        * apply lessk_irrefl.
      + exists (2 * i + 1)%nat. split; [done|]. split; [lia|].
        split; [apply parent_child; lia|].
        intros j' Hj' Hp'. apply parent_child in Hp'; [|lia].
        intros x y Hx Hy. destruct Hp' as [-> | ->]; simplify_eq.
        * apply lessk_irrefl.
        * done.
    - exists (2 * i + 1)%nat. split; [f_equal; lia|]. split; [lia|].
      split; [apply parent_child; lia|].
      intros j' Hj' Hp'. apply parent_child in Hp'; [|lia].
      intros x y Hx Hy. destruct Hp' as [-> | ->]; [|lia].
      simplify_eq. apply lessk_irrefl. }
  rsimpl.
  assert (i < j)%nat as Hij by (pose proof (parent_lt j); lia).
  destruct (Less_spec s j i Hs) as (a & b & Ka & Kb & ->); [lia..|].
  rsimpl. destruct (lessk a b) eqn:Hab; simpl.
  - destruct (Swap_spec s i j Hs) as (s1 & -> & Hs1 & Hfr & Hq1 & Hk1); [lia..|].
    rsimpl.
    destruct (down_step n (key_at s) (key_at s1) i j) as [Hh1 Hle1]; try done.
    { intros a' b' Ha' Hb'. by simplify_eq. }
    destruct (IH s1 i0 j n) as (b' & s' & E & Hs' & Hfr' & Hq' & Hpost); try done.
    { by rewrite (frame_length _ _ Hfr). }
    { lia. }
    { lia. }
    exists true, s'. split.
    { rewrite E. destruct Hpost as [(_ & -> & _)|[-> _]]; [|done].
      do 2 f_equal. apply Z.ltb_lt. lia. }
    split; [done|]. split; [by apply (frame_trans s s1 s')|]. split.
    { intros k Hk. rewrite Hq' by done. rewrite Hq1. f_equal.
      unfold transp. repeat case_decide; lia. }
    right. split; [done|].
    destruct Hpost as [(-> & _ & Hc)|[_ ?]]; [|done].
    apply (heap_of_hole n _ j); [done..|]. intros _. by rewrite Hpj.
  - exists (Z.of_nat i0 <? Z.of_nat i), s.
    split; [done|]. split; [done|]. split; [apply frame_refl|]. split; [done|].
    left. split; [done|]. split; [done|].
    intros k Hk Hpk.
    apply (le_at_trans n _ i j k); [done|lia| |by apply Hmin].
    intros b' a' Hb' Ha'. by simplify_eq.
Qed.

End heap_loops.

(* ================================================================= *)
(** * [heap.Fix], [heap.Push] and [heap.Pop] *)

Section heap_operations.
Implicit Types (s : queue) (i j k n : nat) (p x : loc).

Lemma Fix_spec s i :
  idx_ok s → (i < length (q s))%nat →
  hole_inv (length (q s)) (key_at s) i →
  ∃ s', heap.Fix s (Z.of_nat i) = Ok s' ∧ idx_ok s' ∧ frame s s' ∧
        heap_upto (length (q s)) (key_at s').
Proof.
  intros Hs Hi Hh. unfold heap.Fix, heap.down, queueItems.Len.
  rewrite Nat2Z.id.
  destruct (down_loop_spec (S (length (q s))) s i i (length (q s)))
    as (b & s1 & -> & Hs1 & Hfr & _ & Hpost); [done|lia|lia|lia|done|].
  rsimpl. destruct Hpost as [(-> & -> & Hc)|[-> Hheap]].
  - rewrite Z.ltb_irrefl. simpl. unfold heap.up. rewrite Nat2Z.id.
    by apply up_loop_spec; [|done|lia|lia|..].
  - simpl. by exists s1.
Qed.

Lemma Push_spec s x it :
  idx_ok s → heap_upto (length (q s)) (key_at s) →
  mem s !! x = Some it → x ∉ q s →
  ∃ s', heap.Push s x = Ok s' ∧ idx_ok s' ∧
        heap_upto (S (length (q s))) (key_at s') ∧
        length (q s') = S (length (q s)) ∧
        pathIdx s' = pathIdx s ∧ currentPriority s' = currentPriority s ∧
        next s' = next s ∧
        (∀ p, p ∈ q s' ↔ p ∈ q s ∨ p = x) ∧
        (∀ p, key_of <$> mem s' !! p = key_of <$> mem s !! p).
Proof.
  intros Hs Hheap Hx Hnx.
  unfold heap.Push, queueItems.Push, store_index.
  rewrite (deref_Some _ _ _ Hx). rsimpl. unfold queueItems.Len.
  set (n := length (q s)).
  set (s1 := with_q (with_mem s (<[x := set_index it (Z.of_nat n)]> (mem s)))
                    (q s ++ [x])).
  assert (Hm1 : ∀ p, key_of <$> mem s1 !! p = key_of <$> mem s !! p).
  { intros p. simpl. destruct (decide (p = x)) as [->|].
    - by rewrite lookup_insert_eq, Hx.
    - by rewrite lookup_insert_ne. }
  assert (Hs1 : idx_ok s1).
  { intros k p. simpl. intros Hk.
    destruct (decide (k < n)%nat) as [Hlt|Hge].
    - rewrite lookup_app_l in Hk by done.
      destruct (Hs _ _ Hk) as (it' & E & I).
      assert (p ≠ x) by (intros ->; apply Hnx; by eapply list_elem_of_lookup_2).
      rewrite lookup_insert_ne by done. eauto.
    - rewrite lookup_app_r in Hk by (fold n; lia).
      apply list_lookup_singleton_Some in Hk as [Hk0 <-].
      rewrite lookup_insert_eq. eexists; split; [done|]. simpl. fold n in Hk0. lia. }
  assert (Hk1 : ∀ k, (k < n)%nat → key_at s1 k = key_at s k).
  { intros k Hk. apply key_at_frame_mem; [|done].
    simpl. by rewrite lookup_app_l. }
  assert (Hlen1 : length (q s1) = S n).
  { simpl. rewrite length_app. simpl. fold n. lia. }
  rewrite Hlen1. unfold heap.up.
  replace (Z.of_nat (S n) - 1) with (Z.of_nat n) by lia. rewrite Nat2Z.id.
  destruct (up_loop_spec (S n) s1 n (S n)) as (s' & -> & Hs' & Hfr & Hheap');
    [done|done|lia|lia|..].
  { split.
    - intros j Hj Hne Hpne a b. pose proof (parent_lt j ltac:(lia)).
      rewrite !Hk1 by lia. apply Hheap. fold n. lia.
    - intros j Hj Hp. pose proof (parent_lt j ltac:(lia)). lia. }
  { intros j Hj Hp. pose proof (parent_lt j ltac:(lia)). lia. }
  exists s'. split; [done|]. split; [done|]. split; [done|].
  destruct Hfr as [F1 F2 F3 F4 F5 F6].
  split; [by rewrite F4|]. split; [by rewrite F1|]. split; [by rewrite F2|].
  split; [by rewrite F3|]. split.
  - intros p. rewrite F5. simpl. by rewrite elem_of_app, list_elem_of_singleton.
  - intros p. by rewrite F6.
Qed.

Lemma Pop_spec s :
  idx_ok s → heap_upto (length (q s)) (key_at s) → (0 < length (q s))%nat →
  ∃ p0 it0 s', q s !! 0%nat = Some p0 ∧ mem s !! p0 = Some it0 ∧
    heap.Pop s = Ok (p0, s') ∧ idx_ok s' ∧
    heap_upto (length (q s) - 1) (key_at s') ∧
    length (q s') = (length (q s) - 1)%nat ∧
    pathIdx s' = pathIdx s ∧ currentPriority s' = currentPriority s ∧
    next s' = next s ∧
    (∀ p, p ∈ q s' ↔ p ∈ q s ∧ p ≠ p0) ∧
    (∀ p, key_of <$> mem s' !! p = key_of <$> mem s !! p).
Proof.
  intros Hs Hheap Hlen.
  destruct (lookup_lt_is_Some_2 (q s) 0) as [p0 Hp0]; [done|].
  destruct (Hs _ _ Hp0) as (it0 & E0 & I0).
  exists p0, it0.
  set (n := (length (q s) - 1)%nat).
  unfold heap.Pop, queueItems.Len.
  replace (Z.of_nat (length (q s)) - 1) with (Z.of_nat n) by lia.
  destruct (Swap_spec s 0 n Hs) as (s1 & E1 & Hs1 & Hfr1 & Hq1 & Hk1); [lia..|].
  change 0 with (Z.of_nat 0). rewrite E1. rsimpl.
  unfold heap.down. rewrite Nat2Z.id.
  destruct (down_loop_spec (S n) s1 0 0 n)
    as (b & s2 & -> & Hs2 & Hfr2 & Hq2 & Hpost); [done| |lia|lia|..].
  { rewrite (frame_length _ _ Hfr1). lia. }
  { split; [|lia].
    intros j Hj Hne Hpne x y. rewrite !Hk1. unfold transp.
    pose proof (parent_lt j ltac:(lia)).
    repeat case_decide; try lia. apply Hheap. lia. }
  rsimpl.
  assert (Hheap2 : heap_upto n (key_at s2)).
  { destruct Hpost as [(-> & _ & Hc)|[_ ?]]; [|done].
    apply (heap_of_hole n _ 0%nat); [|done|lia].
    split; [|lia].
    intros j Hj Hne Hpne x y. rewrite !Hk1. unfold transp.
    pose proof (parent_lt j ltac:(lia)).
    repeat case_decide; try lia. apply Hheap. lia. }
  assert (Hlen2 : length (q s2) = S n).
  { rewrite (frame_length _ _ Hfr2), (frame_length _ _ Hfr1). lia. }
  assert (Hlast : q s2 !! n = Some p0).
  { rewrite Hq2 by done. rewrite Hq1. unfold transp.
    repeat case_decide; try done; congruence. }
  destruct (Hs2 _ _ Hlast) as (it2 & E2 & I2).
  unfold queueItems.Pop, queueItems.Len, store_index. rewrite Hlen2.
  replace (Z.of_nat (S n) - 1) with (Z.of_nat n) by lia.
  rewrite (at_index_nat _ _ _ Hlast). rsimpl.
  rewrite (deref_Some _ _ _ E2). rsimpl. rewrite Nat2Z.id.
  eexists. split; [done|]. split; [done|]. split; [done|].
  pose proof (idx_ok_NoDup _ Hs2) as Hnd.
  assert (Hsplit : q s2 = take n (q s2) ++ [p0]).
  { rewrite <- (take_drop n (q s2)) at 1. f_equal.
    apply list_eq. intros k. rewrite lookup_drop.
    destruct k as [|k]; simpl.
    - by rewrite Nat.add_0_r.
    - rewrite lookup_ge_None_2; [done|]. lia. }
  assert (Hnotin : ∀ p, p ∈ take n (q s2) → p ≠ p0).
  { intros p Hp ->. rewrite Hsplit in Hnd.
    apply NoDup_app in Hnd as (_ & Hd & _). apply (Hd p0 Hp). by left. }
  assert (Hkeys : ∀ p, key_of <$> mem s2 !! p = key_of <$> mem s !! p).
  { intros p. by rewrite (frame_mem _ _ Hfr2), (frame_mem _ _ Hfr1). }
  split; [|split; [|split; [|split; [|split; [|split; [|split]]]]]]; simpl.
  - intros k p. simpl. intros Hk. apply lookup_take_Some in Hk as [Hk Hkn].
    destruct (Hs2 _ _ Hk) as (it & E & I).
    rewrite lookup_insert_ne; [eauto|].
    intros ->. pose proof (idx_ok_inj _ _ _ _ Hs2 Hk Hlast). lia.
  - intros j Hj x y Ha Hb. apply (Hheap2 j Hj).
    + revert Ha. unfold key_at, item_at. simpl.
      pose proof (parent_lt j ltac:(lia)).
      rewrite lookup_take_lt by lia.
      destruct (q s2 !! parent j) as [p|] eqn:Ep; [|done].
      rewrite lookup_insert_ne; [done|].
      intros ->. pose proof (idx_ok_inj _ _ _ _ Hs2 Ep Hlast). lia.
    + revert Hb. unfold key_at, item_at. simpl.
      rewrite lookup_take_lt by lia.
      destruct (q s2 !! j) as [p|] eqn:Ep; [|done].
      rewrite lookup_insert_ne; [done|].
      intros ->. pose proof (idx_ok_inj _ _ _ _ Hs2 Ep Hlast). lia.
  - rewrite length_take. lia.
  - by rewrite (frame_pathIdx _ _ Hfr2), (frame_pathIdx _ _ Hfr1).
  - by rewrite (frame_currentPriority _ _ Hfr2), (frame_currentPriority _ _ Hfr1).
  - by rewrite (frame_next _ _ Hfr2), (frame_next _ _ Hfr1).
  - intros p. rewrite <- (frame_elem _ _ Hfr1), <- (frame_elem _ _ Hfr2).
    rewrite Hsplit at 2. rewrite elem_of_app, list_elem_of_singleton.
    split; [intros Hp; split; [by left|by apply Hnotin]|].
    intros [[?| ->] ?]; done.
  - intros p. rewrite <- Hkeys. destruct (decide (p = p0)) as [->|].
    + by rewrite lookup_insert_eq, E2.
    + by rewrite lookup_insert_ne.
Qed.

End heap_operations.

(* ================================================================= *)
(** * The loop bounds are never reached

    On every state, well formed or not, the operations of the queue return
    or panic: the bounds given to the loops of [up] and [down] are enough. *)

Section loop_bounds.
Implicit Types (s h : queue) (i j n : Z).

Lemma rop_Ok {A} (a : A) : returns_or_panics (Ok a).
Proof. right. by exists a. Qed.

Lemma rop_Panic {A} : returns_or_panics (@Panic A).
Proof. by left. Qed.

Lemma rop_bind {A B} (m : result A) (k : A → result B) :
  returns_or_panics m → (∀ a, m = Ok a → returns_or_panics (k a)) →
  returns_or_panics (m ≫= k).
Proof.
  intros [->|[a ->]] Hk; [apply rop_Panic|]. rewrite bind_Ok. by apply Hk.
Qed.

Lemma at_index_rop {A} (l : list A) i : returns_or_panics (at_index l i).
Proof.
  unfold at_index. destruct (i <? 0); [apply rop_Panic|].
  destruct (l !! Z.to_nat i); [apply rop_Ok|apply rop_Panic].
Qed.

Lemma deref_rop s p : returns_or_panics (deref s p).
Proof. unfold deref. destruct (mem s !! p); [apply rop_Ok|apply rop_Panic]. Qed.

Lemma store_index_rop s p i : returns_or_panics (store_index s p i).
Proof.
  unfold store_index. apply rop_bind; [apply deref_rop|]. intros. apply rop_Ok.
Qed.

Lemma Less_rop s i j : returns_or_panics (queueItems.Less s i j).
Proof.
  unfold queueItems.Less.
  repeat (apply rop_bind; [apply at_index_rop || apply deref_rop|]; intros).
  apply rop_Ok.
Qed.

Lemma Less_Ok_range s i j b :
  queueItems.Less s i j = Ok b → 0 ≤ i ∧ 0 ≤ j.
Proof.
  unfold queueItems.Less. intros H.
  destruct (at_index (q s) i) as [pi| | |] eqn:Ei; try done.
  rewrite bind_Ok in H. destruct (deref s pi); try done. rewrite bind_Ok in H.
  destruct (at_index (q s) j) as [pj| | |] eqn:Ej; try done.
  apply at_index_Ok in Ei as [? _]. apply at_index_Ok in Ej as [? _]. done.
Qed.

Lemma Swap_rop s i j : returns_or_panics (queueItems.Swap s i j).
Proof.
  unfold queueItems.Swap.
  repeat (apply rop_bind; [apply at_index_rop || apply store_index_rop|]; intros).
  apply store_index_rop.
Qed.

Lemma up_loop_rop fuel : ∀ h j,
  (Z.to_nat j < fuel)%nat → returns_or_panics (heap.up_loop fuel h j).
Proof.
  induction fuel as [|fuel IH]; intros h j Hf; [lia|]. simpl.
  case_decide as Hij; [apply rop_Ok|].
  apply rop_bind; [apply Less_rop|]. intros b Hb.
  destruct b; simpl; [|apply rop_Ok].
  apply rop_bind; [apply Swap_rop|]. intros h' _. apply IH.
  apply Less_Ok_range in Hb as [Hj _].
  assert (1 ≤ j).
  { destruct (decide (j = 0)) as [->|]; [by destruct Hij|lia]. }
  pose proof (Z.quot_lt (j - 1) 2). pose proof (Z.quot_pos (j - 1) 2).
  assert (Z.quot (j - 1) 2 < j).
  { destruct (decide (j = 1)) as [->|]; [done|]. lia. }
  lia.
Qed.

Lemma up_rop h j : returns_or_panics (heap.up h j).
Proof. apply up_loop_rop. lia. Qed.

Lemma down_loop_rop fuel : ∀ h i0 i n,
  (0 < fuel ∧ Z.to_nat n < fuel + Z.to_nat i)%nat →
  returns_or_panics (heap.down_loop fuel h i0 i n).
Proof.
  induction fuel as [|fuel IH]; intros h i0 i n Hf; [lia|]. simpl.
  destruct (Z.leb_spec n (2 * i + 1)); simpl; [apply rop_Ok|].
  destruct (Z.ltb_spec (2 * i + 1) 0); simpl; [apply rop_Ok|].
  apply rop_bind.
  { destruct (2 * i + 1 + 1 <? n); [|apply rop_Ok].
    apply rop_bind; [apply Less_rop|]. intros. apply rop_Ok. }
  intros j Hj.
  assert (2 * i + 1 ≤ j < n) as Hjn.
  { destruct (Z.ltb_spec (2 * i + 1 + 1) n).
    - destruct (queueItems.Less h (2 * i + 1 + 1) (2 * i + 1)) as [[]| | |];
        simpl in Hj; simplify_eq; lia.
    - simplify_eq. lia. }
  apply rop_bind; [apply Less_rop|]. intros b Hb.
  destruct b; simpl; [|apply rop_Ok].
  apply rop_bind; [apply Swap_rop|]. intros h' _. apply IH. lia.
Qed.

Lemma down_rop h i0 n : returns_or_panics (heap.down h i0 n).
Proof. apply down_loop_rop. lia. Qed.

Lemma Fix_rop h i : returns_or_panics (heap.Fix h i).
Proof.
  unfold heap.Fix. apply rop_bind; [apply down_rop|]. intros [b h'] _.
  destruct b; simpl; [apply rop_Ok|apply up_rop].
Qed.

Lemma heap_Push_rop h x : returns_or_panics (heap.Push h x).
Proof.
  unfold heap.Push, queueItems.Push.
  apply rop_bind; [|intros; apply up_rop].
  apply rop_bind; [apply store_index_rop|]. intros. apply rop_Ok.
Qed.

Lemma heap_Pop_rop h : returns_or_panics (heap.Pop h).
Proof.
  unfold heap.Pop, queueItems.Pop.
  apply rop_bind; [apply Swap_rop|]. intros.
  apply rop_bind; [apply down_rop|]. intros.
  apply rop_bind; [apply at_index_rop|]. intros.
  apply rop_bind; [apply store_index_rop|]. intros. apply rop_Ok.
Qed.

Lemma addOrUpdate_rop k prio s : returns_or_panics (_addOrUpdate k prio s).
Proof.
  unfold _addOrUpdate. destruct (pathIdx s !! k).
  - apply rop_bind; [apply deref_rop|]. intros it _.
    destruct (_ && _); [|apply rop_Ok].
    apply rop_bind; [apply deref_rop|]. intros. apply Fix_rop.
  - apply rop_bind; [apply heap_Push_rop|]. intros. apply rop_Ok.
Qed.

Lemma addAll_rop l : ∀ prio s, returns_or_panics (addAll l prio s).
Proof.
  induction l as [|k l IH]; intros prio s; simpl; [apply rop_Ok|].
  apply rop_bind; [apply addOrUpdate_rop|]. intros. apply IH.
Qed.

(** [enqueue] and [pop] return or panic on every state. *)
Lemma enqueue_rop inv bg s : returns_or_panics (enqueue inv bg s).
Proof.
  unfold enqueue. apply rop_bind; [apply addAll_rop|]. intros. apply addAll_rop.
Qed.

Lemma pop_rop s : returns_or_panics (pop s).
Proof.
  unfold pop. destruct (_ =? _); [apply rop_Ok|].
  apply rop_bind; [apply heap_Pop_rop|]. intros.
  apply rop_bind; [apply deref_rop|]. intros. apply rop_Ok.
Qed.

End loop_bounds.

(* ================================================================= *)
(** * [_addOrUpdate], [enqueue] and [pop] on well-formed queues *)

Section wf_facts.
Implicit Types (s : queue) (i j n : nat) (p : loc) (k : string).

Lemma key_routePath (a b : option queueItem) :
  key_of <$> a = key_of <$> b → routePath <$> a = routePath <$> b.
Proof. destruct a, b; simpl; intros [=]; congruence. Qed.

Lemma key_priority (a b : option queueItem) :
  key_of <$> a = key_of <$> b → priority <$> a = priority <$> b.
Proof. destruct a, b; simpl; intros [=]; congruence. Qed.

Lemma key_of_Some (a : option queueItem) z r :
  key_of <$> a = Some (z, r) →
  ∃ it, a = Some it ∧ priority it = z ∧ routePath it = r.
Proof.
  destruct a as [it|]; simpl; [|done]. unfold key_of. intros [= <- <-]. eauto.
Qed.

Lemma key_is_Some (a b : option queueItem) :
  key_of <$> a = key_of <$> b → is_Some a → is_Some b.
Proof. destruct a, b; simpl; intros [=] [? ?]; by eauto. Qed.

Lemma path_ok_transfer s s' :
  pathIdx s' = pathIdx s → (∀ p, p ∈ q s' ↔ p ∈ q s) →
  (∀ p, rp_of s' p = rp_of s p) → path_ok s → path_ok s'.
Proof.
  intros Hp Hq Hr H k p. by rewrite Hp, Hq, Hr.
Qed.

Lemma wf_emptyQueue : wf emptyQueue.
Proof.
  split; simpl.
  - intros i p. simpl. by rewrite lookup_nil.
  - intros k p. simpl. rewrite lookup_empty. split; [done|].
    intros [H _]. by apply elem_of_nil in H.
  - intros p [? H]. by rewrite lookup_empty in H.
  - intros j. simpl. lia.
  - lia.
  - intros p it. by rewrite lookup_empty.
Qed.

Lemma newQueue_eq : newQueue = Ok emptyQueue.
Proof. reflexivity. Qed.

(** The pointer and the position behind a key of the index. *)
Lemma wf_lookup s k p :
  wf s → pathIdx s !! k = Some p →
  ∃ i it, q s !! i = Some p ∧ mem s !! p = Some it ∧
          routePath it = k ∧ index it = Z.of_nat i.
Proof.
  intros Hwf Hk. apply (wf_path _ Hwf) in Hk as [Hin Hrp].
  apply list_elem_of_lookup in Hin as [i Hi].
  destruct (wf_idx _ Hwf _ _ Hi) as (it & E & I).
  exists i, it. unfold rp_of in Hrp. rewrite E in Hrp. simpl in Hrp.
  by simplify_eq.
Qed.

(** Promotion of a queued item: the priority is written through the
    pointer, then [heap.Fix] restores the heap. *)
Lemma promote_spec s k p it prio :
  wf s → pathIdx s !! k = Some p → mem s !! p = Some it → 0 ≤ prio < 2 ^ 64 →
  ∃ s', heap.Fix (with_mem s (<[p := set_priority it prio]> (mem s))) (index it)
          = Ok s' ∧
        wf s' ∧ currentPriority s' = currentPriority s ∧
        ∀ k', prio_of s' k' = if decide (k' = k) then Some prio else prio_of s k'.
Proof.
  intros Hwf Hk Hit Hprio.
  destruct (wf_lookup _ _ _ Hwf Hk) as (i & it' & Hi & E & Hrp & Hidx).
  simplify_eq.
  set (s1 := with_mem s (<[p := set_priority it prio]> (mem s))).
  assert (Hs1 : idx_ok s1).
  { intros j p' Hj. simpl in *. destruct (decide (p' = p)) as [->|].
    - rewrite lookup_insert_eq. eexists; split; [done|]. simpl.
      by rewrite (idx_ok_inj _ _ _ _ (wf_idx _ Hwf) Hj Hi).
    - rewrite lookup_insert_ne by done. by apply (wf_idx _ Hwf). }
  assert (Hk1 : ∀ j, j ≠ i → key_at s1 j = key_at s j).
  { intros j Hj. unfold key_at, item_at. simpl.
    destruct (q s !! j) as [p'|] eqn:Ep; [|done].
    rewrite lookup_insert_ne; [done|].
    intros ->. by pose proof (idx_ok_inj _ _ _ _ (wf_idx _ Hwf) Ep Hi). }
  rewrite Hidx.
  destruct (Fix_spec s1 i Hs1) as (s' & E' & Hs' & Hfr & Hheap).
  { simpl. by eapply lookup_lt_Some. }
  { simpl. eapply hole_of_heap_update; [|apply (wf_heap _ Hwf)|done].
    apply idx_ok_defined, Hwf. }
  exists s'. split; [done|].
  assert (Hkeys : ∀ p', key_of <$> mem s' !! p' =
             if decide (p' = p) then Some (prio, routePath it)
             else key_of <$> mem s !! p').
  { intros p'. rewrite (frame_mem _ _ Hfr). simpl. case_decide; subst.
    - by rewrite lookup_insert_eq.
    - by rewrite lookup_insert_ne. }
  assert (Hprios : ∀ p', priority <$> mem s' !! p' =
             if decide (p' = p) then Some prio else priority <$> mem s !! p').
  { intros p'. specialize (Hkeys p'). case_decide.
    - by apply key_of_Some in Hkeys as (x & -> & <- & _).
    - by apply key_priority. }
  assert (Hrps : ∀ p', rp_of s' p' = rp_of s p').
  { intros p'. unfold rp_of. specialize (Hkeys p'). case_decide; subst.
    - rewrite Hit. apply key_of_Some in Hkeys as (x & -> & _ & Hx).
      simpl. by rewrite Hx.
    - by apply key_routePath. }
  split; [split|split].
  - done.
  - apply (path_ok_transfer s); [|apply Hfr|done|apply Hwf].
    by rewrite (frame_pathIdx _ _ Hfr).
  - intros p' Hp'. rewrite (frame_next _ _ Hfr). simpl.
    apply (wf_fresh _ Hwf). specialize (Hkeys p').
    case_decide; subst; [by eexists|].
    by apply (key_is_Some _ _ Hkeys).
  - by rewrite (frame_length _ _ Hfr).
  - rewrite (frame_currentPriority _ _ Hfr). apply Hwf.
  - intros p' it' Hp'. specialize (Hprios p'). rewrite Hp' in Hprios.
    simpl in Hprios. case_decide.
    + by injection Hprios as ->.
    + destruct (mem s !! p') as [it''|] eqn:E''; simpl in Hprios; [|done].
      injection Hprios as ->. by apply (wf_prio _ Hwf p').
  - by rewrite (frame_currentPriority _ _ Hfr).
  - intros k'. unfold prio_of. rewrite (frame_pathIdx _ _ Hfr). simpl.
    case_decide; subst.
    + by rewrite Hk, Hprios, decide_True.
    + destruct (pathIdx s !! k') as [p'|] eqn:Ek'; [|done].
      rewrite Hprios, decide_False; [done|].
      intros ->. destruct (wf_lookup _ _ _ Hwf Ek') as (? & ? & ? & ? & ? & ?).
      by simplify_eq.
Qed.

Lemma wf_queued_allocated s p : wf s → p ∈ q s → (p < next s)%nat.
Proof.
  intros Hwf Hp. apply list_elem_of_lookup in Hp as [i Hi].
  destruct (wf_idx _ Hwf _ _ Hi) as (it & E & _).
  apply (wf_fresh _ Hwf). by eexists.
Qed.

(** Insertion of a new item: it is allocated, pushed on the heap, and then
    entered into the key index. *)
Lemma insert_spec s k prio :
  wf s → pathIdx s !! k = None → 0 ≤ prio < 2 ^ 64 →
  ∃ s2, heap.Push (Queue (currentPriority s) (q s) (pathIdx s)
                         (<[next s := QueueItem prio k 0]> (mem s)) (S (next s)))
                  (next s) = Ok s2 ∧
        wf (with_pathIdx s2 (<[k := next s]> (pathIdx s2))) ∧
        currentPriority s2 = currentPriority s ∧
        ∀ k', prio_of (with_pathIdx s2 (<[k := next s]> (pathIdx s2))) k' =
              if decide (k' = k) then Some prio else prio_of s k'.
Proof.
  intros Hwf Hk Hprio.
  set (x := next s).
  set (s1 := Queue (currentPriority s) (q s) (pathIdx s)
                   (<[x := QueueItem prio k 0]> (mem s)) (S x)).
  assert (Hfreshx : mem s !! x = None).
  { destruct (mem s !! x) eqn:E; [|done].
    pose proof (wf_fresh _ Hwf x ltac:(by eexists)). unfold x in *. lia. }
  assert (Hqx : ∀ p, p ∈ q s → p ≠ x).
  { intros p Hp ->. pose proof (wf_queued_allocated _ _ Hwf Hp). unfold x in *. lia. }
  assert (Hs1 : idx_ok s1).
  { intros j p Hj. simpl in *. rewrite lookup_insert_ne.
    - by apply (wf_idx _ Hwf).
    - intros <-. eapply Hqx; [|done]. by eapply list_elem_of_lookup_2. }
  assert (Hk1 : ∀ j, key_at s1 j = key_at s j).
  { intros j. unfold key_at, item_at. simpl.
    destruct (q s !! j) as [p|] eqn:Ep; [|done].
    rewrite lookup_insert_ne; [done|].
    intros <-. eapply Hqx; [|done]. by eapply list_elem_of_lookup_2. }
  destruct (Push_spec s1 x (QueueItem prio k 0) Hs1)
    as (s2 & E2 & Hs2 & Hheap2 & Hlen2 & Hp2 & Hc2 & Hn2 & Hel2 & Hm2).
  { intros j Hj a b. rewrite !Hk1. by apply (wf_heap _ Hwf). }
  { simpl. by rewrite lookup_insert_eq. }
  { simpl. intros Hx. by apply (Hqx x). }
  exists s2. split; [done|].
  assert (Hkeys : ∀ p, key_of <$> mem s2 !! p =
             if decide (p = x) then Some (prio, k) else key_of <$> mem s !! p).
  { intros p. rewrite Hm2. simpl. case_decide; subst.
    - by rewrite lookup_insert_eq.
    - by rewrite lookup_insert_ne. }
  assert (Hprios : ∀ p, priority <$> mem s2 !! p =
             if decide (p = x) then Some prio else priority <$> mem s !! p).
  { intros p. specialize (Hkeys p). case_decide.
    - by apply key_of_Some in Hkeys as (y & -> & <- & _).
    - by apply key_priority. }
  assert (Hrps : ∀ p, rp_of s2 p =
             if decide (p = x) then Some k else rp_of s p).
  { intros p. unfold rp_of. specialize (Hkeys p). case_decide.
    - by apply key_of_Some in Hkeys as (y & -> & _ & <-).
    - by apply key_routePath. }
  simpl in Hp2, Hc2, Hn2, Hel2.
  split; [split|split]; simpl.
  - done.
  - intros k' p. simpl.
    change (rp_of (with_pathIdx s2 _) p) with (rp_of s2 p).
    rewrite Hp2, Hel2, Hrps.
    destruct (decide (k' = k)) as [->|Hne].
    + rewrite lookup_insert_eq. split.
      * intros [= <-]. rewrite decide_True by done. auto.
      * intros [[Hin| ->] Hr]; [|done].
        rewrite decide_False in Hr by by apply Hqx.
        assert (pathIdx s !! k = Some p) by by apply (wf_path _ Hwf).
        congruence.
    + rewrite lookup_insert_ne by done. rewrite (wf_path _ Hwf k' p). split.
      * intros [Hin Hr]. split; [by left|].
        by rewrite decide_False by by apply Hqx.
      * intros [[Hin| ->] Hr].
        -- split; [done|]. by rewrite decide_False in Hr by by apply Hqx.
        -- rewrite decide_True in Hr by done. congruence.
  - intros p Hp. rewrite Hn2. specialize (Hkeys p).
    case_decide; subst; [unfold x; lia|].
    pose proof (wf_fresh _ Hwf p (key_is_Some _ _ Hkeys Hp)). lia.
  - by rewrite Hlen2.
  - rewrite Hc2. apply Hwf.
  - intros p it' Hp. specialize (Hprios p). rewrite Hp in Hprios.
    simpl in Hprios. case_decide.
    + by injection Hprios as ->.
    + destruct (mem s !! p) as [it''|] eqn:E''; simpl in Hprios; [|done].
      injection Hprios as ->. by apply (wf_prio _ Hwf p).
  - done.
  - intros k'. unfold prio_of. simpl. rewrite Hp2.
    case_decide; subst.
    + by rewrite lookup_insert_eq, Hprios, decide_True.
    + rewrite lookup_insert_ne by done.
      destruct (pathIdx s !! k') as [p'|] eqn:Ek'; [|done].
      rewrite Hprios, decide_False; [done|].
      apply Hqx. by apply (wf_path _ Hwf k' p').
Qed.

(** [_addOrUpdate] on a well-formed queue returns, keeps the queue well
    formed, and changes the priority of its key only. *)
Lemma addOrUpdate_spec k prio s :
  wf s → 0 ≤ prio < 2 ^ 64 →
  ∃ s', _addOrUpdate k prio s = Ok s' ∧ wf s' ∧
        currentPriority s' = currentPriority s ∧
        ∀ k', prio_of s' k' =
              if decide (k' = k) then Some (merge_prio (prio_of s k) prio)
              else prio_of s k'.
Proof.
  intros Hwf Hprio. unfold _addOrUpdate.
  destruct (pathIdx s !! k) as [p|] eqn:Hk.
  - destruct (wf_lookup _ _ _ Hwf Hk) as (i & it & Hi & E & Hrp & Hidx).
    rewrite (deref_Some _ _ _ E). rsimpl.
    assert (Hold : prio_of s k = Some (priority it)).
    { unfold prio_of. by rewrite Hk, E. }
    destruct (Z.eqb_spec (priority it) 0) as [H0|H0]; simpl;
      [destruct (Z.eqb_spec prio 0) as [Hp0|Hp0]; simpl|].
    + exists s. split; [done|]. split; [done|]. split; [done|].
      intros k'. case_decide; [|done]. subst k'.
      rewrite Hold. simpl. rewrite H0. simpl. by rewrite Hp0.
    + unfold deref. simpl. rewrite lookup_insert_eq. rsimpl.
      destruct (promote_spec s k p it prio Hwf Hk E Hprio)
        as (s' & -> & Hwf' & Hc' & Hp').
      exists s'. split; [done|]. split; [done|]. split; [done|].
      intros k'. rewrite Hp'. case_decide; [|done].
      rewrite Hold. simpl. by rewrite H0.
    + exists s. split; [done|]. split; [done|]. split; [done|].
      intros k'. case_decide; [|done]. subst k'.
      rewrite Hold. simpl. by destruct (Z.eqb_spec (priority it) 0).
  - destruct (insert_spec s k prio Hwf Hk Hprio) as (s2 & -> & Hwf' & Hc' & Hp').
    rsimpl. eexists. split; [done|]. split; [done|]. split; [done|].
    intros k'. rewrite Hp'. case_decide; [|done].
    unfold prio_of. by rewrite Hk.
Qed.

Lemma merge_prio_idem old prio :
  merge_prio (Some (merge_prio old prio)) prio = merge_prio old prio.
Proof.
  unfold merge_prio. destruct old as [p0|].
  - destruct (Z.eqb_spec p0 0) as [->|Hp0].
    + by destruct (Z.eqb_spec prio 0).
    + by destruct (Z.eqb_spec p0 0).
  - by destruct (Z.eqb_spec prio 0).
Qed.

Lemma merge_prio_zero old :
  merge_prio old 0 = default 0 old.
Proof.
  unfold merge_prio. destruct old as [p0|]; [|done]. simpl.
  by destruct (Z.eqb_spec p0 0).
Qed.

Lemma addAll_spec l : ∀ prio s,
  wf s → 0 ≤ prio < 2 ^ 64 →
  ∃ s', addAll l prio s = Ok s' ∧ wf s' ∧
        currentPriority s' = currentPriority s ∧
        ∀ k, prio_of s' k =
             if decide (k ∈ l) then Some (merge_prio (prio_of s k) prio)
             else prio_of s k.
Proof.
  induction l as [|k0 l IH]; intros prio s Hwf Hprio; simpl.
  - by exists s.
  - destruct (addOrUpdate_spec k0 prio s Hwf Hprio) as (s1 & -> & Hwf1 & Hc1 & Hp1).
    rsimpl. destruct (IH prio s1 Hwf1 Hprio) as (s' & -> & Hwf' & Hc' & Hp').
    exists s'. split; [done|]. split; [done|]. split; [congruence|].
    intros k. rewrite Hp', !Hp1.
    destruct (decide (k = k0)) as [->|Hne].
    + rewrite (decide_True (P := k0 ∈ k0 :: l)) by by left.
      case_decide; [|done]. by rewrite merge_prio_idem.
    + destruct (decide (k ∈ l)) as [Hin|Hin].
      * rewrite decide_True; [done|]. by right.
      * rewrite decide_False; [done|]. rewrite elem_of_cons. tauto.
Qed.

Lemma wrap64_range z : 0 ≤ wrap64 z < 2 ^ 64.
Proof. unfold wrap64. apply Z.mod_pos_bound. lia. Qed.

Lemma enqueue_spec inv bg s :
  wf s →
  ∃ s', enqueue inv bg s = Ok s' ∧ wf s' ∧
        currentPriority s' = generation s ∧
        ∀ k, prio_of s' k =
             if decide (k ∈ inv) then Some (merge_prio (prio_of s k) (generation s))
             else if decide (k ∈ bg) then Some (default 0 (prio_of s k))
             else prio_of s k.
Proof.
  intros Hwf. unfold enqueue. fold (generation s).
  set (s1 := with_currentPriority s (generation s)).
  assert (Hwf1 : wf s1).
  { destruct Hwf. split; try done. simpl. apply wrap64_range. }
  simpl.
  destruct (addAll_spec inv (generation s) s1 Hwf1 (wrap64_range _))
    as (s2 & -> & Hwf2 & Hc2 & Hp2).
  rsimpl.
  destruct (addAll_spec bg 0 s2 Hwf2 ltac:(lia)) as (s3 & -> & Hwf3 & Hc3 & Hp3).
  exists s3. split; [done|]. split; [done|]. split; [by rewrite Hc3, Hc2|].
  intros k. rewrite Hp3, !Hp2.
  change (prio_of s1 k) with (prio_of s k).
  destruct (decide (k ∈ inv)).
  - case_decide; [|done]. rewrite merge_prio_zero. simpl.
    unfold merge_prio. destruct (prio_of s k) as [p0|]; [|done].
    by destruct (Z.eqb_spec p0 0).
  - case_decide; [|done]. by rewrite merge_prio_zero.
Qed.

Lemma pop_empty s : q s = [] → pop s = Ok (None, s).
Proof. unfold pop, queueItems.Len. by intros ->. Qed.

(** [pop] on a non-empty well-formed queue returns the route path of the
    item at the root of the heap, which no queued key precedes. *)
Lemma pop_spec s :
  wf s → q s ≠ [] →
  ∃ p0 it s',
    q s !! 0%nat = Some p0 ∧ mem s !! p0 = Some it ∧
    pop s = Ok (Some (routePath it), s') ∧ wf s' ∧
    currentPriority s' = currentPriority s ∧
    (∀ k, prio_of s' k = if decide (k = routePath it) then None else prio_of s k) ∧
    (∀ p, p ∈ q s' ↔ p ∈ q s ∧ p ≠ p0) ∧
    (∀ p, key_of <$> mem s' !! p = key_of <$> mem s !! p) ∧
    (∀ j a, key_at s j = Some a → lessk a (key_of it) = false) ∧
    length (q s') = (length (q s) - 1)%nat.
Proof.
  intros Hwf Hne.
  assert (0 < length (q s))%nat as Hlen by (destruct (q s); [done|simpl; lia]).
  destruct (Pop_spec s (wf_idx _ Hwf) (wf_heap _ Hwf) Hlen)
    as (p0 & it & s1 & Hp0 & Hit & E1 & Hs1 & Hheap1 & Hlen1 & Hpi1 & Hc1 & Hn1
        & Hel1 & Hm1).
  exists p0, it.
  unfold pop, queueItems.Len.
  destruct (Z.eqb_spec (Z.of_nat (length (q s))) 0) as [?|_]; [lia|].
  rewrite E1. rsimpl.
  assert (∃ it1, mem s1 !! p0 = Some it1 ∧ routePath it1 = routePath it)
    as (it1 & Hit1 & Hrp1).
  { specialize (Hm1 p0). rewrite Hit in Hm1. simpl in Hm1.
    apply key_of_Some in Hm1 as (it1 & ? & _ & ?). eauto. }
  rewrite (deref_Some _ _ _ Hit1). rsimpl. rewrite Hrp1.
  eexists. split; [done|]. split; [done|]. split; [done|].
  assert (Hk0 : pathIdx s !! routePath it = Some p0).
  { apply (wf_path _ Hwf). split; [by eapply list_elem_of_lookup_2|].
    unfold rp_of. by rewrite Hit. }
  assert (Hrps : ∀ p, rp_of s1 p = rp_of s p).
  { intros p. by apply key_routePath. }
  split; [split|split; [|split; [|split; [|split; [|split]]]]]; simpl.
  - done.
  - intros k p. simpl. change (rp_of (with_pathIdx s1 _) p) with (rp_of s1 p).
    rewrite Hpi1, Hel1, Hrps.
    destruct (decide (k = routePath it)) as [->|Hk].
    + rewrite lookup_delete_eq. split; [done|].
      intros [[Hin Hp] Hr].
      assert (pathIdx s !! routePath it = Some p) by by apply (wf_path _ Hwf).
      congruence.
    + rewrite lookup_delete_ne by done. rewrite (wf_path _ Hwf k p).
      split; [|tauto]. intros [Hin Hr]. split; [|done]. split; [done|].
      intros ->. unfold rp_of in Hr. rewrite Hit in Hr. simpl in Hr. congruence.
  - intros p Hp. rewrite Hn1. apply (wf_fresh _ Hwf).
    by apply (key_is_Some _ _ (Hm1 p)).
  - by rewrite Hlen1.
  - rewrite Hc1. apply Hwf.
  - intros p it' Hp. pose proof (key_priority _ _ (Hm1 p)) as Hpr.
    rewrite Hp in Hpr. simpl in Hpr.
    destruct (mem s !! p) as [it''|] eqn:E''; simpl in Hpr; [|done].
    injection Hpr as ->. by apply (wf_prio _ Hwf p).
  - done.
  - intros k. unfold prio_of. simpl. rewrite Hpi1.
    case_decide; subst.
    + by rewrite lookup_delete_eq.
    + rewrite lookup_delete_ne by done.
      destruct (pathIdx s !! k); [|done]. by apply key_priority.
  - done.
  - done.
  - intros j a Ha.
    assert (j < length (q s))%nat as Hj.
    { unfold key_at, item_at in Ha.
      destruct (q s !! j) eqn:E; [|done]. by eapply lookup_lt_Some. }
    apply (root_min _ _ j (idx_ok_defined _ (wf_idx _ Hwf)) (wf_heap _ Hwf) Hj);
      [|done].
    unfold key_at, item_at. by rewrite Hp0, Hit.
  - done.
Qed.

(** *** The live entries *)

Lemma elem_of_entries s it :
  it ∈ entries s ↔ ∃ p, p ∈ q s ∧ mem s !! p = Some it.
Proof. unfold entries. by rewrite list_elem_of_omap. Qed.

Lemma elem_of_entries_key_at s it :
  it ∈ entries s → ∃ j, key_at s j = Some (key_of it).
Proof.
  rewrite elem_of_entries. intros (p & Hp & E).
  apply list_elem_of_lookup in Hp as [j Hj]. exists j.
  unfold key_at, item_at. by rewrite Hj, E.
Qed.

Lemma prio_of_entries s k z :
  wf s →
  prio_of s k = Some z ↔
  ∃ it, it ∈ entries s ∧ routePath it = k ∧ priority it = z.
Proof.
  intros Hwf. unfold prio_of. split.
  - destruct (pathIdx s !! k) as [p|] eqn:Hk; [|done].
    destruct (wf_lookup _ _ _ Hwf Hk) as (i & it & Hi & E & Hrp & _).
    rewrite E. simpl. intros [= <-]. exists it.
    split; [|done]. apply elem_of_entries. exists p.
    split; [by eapply list_elem_of_lookup_2|done].
  - intros (it & Hin & <- & <-). apply elem_of_entries in Hin as (p & Hp & E).
    assert (pathIdx s !! routePath it = Some p) as ->.
    { apply (wf_path _ Hwf). split; [done|]. unfold rp_of. by rewrite E. }
    by rewrite E.
Qed.

Lemma NoDup_fmap_omap {A B C} (g : A → option B) (f : B → C) (l : list A) :
  NoDup l →
  (∀ x y a b, x ∈ l → y ∈ l → g x = Some a → g y = Some b → f a = f b → x = y) →
  NoDup (f <$> omap g l).
Proof.
  induction l as [|x l IH]; intros Hnd Hinj; simpl; [constructor|].
  apply NoDup_cons in Hnd as [Hx Hnd].
  assert (NoDup (f <$> omap g l)) as IH'.
  { apply IH; [done|]. intros ?? ?? ??. apply Hinj; by right. }
  destruct (g x) as [a|] eqn:Ex; [|done]. simpl.
  apply NoDup_cons. split; [|done].
  intros Hin. apply list_elem_of_fmap in Hin as (b & Hab & Hb).
  apply list_elem_of_omap in Hb as (y & Hy & Ey).
  assert (x = y) as ->; [|done].
  eapply Hinj; eauto; [by left|by right].
Qed.

(** No two live entries have the same key. *)
Lemma wf_unique s : wf s → NoDup (routePath <$> entries s).
Proof.
  intros Hwf. apply NoDup_fmap_omap; [apply idx_ok_NoDup, Hwf|].
  intros p p' a b Hp Hp' Ea Eb Hab.
  assert (pathIdx s !! routePath a = Some p) as H1.
  { apply (wf_path _ Hwf). split; [done|]. unfold rp_of. by rewrite Ea. }
  assert (pathIdx s !! routePath a = Some p') as H2.
  { apply (wf_path _ Hwf). split; [done|]. unfold rp_of. rewrite Eb. simpl.
    by rewrite Hab. }
  congruence.
Qed.

End wf_facts.

(* ================================================================= *)
(** * Call sequences *)

Section runs.
Implicit Types (s : queue) (k x y : string) (cs : list call).

Lemma pop_total s : wf s → ∃ o s', pop s = Ok (o, s') ∧ wf s'.
Proof.
  intros Hwf. destruct (decide (q s = [])) as [He|Hne].
  - exists None, s. by rewrite pop_empty.
  - destruct (pop_spec s Hwf Hne) as (p0 & it & s' & _ & _ & E & Hwf' & _).
    eauto.
Qed.

Lemma run_call_wf c s :
  wf s → ∃ o s', run_call c s = Ok (o, s') ∧ wf s'.
Proof.
  intros Hwf. destruct c as [inv bg|]; simpl.
  - destruct (enqueue_spec inv bg s Hwf) as (s' & -> & Hwf' & _).
    by exists None, s'.
  - by apply pop_total.
Qed.

(** Neither [enqueue] nor [pop] ever panics, and they keep the queue well
    formed. *)
Lemma run_wf cs : ∀ s, wf s → ∃ outs s', run_calls cs s = Ok (outs, s') ∧ wf s'.
Proof.
  induction cs as [|c cs IH]; intros s Hwf; simpl.
  - by exists [], s.
  - destruct (run_call_wf c s Hwf) as (o & s1 & -> & Hwf1). rsimpl.
    destruct (IH s1 Hwf1) as (outs & s' & -> & Hwf'). rsimpl.
    by exists (o :: outs), s'.
Qed.

Lemma reachable_wf s : reachable s → wf s.
Proof.
  intros (cs & outs & E). rewrite newQueue_eq in E.
  change (run_calls cs emptyQueue = Ok (outs, s)) in E.
  destruct (run_wf cs emptyQueue wf_emptyQueue) as (outs' & s' & E' & Hwf).
  congruence.
Qed.

Lemma prio_of_pathIdx s k :
  wf s → is_Some (prio_of s k) ↔ is_Some (pathIdx s !! k).
Proof.
  intros Hwf. unfold prio_of. split.
  - destruct (pathIdx s !! k); [by eexists|by intros [? ?]].
  - intros [p Hp]. destruct (wf_lookup _ _ _ Hwf Hp) as (_ & it & _ & E & _).
    rewrite Hp, E. by eexists.
Qed.

Lemma elem_of_keys s k : wf s → k ∈ keys s ↔ is_Some (prio_of s k).
Proof.
  intros Hwf. unfold keys. rewrite list_elem_of_fmap. split.
  - intros (it & -> & Hin). exists (priority it).
    apply prio_of_entries; [done|]. by exists it.
  - intros [z Hz]. apply prio_of_entries in Hz as (it & Hin & <- & _); [|done].
    by exists it.
Qed.

End runs.

(* ================================================================= *)
(** * Priorities along call sequences *)

Section queue_properties.
Implicit Types (s : queue) (k x y : string) (cs : list call).

Lemma enqueue_keys inv bg s s' :
  wf s → enqueue inv bg s = Ok s' →
  ∀ k, k ∈ keys s' ↔ k ∈ keys s ∨ k ∈ inv ∨ k ∈ bg.
Proof.
  intros Hwf E k.
  destruct (enqueue_spec inv bg s Hwf) as (s1 & E1 & Hwf1 & _ & Hp).
  assert (s1 = s') as -> by congruence.
  rewrite !elem_of_keys by done. rewrite Hp.
  repeat case_decide; split; intros Hk; try tauto; try by eexists.
Qed.

Lemma enqueue_length inv bg s s' :
  wf s → enqueue inv bg s = Ok s' →
  length (keys s') =
    (length (keys s) +
     length (filter (λ k, pathIdx s !! k = None) (remove_dups (inv ++ bg))))%nat.
Proof.
  intros Hwf E.
  destruct (enqueue_spec inv bg s Hwf) as (s1 & E1 & Hwf1 & _ & Hp).
  assert (s1 = s') as -> by congruence.
  rewrite <- length_app. apply Permutation_length.
  apply NoDup_Permutation.
  - by apply wf_unique.
  - apply NoDup_app. split; [by apply wf_unique|]. split.
    + intros k Hk Hin. apply list_elem_of_filter in Hin as [Hnone _].
      apply elem_of_keys, prio_of_pathIdx in Hk as [? ?]; [|done..]. congruence.
    + apply NoDup_filter, NoDup_remove_dups.
  - intros k. rewrite (enqueue_keys inv bg s s' Hwf E).
    rewrite elem_of_app, list_elem_of_filter, elem_of_remove_dups, elem_of_app.
    destruct (decide (k ∈ keys s)) as [Hin|Hout]; [tauto|].
    assert (pathIdx s !! k = None).
    { destruct (pathIdx s !! k) eqn:Ek; [|done]. destruct Hout.
      apply elem_of_keys, prio_of_pathIdx; [done..|]. by eexists. }
    tauto.
Qed.

Lemma pop_keys s k s' :
  wf s → pop s = Ok (Some k, s') →
  wf s' ∧ k ∈ keys s ∧ (k ∉ keys s') ∧ pathIdx s' !! k = None ∧
  ∀ k', k' ≠ k → prio_of s' k' = prio_of s k'.
Proof.
  intros Hwf E. destruct (decide (q s = [])) as [He|Hne].
  { by rewrite pop_empty in E. }
  destruct (pop_spec s Hwf Hne)
    as (p0 & it & s1 & Hp0 & Hit & E1 & Hwf1 & _ & Hp & _).
  rewrite E1 in E. injection E as <- <-.
  split; [done|]. split; [|split; [|split]].
  - apply elem_of_keys; [done|]. exists (priority it).
    apply prio_of_entries; [done|]. exists it. split; [|done].
    apply elem_of_entries. exists p0. split; [|done].
    by eapply list_elem_of_lookup_2.
  - rewrite elem_of_keys by done. rewrite Hp, decide_True by done.
    by intros [? ?].
  - destruct (pathIdx s1 !! routePath it) eqn:Ek; [|done].
    assert (is_Some (prio_of s1 (routePath it))) as [? H].
    { apply prio_of_pathIdx; [done|]. by eexists. }
    by rewrite Hp, decide_True in H.
  - intros k' Hk'. by rewrite Hp, decide_False.
Qed.

Lemma run_call_keeps_priority c s o s1 k p :
  wf s → run_call c s = Ok (o, s1) → prio_of s k = Some p → p ≠ 0 →
  o ≠ Some k → wf s1 ∧ prio_of s1 k = Some p.
Proof.
  intros Hwf E Hk Hp Ho. destruct c as [inv bg|]; simpl in E.
  - destruct (enqueue_spec inv bg s Hwf) as (s' & E' & Hwf' & _ & Hpr).
    rewrite E' in E. injection E as _ <-. split; [done|].
    rewrite Hpr, Hk. simpl. destruct (Z.eqb_spec p 0); [done|].
    by repeat case_decide.
  - destruct o as [k0|].
    + destruct (pop_keys s k0 s1 Hwf E) as (Hwf1 & _ & _ & _ & Hother).
      split; [done|]. rewrite Hother; [done|]. congruence.
    + destruct (decide (q s = [])) as [He|Hne].
      * rewrite pop_empty in E by done. by injection E as <-.
      * destruct (pop_spec s Hwf Hne) as (? & ? & ? & _ & _ & E1 & _).
        congruence.
Qed.

(** A nonzero priority stays with its key until the key is popped. *)
Lemma run_keeps_priority cs : ∀ s outs s' k p,
  wf s → run_calls cs s = Ok (outs, s') → prio_of s k = Some p → p ≠ 0 →
  Some k ∉ outs → wf s' ∧ prio_of s' k = Some p.
Proof.
  induction cs as [|c cs IH]; intros s outs s' k p Hwf E Hk Hp Hout; simpl in E.
  - by injection E as <- <-.
  - destruct (run_call_wf c s Hwf) as (o & s1 & E1 & Hwf1).
    rewrite E1 in E. rewrite bind_Ok in E. simpl in E.
    destruct (run_wf cs s1 Hwf1) as (outs1 & s2 & E2 & Hwf2).
    rewrite E2 in E. rewrite bind_Ok in E. simpl in E. injection E as <- <-.
    apply not_elem_of_cons in Hout as [Ho Hout].
    destruct (run_call_keeps_priority c s o s1 k p) as [_ Hk1]; try done.
    by apply (IH s1 outs1 s2 k p).
Qed.

Lemma length_omap_total {A B} (g : A → option B) (l : list A) :
  (∀ a, a ∈ l → is_Some (g a)) → length (omap g l) = length l.
Proof.
  induction l as [|a l IH]; intros H; simpl; [done|].
  destruct (H a) as [b ->]; [by left|]. simpl. f_equal. apply IH.
  intros a' Ha'. apply H. by right.
Qed.

Lemma length_entries s : idx_ok s → length (entries s) = length (q s).
Proof.
  intros H. apply length_omap_total. intros p Hp.
  apply list_elem_of_lookup in Hp as [i Hi].
  destruct (H _ _ Hi) as (it & -> & _). by eexists.
Qed.

Lemma entries_nil s : wf s → entries s = [] ↔ q s = [].
Proof.
  intros Hwf. rewrite <- !length_zero_iff_nil.
  by rewrite length_entries by apply Hwf.
Qed.

Lemma dedup_seen_elem l : ∀ seen k,
  k ∈ dedup_seen seen l ↔ k ∈ l ∧ k ∉ seen.
Proof.
  induction l as [|a l IH]; intros seen k; simpl.
  - rewrite elem_of_nil. tauto.
  - case_decide as Ha.
    + rewrite IH, elem_of_cons. split; [tauto|]. intros [[->|?] ?]; tauto.
    + rewrite !elem_of_cons, IH, elem_of_cons.
      destruct (decide (k = a)) as [->|]; tauto.
Qed.

Lemma dedup_seen_NoDup l : ∀ seen, NoDup (dedup_seen seen l).
Proof.
  induction l as [|a l IH]; intros seen; simpl; [constructor|].
  case_decide; [done|]. apply NoDup_cons. split; [|done].
  rewrite dedup_seen_elem, elem_of_cons. tauto.
Qed.

(** A repeated [_addOrUpdate] returns the state unchanged. *)
Lemma addOrUpdate_noop k prio s :
  settled s k prio → _addOrUpdate k prio s = Ok s.
Proof.
  intros (z & Hz & Hnz). unfold prio_of in Hz. unfold _addOrUpdate.
  destruct (pathIdx s !! k) as [p|]; [|done].
  destruct (mem s !! p) as [it|] eqn:E; [|done].
  simpl in Hz. injection Hz as <-.
  rewrite (deref_Some _ _ _ E). rsimpl.
  destruct Hnz as [Hnz| ->].
  - by destruct (Z.eqb_spec (priority it) 0).
  - simpl. by rewrite andb_false_r.
Qed.

Lemma addOrUpdate_settles k prio s s' :
  wf s → 0 ≤ prio < 2 ^ 64 → _addOrUpdate k prio s = Ok s' →
  settled s' k prio ∧ ∀ k', settled s k' prio → settled s' k' prio.
Proof.
  intros Hwf Hprio E.
  destruct (addOrUpdate_spec k prio s Hwf Hprio) as (s1 & E1 & _ & _ & Hp).
  assert (s1 = s') as -> by congruence.
  assert (settled s' k prio) as Hk.
  { eexists. split; [by rewrite Hp, decide_True|].
    unfold merge_prio. destruct (prio_of s k) as [p0|]; [|lia].
    destruct (Z.eqb_spec p0 0); lia. }
  split; [done|]. intros k' Hk'.
  destruct (decide (k' = k)) as [->|Hne]; [done|].
  unfold settled. by rewrite Hp, decide_False.
Qed.

Lemma addAll_dedup l : ∀ seen prio s,
  wf s → 0 ≤ prio < 2 ^ 64 → (∀ k, k ∈ seen → settled s k prio) →
  addAll l prio s = addAll (dedup_seen seen l) prio s.
Proof.
  induction l as [|a l IH]; intros seen prio s Hwf Hprio Hseen; simpl; [done|].
  case_decide as Ha.
  - rewrite (addOrUpdate_noop a prio s) by by apply Hseen.
    rewrite bind_Ok. by apply IH.
  - simpl.
    destruct (addOrUpdate_spec a prio s Hwf Hprio) as (s1 & E1 & Hwf1 & _).
    rewrite E1, !bind_Ok. apply IH; [done..|].
    destruct (addOrUpdate_settles a prio s s1 Hwf Hprio E1) as [Hk Hother].
    intros k [->|Hk']%elem_of_cons; [done|]. by apply Hother, Hseen.
Qed.

Lemma count_enqueues_nonneg cs : 0 ≤ count_enqueues cs.
Proof. induction cs as [|[]]; simpl; lia. Qed.

Lemma generation_no_wrap s :
  wf s → currentPriority s < uint64_max →
  generation s = currentPriority s + 1.
Proof.
  intros Hwf Hlt. pose proof (wf_counter _ Hwf). unfold uint64_max in Hlt.
  unfold generation, wrap64. apply Z.mod_small. lia.
Qed.

(** Without wrap-around the counter counts the [enqueue] calls. *)
Lemma run_counter cs : ∀ s outs s',
  wf s → run_calls cs s = Ok (outs, s') →
  currentPriority s + count_enqueues cs ≤ uint64_max →
  currentPriority s' = currentPriority s + count_enqueues cs.
Proof.
  induction cs as [|c cs IH]; intros s outs s' Hwf E Hmax; simpl in *.
  - injection E as _ <-. lia.
  - destruct (run_call_wf c s Hwf) as (o & s1 & E1 & Hwf1).
    rewrite E1, bind_Ok in E. simpl in E.
    destruct (run_wf cs s1 Hwf1) as (outs1 & s2 & E2 & Hwf2).
    rewrite E2, bind_Ok in E. simpl in E. injection E as _ <-.
    pose proof (count_enqueues_nonneg cs).
    destruct c as [inv bg|]; simpl in E1.
    + destruct (enqueue_spec inv bg s Hwf) as (sx & Ex & _ & Hc & _).
      rewrite Ex, bind_Ok in E1. injection E1 as _ <-.
      rewrite generation_no_wrap in Hc by (done || lia).
      rewrite (IH _ _ _ Hwf1 E2); lia.
    + assert (currentPriority s1 = currentPriority s) as Hc.
      { destruct (decide (q s = [])) as [He|Hne].
        - rewrite pop_empty in E1 by done. by injection E1 as _ <-.
        - destruct (pop_spec s Hwf Hne) as (? & ? & ? & _ & _ & Ep & _ & Hc & _).
          congruence. }
      rewrite (IH _ _ _ Hwf1 E2); lia.
Qed.

(** The key [pop] returns is not preceded by any queued key. *)
Lemma pop_min_prio s k s' :
  wf s → pop s = Ok (Some k, s') →
  ∃ zk, prio_of s k = Some zk ∧
        ∀ k' z, prio_of s k' = Some z → lessk (z, k') (zk, k) = false.
Proof.
  intros Hwf E. destruct (decide (q s = [])) as [He|Hne].
  { by rewrite pop_empty in E. }
  destruct (pop_spec s Hwf Hne)
    as (p0 & it & s1 & Hp0 & Hit & E1 & _ & _ & _ & _ & _ & Hmin & _).
  rewrite E1 in E. injection E as <- <-.
  exists (priority it). split.
  - apply prio_of_entries; [done|]. exists it. split; [|done].
    apply elem_of_entries. exists p0. split; [|done].
    by eapply list_elem_of_lookup_2.
  - intros k' z Hz. apply prio_of_entries in Hz as (it' & Hin & <- & <-); [|done].
    apply elem_of_entries_key_at in Hin as [j Hj]. by apply (Hmin j).
Qed.

(** Of two keys queued with nonzero priorities, the one with the lower
    priority is popped first, whatever calls follow. *)
Lemma pops_in_priority_order cs : ∀ s outs s' x y px py,
  wf s → prio_of s x = Some px → prio_of s y = Some py → 0 < px < py →
  run_calls cs s = Ok (outs, s') → pops_before x y outs.
Proof.
  induction cs as [|c cs IH]; intros s outs s' x y px py Hwf Hx Hy Hlt E;
    simpl in E.
  - injection E as <- _. intros o1 o2 Ho. by destruct o1.
  - destruct (run_call_wf c s Hwf) as (o & s1 & E1 & Hwf1).
    rewrite E1, bind_Ok in E. simpl in E.
    destruct (run_wf cs s1 Hwf1) as (outs1 & s2 & E2 & Hwf2).
    rewrite E2, bind_Ok in E. simpl in E. injection E as <- <-.
    destruct (decide (o = Some x)) as [->|Hox].
    { intros [|o o1] o2 Ho; simplify_eq/=.
      - lia.
      - by left. }
    destruct (decide (o = Some y)) as [->|Hoy].
    { destruct c as [inv bg|]; simpl in E1.
      - destruct (enqueue inv bg s); by simpl in E1.
      - destruct (pop_min_prio s y s1 Hwf E1) as (zy & Hzy & Hmin).
        rewrite Hy in Hzy. injection Hzy as <-.
        specialize (Hmin x px Hx). revert Hmin.
        unfold lessk, queueItems.less. simpl.
        destruct (Z.eqb_spec px py); [lia|].
        destruct (Z.eqb_spec px 0); [lia|].
        destruct (Z.eqb_spec py 0); [lia|].
        destruct (Z.ltb_spec px py); [done|lia]. }
    destruct (run_call_keeps_priority c s o s1 x px) as [_ Hx1];
      [done..|lia|done|].
    destruct (run_call_keeps_priority c s o s1 y py) as [_ Hy1];
      [done..|lia|done|].
    pose proof (IH s1 outs1 s2 x y px py Hwf1 Hx1 Hy1 Hlt E2) as Hpb.
    intros [|o' o1] o2 Ho; simplify_eq/=.
    right. by apply (Hpb o1 o2).
Qed.

(** Two successive pops come out in the order of [Less]. *)
Lemma successive_pops s k1 s1 k2 s2 :
  wf s → pop s = Ok (Some k1, s1) → pop s1 = Ok (Some k2, s2) →
  ∃ z1 z2, prio_of s k1 = Some z1 ∧ prio_of s k2 = Some z2 ∧
           lessk (z1, k1) (z2, k2) = true.
Proof.
  intros Hwf E1 E2.
  destruct (pop_keys s k1 s1 Hwf E1) as (Hwf1 & _ & Hout1 & _ & Hother).
  destruct (pop_min_prio s k1 s1 Hwf E1) as (z1 & Hz1 & Hmin).
  destruct (pop_min_prio s1 k2 s2 Hwf1 E2) as (z2 & Hz2 & _).
  assert (k2 ≠ k1) as Hne.
  { intros ->. apply Hout1, elem_of_keys; [done|]. by eexists. }
  rewrite Hother in Hz2 by done.
  exists z1, z2. split; [done|]. split; [done|].
  destruct (lessk (z1, k1) (z2, k2)) eqn:Hlt; [done|].
  pose proof (lessk_total _ _ Hlt (Hmin k2 z2 Hz2)). congruence.
Qed.

End queue_properties.

Lemma run_idle n : ∀ c,
  0 ≤ c < 2 ^ 64 →
  run_calls (replicate n (Enqueue [] [])) (Queue c [] ∅ ∅ 0%nat)
  = Ok (replicate n None, Queue (wrap64 (c + Z.of_nat n)) [] ∅ ∅ 0%nat).
Proof.
  induction n as [|n IH]; intros c Hc.
  - simpl. do 3 f_equal. unfold wrap64. rewrite Z.add_0_r, Z.mod_small; lia.
  - change (replicate (S n) (Enqueue [] []))
      with (Enqueue [] [] :: replicate n (Enqueue [] [])).
    change (run_calls (Enqueue [] [] :: replicate n (Enqueue [] []))
                (Queue c [] ∅ ∅ 0%nat))
      with (r' ← run_calls (replicate n (Enqueue [] []))
                     (Queue (wrap64 (c + 1)) [] ∅ ∅ 0%nat);
            Ok (None :: r'.1, r'.2)).
    rewrite IH by apply wrap64_range. rewrite bind_Ok. simpl.
    do 3 f_equal. unfold wrap64. rewrite Zplus_mod_idemp_l. f_equal. lia.
Qed.

Lemma nearWrapQueue_reachable : reachable nearWrapQueue.
Proof.
  exists (replicate (Z.to_nat (2 ^ 64 - 2)) (Enqueue [] [])),
         (replicate (Z.to_nat (2 ^ 64 - 2)) None).
  rewrite newQueue_eq, bind_Ok. unfold emptyQueue.
  rewrite run_idle by lia. rewrite Z2Nat.id by lia. reflexivity.
Qed.

Lemma sampleQueue_reachable : reachable sampleQueue.
Proof.
  exists [Enqueue ["/contact"] ["/about"; "/home"]], [None].
  vm_compute. reflexivity.
Qed.

(* ================================================================= *)
(** * The controller: worker and shutdown *)

Section controller_facts.
Implicit Types (c : controller) (s : queue).

Lemma queuePopBatch_loop_total fuel : ∀ size res s,
  wf s → (length (q s) < fuel)%nat →
  ∃ b s', queuePopBatch_loop fuel size res s = Ok (b, s') ∧ wf s'.
Proof.
  induction fuel as [|fuel IH]; intros size res s Hwf Hlen; [lia|]. simpl.
  destruct (decide (q s = [])) as [He|Hne].
  - rewrite pop_empty by done. rsimpl. by exists res, s.
  - destruct (pop_spec s Hwf Hne)
      as (p0 & it & s1 & _ & _ & -> & Hwf1 & _ & _ & _ & _ & _ & Hlen1).
    assert (0 < length (q s))%nat by (destruct (q s); [done|simpl; lia]).
    rsimpl. case_match.
    + by eexists _, s1.
    + apply IH; [done|lia].
Qed.

(** On a well-formed queue [queuePopBatch] returns and changes nothing of
    the controller but the queue. *)
Lemma queuePopBatch_total c :
  wf (ctrl_queue c) →
  ∃ b s', queuePopBatch c = Ok (b, with_queue c s') ∧ wf s'.
Proof.
  intros Hwf. unfold queuePopBatch.
  destruct (queuePopBatch_loop_total (S (length (q (ctrl_queue c))))
              (revalidateBatchSize c) [] (ctrl_queue c) Hwf)
    as (b & s' & -> & Hwf'); [lia|].
  by exists b, s'.
Qed.

(** Once the channel is closed, the worker returns within three actions. *)
Lemma wg_Wait_closed c fuel :
  wf (ctrl_queue c) → sig c = ChanClosed → (3 ≤ fuel)%nat →
  ∃ c', wg_Wait fuel c = Ok c' ∧ sig c' = ChanClosed ∧ worker c' = Returned.
Proof.
  intros Hwf Hsig Hfuel.
  destruct fuel as [|[|[|fuel]]]; try lia.
  destruct c as [size s ch w sub]. simpl in Hwf, Hsig. subst ch.
  destruct w; try (simpl; by eexists).
  destruct (queuePopBatch_total (Controller size s ChanClosed AtPopBatch sub) Hwf)
    as (b & s' & E & Hwf').
  change (wg_Wait (S (S (S fuel))) (Controller size s ChanClosed AtPopBatch sub))
    with (r ← (r ← queuePopBatch (Controller size s ChanClosed AtPopBatch sub);
               if Z.of_nat (length r.1) =? 0
               then Ok (Some (with_worker r.2 AtReceive))
               else Ok (Some (with_worker r.2 (InRevalidate r.1))));
          match r with
          | Some c' => wg_Wait (S (S fuel)) c'
          | None => Blocked
          end).
  rewrite E. rsimpl. destruct (Z.of_nat (length b) =? 0); simpl.
  - eexists. by repeat split.
  - destruct fuel; simpl; eexists; by repeat split.
Qed.

Lemma ensureProcessQueue_closed c :
  sig c = ChanClosed → ensureProcessQueue c = Panic.
Proof. unfold ensureProcessQueue. by intros ->. Qed.

(** A signal sent while the worker is parked is received. *)
Lemma ensureProcessQueue_parked c :
  sig c = ChanOpen → worker c = Parked →
  ensureProcessQueue c = Ok (with_worker c AtSelect).
Proof. unfold ensureProcessQueue. by intros -> ->. Qed.

(** A signal sent while the worker is busy is dropped. *)
Lemma ensureProcessQueue_busy c :
  sig c = ChanOpen → worker c ≠ Parked → ensureProcessQueue c = Ok c.
Proof. unfold ensureProcessQueue. intros -> ?. by destruct (worker c). Qed.

(** When the second reconciliation comes after the worker has parked again,
    the signal is received and both of its keys are submitted. *)
Example wake_while_parked :
  ∃ c,
    newController ≫= schedule
      [WorkerStep;
       Revalidate (inr [Document "/a"]) [Document "/a"];
       WorkerStep; WorkerStep; WorkerStep; WorkerStep; WorkerStep;
       WorkerStep;
       Revalidate (inr [Document "/a"; Document "/b"]) [Document "/b"];
       WorkerStep; WorkerStep; WorkerStep; WorkerStep; WorkerStep; WorkerStep;
       WorkerStep; WorkerStep; WorkerStep]
    = Ok c ∧
    worker c = Parked ∧ keys (ctrl_queue c) = [] ∧
    submitted c = [["/a"]; ["/b"]; ["/a"]].
Proof. eexists. split; [vm_compute; reflexivity|]. by repeat split. Qed.

(** A reconciliation that completes while the worker is parked or in its
    drain loop leaves the worker on its way to another [queuePopBatch]. *)
Lemma revalidate_drain_pending c documents invalidated :
  wf (ctrl_queue c) → sig c = ChanOpen →
  worker c = Parked ∨ drain_pending c →
  ∃ c', revalidate (inr documents) invalidated c = Ok (None, c') ∧
        drain_pending c' ∧ sig c' = ChanOpen.
Proof.
  intros Hwf Hsig Hw. unfold revalidate.
  destruct (enqueue_spec (RoutePath <$> invalidated) (RoutePath <$> documents)
              (ctrl_queue c) Hwf) as (s' & -> & _).
  rewrite bind_Ok. unfold ensureProcessQueue. simpl. rewrite Hsig.
  destruct Hw as [->|Hd].
  - eexists. split; [done|]. split; [by left|done].
  - destruct Hd as [Hd|[Hd|[b Hd]]]; rewrite Hd; simpl;
      (eexists; split; [done|]; split; [|done]); unfold drain_pending; simpl;
      rewrite Hd; eauto.
Qed.

(** From there the worker reaches [queuePopBatch] within two actions, with
    the queue as the reconciliation left it. *)
Lemma drain_pending_reaches_pop c :
  sig c = ChanOpen → drain_pending c →
  ∃ n c', (n ≤ 2)%nat ∧ schedule (replicate n WorkerStep) c = Ok c' ∧
          worker c' = AtPopBatch ∧ ctrl_queue c' = ctrl_queue c.
Proof.
  destruct c as [size s ch w sub]. simpl.
  intros -> [Hd|[Hd|[b Hd]]]; simpl in Hd; subst w.
  - exists 1%nat. eexists. split; [lia|]. by split.
  - exists 0%nat. eexists. split; [lia|]. by split.
  - exists 2%nat. eexists. split; [lia|]. by split.
Qed.

End controller_facts.

(* ================================================================= *)
(** * The properties *)

(** C1 (uniqueness).  Whatever sequence of [enqueue] and [pop] calls is made
    on a new queue, the calls return and the queue holds no two live entries
    with the same key.  In the state reached, a further [enqueue] adds one
    entry for each key that is not in the key index and none for a key that
    is, and a [pop] that returns a key removes it from the entries and from
    the key index; a later [enqueue] naming it in its invalidated list queues
    it again with the generation of that call. *)
Theorem C1_unique_keys (cs : list call) :
  ∃ outs s, newQueue ≫= run_calls cs = Ok (outs, s) ∧
    NoDup (keys s) ∧
    (∀ inv bg, ∃ s', enqueue inv bg s = Ok s' ∧ NoDup (keys s') ∧
       length (keys s') =
         (length (keys s) +
          length (filter (λ k, pathIdx s !! k = None) (remove_dups (inv ++ bg))))%nat ∧
       ∀ k, k ∈ keys s' ↔ k ∈ keys s ∨ k ∈ inv ∨ k ∈ bg) ∧
    (∀ k s', pop s = Ok (Some k, s') →
       k ∈ keys s ∧ (k ∉ keys s') ∧ pathIdx s' !! k = None ∧ NoDup (keys s') ∧
       (∀ k', k' ≠ k → k' ∈ keys s' ↔ k' ∈ keys s) ∧
       ∀ inv bg, k ∈ inv →
         ∃ s'', enqueue inv bg s' = Ok s'' ∧ prio_of s'' k = Some (generation s')).
Proof.
  rewrite newQueue_eq.
  destruct (run_wf cs emptyQueue wf_emptyQueue) as (outs & s & E & Hwf).
  exists outs, s. split; [done|]. split; [by apply wf_unique|]. split.
  - intros inv bg.
    destruct (enqueue_spec inv bg s Hwf) as (s' & E' & Hwf' & _).
    exists s'. split; [done|]. split; [by apply wf_unique|].
    split; [by apply enqueue_length|by apply enqueue_keys].
  - intros k s' Ep.
    destruct (pop_keys s k s' Hwf Ep) as (Hwf' & Hin & Hout & Hidx & Hother).
    split; [done|]. split; [done|]. split; [done|].
    split; [by apply wf_unique|]. split.
    + intros k' Hk'. rewrite !elem_of_keys by done. by rewrite Hother.
    + intros inv bg Hk.
      destruct (enqueue_spec inv bg s' Hwf') as (s'' & E'' & _ & _ & Hp).
      exists s''. split; [done|]. rewrite Hp, decide_True by done.
      f_equal. unfold prio_of. by rewrite Hidx.
Qed.

(** C2 (priority monotonicity).  A key queued with a nonzero priority keeps
    that priority through every later [enqueue] call, whichever list names
    it, for as long as it is not popped.  The only change an [enqueue] call
    makes to the priority of a queued key is the promotion of a zero
    priority to the nonzero generation of the call, for a key of its
    invalidated list; after it the priority is nonzero and stays. *)
Theorem C2_priority_monotone (s : queue) (k : string) (p : Z) :
  wf s → prio_of s k = Some p →
  (p ≠ 0 → ∀ inv bg, ∃ s', enqueue inv bg s = Ok s' ∧ prio_of s' k = Some p) ∧
  (∀ inv bg s', enqueue inv bg s = Ok s' →
     prio_of s' k = Some p ∨
     (p = 0 ∧ k ∈ inv ∧ generation s ≠ 0 ∧ prio_of s' k = Some (generation s))) ∧
  (p ≠ 0 → ∀ cs outs s', run_calls cs s = Ok (outs, s') → Some k ∉ outs →
     prio_of s' k = Some p).
Proof.
  intros Hwf Hk. split; [|split].
  - intros Hp inv bg.
    destruct (enqueue_spec inv bg s Hwf) as (s' & E' & Hwf' & _ & Hpr).
    exists s'. split; [done|]. rewrite Hpr, Hk. simpl.
    destruct (Z.eqb_spec p 0); [done|]. by repeat case_decide.
  - intros inv bg s' E.
    destruct (enqueue_spec inv bg s Hwf) as (s1 & E1 & Hwf1 & _ & Hpr).
    assert (s1 = s') as -> by congruence.
    rewrite Hpr, Hk. simpl. destruct (Z.eqb_spec p 0) as [->|Hp].
    + destruct (decide (k ∈ inv)); [|left; by case_decide].
      destruct (decide (generation s = 0)) as [->|Hg]; [by left|by right].
    + left. by repeat case_decide.
  - intros Hp cs outs s' E Hout.
    by apply (run_keeps_priority cs s outs s' k p).
Qed.

Lemma C2_priority_monotone_witness :
  wf sampleQueue ∧ prio_of sampleQueue "/contact" = Some 1 ∧
  ∃ s', enqueue ["/about"] ["/contact"; "/home"] sampleQueue = Ok s' ∧
        prio_of s' "/contact" = Some 1.
Proof.
  assert (Hwf := reachable_wf _ sampleQueue_reachable).
  assert (Hk : prio_of sampleQueue "/contact" = Some 1) by (vm_compute; reflexivity).
  split; [exact Hwf|]. split; [exact Hk|].
  destruct (C2_priority_monotone sampleQueue "/contact" 1 Hwf Hk) as (H1 & _ & _).
  apply H1. lia.
Defined.

(** C3 (pop order).  On a well-formed queue with at least one entry, [pop]
    returns the key of a live entry that no live entry precedes in the order
    of [Less]: if it has priority zero then every entry has; an entry with a
    nonzero priority is never kept waiting by one with a greater priority or
    with priority zero; and among entries of equal priority the returned
    key is the least route path. *)
Theorem C3_pop_minimum (s : queue) :
  wf s → entries s ≠ [] →
  ∃ it s', pop s = Ok (Some (routePath it), s') ∧ it ∈ entries s ∧
    ∀ it', it' ∈ entries s →
      queueItems.less it' it = false ∧
      (priority it = 0 → priority it' = 0) ∧
      (priority it' ≠ 0 → priority it ≠ 0 ∧ priority it ≤ priority it') ∧
      (priority it' = priority it →
         String.ltb (routePath it') (routePath it) = false).
Proof.
  intros Hwf Hne. rewrite entries_nil in Hne by done.
  destruct (pop_spec s Hwf Hne)
    as (p0 & it & s' & Hp0 & Hit & E & _ & _ & _ & _ & _ & Hmin & _).
  exists it, s'. split; [done|]. split.
  { apply elem_of_entries. exists p0. split; [|done].
    by eapply list_elem_of_lookup_2. }
  intros it' Hin. apply elem_of_entries_key_at in Hin as [j Hj].
  specialize (Hmin j _ Hj). rewrite <- less_lessk in Hmin.
  split; [done|]. revert Hmin. unfold queueItems.less.
  destruct (Z.eqb_spec (priority it') (priority it)) as [Heq|Hneq].
  - intros Hlt. rewrite Heq. repeat split; (lia || done).
  - destruct (Z.eqb_spec (priority it') 0) as [H0|H0];
      [intros _; repeat split; (lia || done)|].
    destruct (Z.eqb_spec (priority it) 0) as [H1|H1]; [done|].
    destruct (Z.ltb_spec (priority it') (priority it)); [done|].
    intros _. repeat split; (lia || done).
Qed.

Lemma C3_pop_minimum_witness :
  wf sampleQueue ∧ entries sampleQueue ≠ [] ∧
  ∃ it s', pop sampleQueue = Ok (Some (routePath it), s') ∧
    ∀ it', it' ∈ entries sampleQueue → queueItems.less it' it = false.
Proof.
  assert (Hwf := reachable_wf _ sampleQueue_reachable).
  assert (Hne : entries sampleQueue ≠ []) by (vm_compute; discriminate).
  split; [exact Hwf|]. split; [exact Hne|].
  destruct (C3_pop_minimum sampleQueue Hwf Hne) as (it & s' & E & _ & Hmin).
  exists it, s'. split; [exact E|]. intros it' Hin. apply (Hmin it' Hin).
Defined.

(** C4 as stated fails when the counter wraps around between the two calls:
    after 2^64 - 2 calls, [enqueue(["x"], [])] gives [x] the generation
    2^64 - 1, the next call wraps the counter to 0, [enqueue(["y"], [])]
    gives [y] the generation 1, and [pop] returns [y] while [x] is queued. *)
Lemma C4_counterexample :
  reachable nearWrapQueue ∧
  ¬ generation_order_scenario nearWrapQueue
      ["x"] [] [Enqueue [] []] ["y"] [] [PopCall] "x" "y".
Proof.
  split; [apply nearWrapQueue_reachable|].
  intros H.
  destruct (enqueue ["x"] [] nearWrapQueue) as [sN| | |] eqn:EN;
    [|vm_compute in EN; discriminate..].
  destruct (run_calls [Enqueue [] []] sN) as [[outs_mid s2]| | |] eqn:Emid;
    [|vm_compute in EN; injection EN as <-; vm_compute in Emid; discriminate..].
  destruct (enqueue ["y"] [] s2) as [sM| | |] eqn:EM;
    [|vm_compute in EN; injection EN as <-;
      vm_compute in Emid; injection Emid as <- <-;
      vm_compute in EM; discriminate..].
  destruct (run_calls [PopCall] sM) as [[outs s']| | |] eqn:Erest;
    [|vm_compute in EN; injection EN as <-;
      vm_compute in Emid; injection Emid as <- <-;
      vm_compute in EM; injection EM as <-;
      vm_compute in Erest; discriminate..].
  specialize (H sN outs_mid s2 sM outs s' EN Emid EM Erest).
  vm_compute in EN; injection EN as <-.
  vm_compute in Emid; injection Emid as <- <-.
  vm_compute in EM; injection EM as <-.
  vm_compute in Erest; injection Erest as <- <-.
  assert (Some "x" ∈ [None] ++ []) as Hin.
  { apply (H ltac:(by left) ltac:(by left) ltac:(by left) ltac:(by left) [] []).
    reflexivity. }
  by apply list_elem_of_singleton in Hin.
Qed.

(** C4 (generation order), as long as the counter does not wrap around.
    Call N on a well-formed queue, any calls, call M, any calls; the
    generation of call M still fits a [uint64].  A key [x] of the invalidated
    list of call N that was absent or at priority 0 is popped before every
    key [y] of the invalidated list of call M that was absent or at priority
    0: when [y] is popped after call M, [x] has been popped since call N.  A
    key of the invalidated list of call M that was queued with a nonzero
    priority keeps that priority. *)
Theorem C4_generation_order
    (s : queue) (invN bgN : list string) (mid : list call)
    (invM bgM : list string) (rest : list call) (x y : string) :
  wf s →
  currentPriority s + 2 + count_enqueues mid ≤ uint64_max →
  generation_order_scenario s invN bgN mid invM bgM rest x y ∧
  ∀ sN outs_mid s2 sM p,
    enqueue invN bgN s = Ok sN → run_calls mid sN = Ok (outs_mid, s2) →
    enqueue invM bgM s2 = Ok sM →
    y ∈ invM → prio_of s2 y = Some p → p ≠ 0 → prio_of sM y = Some p.
Proof.
  intros Hwf Hmax. pose proof (count_enqueues_nonneg mid) as Hcnt.
  pose proof (wf_counter _ Hwf) as Hc0. split.
  - intros sN outs_mid s2 sM outs s' EN Emid EM Erest Hx Hx0 Hy Hy0 o1 o2 Ho.
    apply elem_of_app.
    destruct (decide (Some x ∈ outs_mid)) as [Hxmid|Hxmid]; [by left|right].
    destruct (enqueue_spec invN bgN s Hwf) as (sN' & EN' & HwfN & HcN & HpN).
    assert (sN' = sN) as -> by congruence.
    rewrite generation_no_wrap in HcN by (done || lia).
    assert (prio_of sN x = Some (currentPriority s + 1)) as HxN.
    { rewrite HpN, decide_True by done.
      rewrite generation_no_wrap by (done || lia).
      by destruct Hx0 as [-> | ->]. }
    destruct (run_keeps_priority mid sN outs_mid s2 x _ HwfN Emid HxN)
      as [Hwf2 Hx2]; [lia|done|].
    pose proof (run_counter mid sN outs_mid s2 HwfN Emid ltac:(lia)) as Hc2.
    destruct (enqueue_spec invM bgM s2 Hwf2) as (sM' & EM' & HwfM & HcM & HpM).
    assert (sM' = sM) as -> by congruence.
    assert (generation s2 = currentPriority s + 2 + count_enqueues mid) as Hg2.
    { rewrite generation_no_wrap by (done || lia). lia. }
    assert (prio_of sM x = Some (currentPriority s + 1)) as HxM.
    { destruct (run_call_keeps_priority (Enqueue invM bgM) s2 None sM x
                  (currentPriority s + 1)) as [_ ?]; try done; [|lia].
      simpl. by rewrite EM. }
    assert (prio_of sM y = Some (generation s2)) as HyM.
    { rewrite HpM, decide_True by done. by destruct Hy0 as [-> | ->]. }
    apply (pops_in_priority_order rest sM outs s' x y _ _ HwfM HxM HyM
             ltac:(lia) Erest o1 o2 Ho).
  - intros sN outs_mid s2 sM p EN Emid EM Hy Hp Hp0.
    destruct (enqueue_spec invN bgN s Hwf) as (sN' & EN' & HwfN & _).
    assert (sN' = sN) as -> by congruence.
    destruct (run_wf mid sN HwfN) as (o' & s2' & Emid' & Hwf2).
    assert (s2' = s2) as -> by congruence.
    destruct (run_call_keeps_priority (Enqueue invM bgM) s2 None sM y p)
      as [_ ?]; try done.
    simpl. by rewrite EM.
Qed.

Lemma C4_generation_order_witness :
  wf emptyQueue ∧
  currentPriority emptyQueue + 2 + count_enqueues [PopCall] ≤ uint64_max ∧
  ∀ o1 o2, [Some "/x"; Some "/a"; Some "/y"] = o1 ++ Some "/y" :: o2 →
           Some "/x" ∈ [Some "/w"] ++ o1.
Proof.
  assert (Hmax : currentPriority emptyQueue + 2 + count_enqueues [PopCall]
                 ≤ uint64_max) by (vm_compute; discriminate).
  split; [exact wf_emptyQueue|]. split; [exact Hmax|].
  destruct (C4_generation_order emptyQueue ["/x"; "/w"] [] [PopCall]
              ["/y"; "/a"] [] [PopCall; PopCall; PopCall] "/x" "/y"
              wf_emptyQueue Hmax) as [Hscenario _].
  eapply Hscenario.
  - vm_compute. reflexivity.
  - vm_compute. reflexivity.
  - vm_compute. reflexivity.
  - vm_compute. reflexivity.
  - apply list_elem_of_here.
  - left. reflexivity.
  - apply list_elem_of_here.
  - left. vm_compute. reflexivity.
Defined.

(** C5 (failed inventory fetch).  When [ListDocuments] fails, [revalidate]
    returns an error that wraps the failure and leaves the controller as it
    was: the entries of the queue, its generation counter, the signal channel
    and the worker are untouched, so nothing was enqueued and no wake signal
    was sent.  In any schedule the failed call can be left out without
    changing where the schedule leads. *)
Theorem C5_fetch_failure (err : error) (invalidated : list document) (c : controller) :
  (∃ r c', revalidate (inl err) invalidated c = Ok (r, c') ∧
     r = Some (Errorf "listing documents" err) ∧
     c' = c ∧
     entries (ctrl_queue c') = entries (ctrl_queue c) ∧
     pathIdx (ctrl_queue c') = pathIdx (ctrl_queue c) ∧
     currentPriority (ctrl_queue c') = currentPriority (ctrl_queue c) ∧
     sig c' = sig c ∧ worker c' = worker c) ∧
  ∀ es1 es2,
    schedule (es1 ++ Revalidate (inl err) invalidated :: es2) c
    = schedule (es1 ++ es2) c.
Proof.
  split.
  - by exists (Some (Errorf "listing documents" err)), c.
  - intros es1 es2. revert c.
    induction es1 as [|e es1 IH]; intros c; simpl; [done|].
    destruct (do_event e c) as [c1| | |]; [|done..].
    rewrite !bind_Ok. apply IH.
Qed.

(** C6 (no lost wake), a schedule on which it fails.  The worker parks, a
    first reconciliation wakes it, it submits the batch [/a] and then pops an
    empty batch; before it is back in its receive a second reconciliation
    enqueues [/b] and [/a] and signals: the worker is not parked, the channel
    has no buffer, so the [default] branch drops the signal.  The worker then
    parks with both keys queued, the channel open and no signal pending. *)
Lemma C6_lost_wake :
  ∃ c,
    newController ≫= schedule
      [WorkerStep;
       Revalidate (inr [Document "/a"]) [Document "/a"];
       WorkerStep; WorkerStep; WorkerStep; WorkerStep; WorkerStep;
       Revalidate (inr [Document "/a"; Document "/b"]) [Document "/b"];
       WorkerStep]
    = Ok c ∧
    worker c = Parked ∧ sig c = ChanOpen ∧
    keys (ctrl_queue c) = ["/b"; "/a"] ∧
    submitted c = [["/a"]] ∧
    run_step c = Ok None.
Proof. eexists. split; [vm_compute; reflexivity|]. by repeat split. Qed.

(** C7 as stated fails: a second [shutdownAndWait] closes the closed channel,
    which panics. *)
Lemma C7_counterexample :
  ∃ c1, newController ≫= shutdownAndWait 3 = Ok c1 ∧
        shutdownAndWait 3 c1 = Panic.
Proof. eexists. split; [vm_compute; reflexivity|]. reflexivity. Qed.

(** C7 (shutdown), one-shot.  On a controller whose channel is open,
    [shutdownAndWait] closes the channel and returns once the worker, wherever
    it was, has seen the closure and returned: it does not panic and does not
    block.  A second call panics. *)
Theorem C7_shutdown_once (c : controller) (fuel : nat) :
  wf (ctrl_queue c) → sig c = ChanOpen → (3 ≤ fuel)%nat →
  ∃ c', shutdownAndWait fuel c = Ok c' ∧
        sig c' = ChanClosed ∧ worker c' = Returned ∧
        shutdownAndWait fuel c' = Panic.
Proof.
  intros Hwf Hsig Hfuel. unfold shutdownAndWait at 1, close_sig.
  rewrite Hsig, bind_Ok.
  destruct (wg_Wait_closed (with_sig c ChanClosed) fuel Hwf eq_refl Hfuel)
    as (c' & -> & Hsig' & Hw').
  exists c'. split; [done|]. split; [done|]. split; [done|].
  unfold shutdownAndWait, close_sig. by rewrite Hsig'.
Qed.

Lemma C7_shutdown_once_witness :
  wf (ctrl_queue sampleController) ∧ sig sampleController = ChanOpen ∧
  (3 ≤ 3)%nat ∧
  ∃ c', shutdownAndWait 3 sampleController = Ok c' ∧
        sig c' = ChanClosed ∧ worker c' = Returned ∧
        shutdownAndWait 3 c' = Panic.
Proof.
  assert (Hwf := reachable_wf _ sampleQueue_reachable).
  split; [exact Hwf|]. split; [reflexivity|]. split; [lia|].
  apply (C7_shutdown_once sampleController 3 Hwf eq_refl). lia.
Defined.

(** C8 (interleaved scenario).  On a new queue,
    [enqueue(["/contact","/support"], ["/about","/home","/imprint"])], a
    [pop], [enqueue(["/imprint","/contact"], ["/about","/home","/support"])]
    and six more [pop]s return [/contact], then [/support], [/contact],
    [/imprint], [/about], [/home] and finally nothing: the queue is empty. *)
Theorem C8_interleaved_scenario :
  ∃ s,
    newQueue ≫= run_calls
      [Enqueue ["/contact"; "/support"] ["/about"; "/home"; "/imprint"];
       PopCall;
       Enqueue ["/imprint"; "/contact"] ["/about"; "/home"; "/support"];
       PopCall; PopCall; PopCall; PopCall; PopCall; PopCall]
    = Ok ([None; Some "/contact"; None;
           Some "/support"; Some "/contact"; Some "/imprint";
           Some "/about"; Some "/home"; None], s) ∧
    entries s = [] ∧ pathIdx s = ∅.
Proof. eexists. split; [vm_compute; reflexivity|]. split; reflexivity. Qed.

(** C9 (background-only enqueue, empty pop).  An [enqueue] call with an
    empty invalidated list advances the generation counter by one (a uint64
    increment), leaves the priority of every queued key as it was, and
    queues the background keys that were absent with priority 0; and [pop]
    on a queue without entries returns nil and leaves the queue as it is. *)
Theorem C9_background_only (s : queue) (bg : list string) :
  wf s →
  (∃ s', enqueue [] bg s = Ok s' ∧
     currentPriority s' = wrap64 (currentPriority s + 1) ∧
     (currentPriority s < uint64_max → currentPriority s' = currentPriority s + 1) ∧
     (∀ k p, prio_of s k = Some p → prio_of s' k = Some p) ∧
     (∀ k, prio_of s k = None →
        prio_of s' k = if decide (k ∈ bg) then Some 0 else None)) ∧
  (entries s = [] → pop s = Ok (None, s)).
Proof.
  intros Hwf. split.
  - destruct (enqueue_spec [] bg s Hwf) as (s' & E' & Hwf' & Hc & Hpr).
    exists s'. split; [done|]. split; [done|]. split; [|split].
    + intros Hlt. rewrite Hc. unfold generation, wrap64.
      pose proof (wf_counter _ Hwf). unfold uint64_max in Hlt.
      apply Z.mod_small. lia.
    + intros k p Hk. rewrite Hpr, Hk. simpl. by case_decide.
    + intros k Hk. rewrite Hpr, Hk. simpl. by case_decide.
  - intros He. apply pop_empty. by apply entries_nil.
Qed.

Lemma C9_background_only_witness :
  wf sampleQueue ∧
  ∃ s', enqueue [] ["/home"; "/imprint"] sampleQueue = Ok s' ∧
        currentPriority s' = 2 ∧
        prio_of s' "/contact" = Some 1 ∧ prio_of s' "/home" = Some 0 ∧
        prio_of s' "/imprint" = Some 0.
Proof.
  assert (Hwf := reachable_wf _ sampleQueue_reachable).
  split; [exact Hwf|].
  destruct (C9_background_only sampleQueue ["/home"; "/imprint"] Hwf)
    as [(s' & E & _ & Hc & Hold & Hnew) _].
  exists s'. split; [exact E|]. split; [|split; [|split]].
  - apply Hc. vm_compute. reflexivity.
  - apply Hold. vm_compute. reflexivity.
  - apply Hold. vm_compute. reflexivity.
  - rewrite Hnew by (vm_compute; reflexivity). reflexivity.
Defined.

(** C10 (duplicates within a call).  A key that occurs again in the lists of
    one [enqueue] call, in the same list or in the background list after the
    invalidated list, has no further effect: the call returns the very state
    that the call with both lists deduplicated returns, and also the state
    of the call whose background list moreover omits the keys of the
    invalidated list.  A key of the invalidated list that was absent or at
    priority 0 has the generation of the call afterwards, whether or not the
    background list names it too. *)
Theorem C10_duplicates_ignored (inv bg : list string) (s : queue) :
  wf s →
  enqueue inv bg s = enqueue (dedup inv) (dedup bg) s ∧
  enqueue inv bg s = enqueue (dedup inv) (dedup_seen inv bg) s ∧
  ∃ s', enqueue inv bg s = Ok s' ∧
    ∀ k, k ∈ inv → prio_of s k = None ∨ prio_of s k = Some 0 →
         prio_of s' k = Some (generation s).
Proof.
  intros Hwf.
  set (s1 := with_currentPriority s (generation s)).
  assert (Hwf1 : wf s1).
  { destruct Hwf. split; try done. simpl. apply wrap64_range. }
  assert (Hinv : addAll inv (generation s) s1 = addAll (dedup inv) (generation s) s1).
  { apply addAll_dedup; [done|apply wrap64_range|]. by intros k ?%elem_of_nil. }
  destruct (addAll_spec inv (generation s) s1 Hwf1 (wrap64_range _))
    as (s2 & E2 & Hwf2 & _ & Hp2).
  split; [|split].
  - unfold enqueue. fold (generation s). fold s1. simpl.
    rewrite <- Hinv, E2, !bind_Ok.
    apply addAll_dedup; [done|lia|]. by intros k ?%elem_of_nil.
  - unfold enqueue. fold (generation s). fold s1. simpl.
    rewrite <- Hinv, E2, !bind_Ok.
    apply addAll_dedup; [done|lia|].
    intros k Hk. eexists. split; [|by right].
    by rewrite Hp2, decide_True.
  - destruct (enqueue_spec inv bg s Hwf) as (s' & E' & _ & _ & Hp).
    exists s'. split; [done|]. intros k Hk Hold.
    rewrite Hp, decide_True by done. by destruct Hold as [-> | ->].
Qed.

Lemma C10_duplicates_ignored_witness :
  wf sampleQueue ∧
  enqueue ["/about"; "/about"; "/new"] ["/new"; "/home"; "/home"] sampleQueue
  = enqueue ["/about"; "/new"] ["/new"; "/home"] sampleQueue.
Proof.
  assert (Hwf := reachable_wf _ sampleQueue_reachable).
  split; [exact Hwf|].
  destruct (C10_duplicates_ignored ["/about"; "/about"; "/new"]
              ["/new"; "/home"; "/home"] sampleQueue Hwf) as (H & _ & _).
  exact H.
Defined.

(* ================================================================= *)
(** * Further properties of the queue *)

Section drain_facts.
Implicit Types (s : queue) (k x y : string) (ks : list string).

Lemma StronglySorted_impl_elem {A} (R R' : A → A → Prop) (l : list A) :
  StronglySorted R l → (∀ a b, a ∈ l → b ∈ l → R a b → R' a b) →
  StronglySorted R' l.
Proof.
  induction 1 as [|a l Hs IH Hall]; intros Himp; constructor.
  - apply IH. intros b c Hb Hc. apply Himp; by right.
  - rewrite Forall_forall in *. intros b Hb. apply Himp; [by left|by right|auto].
Qed.

Lemma keys_nil s : q s = [] → keys s = [].
Proof. unfold keys, entries. by intros ->. Qed.

Lemma size_pathIdx s : wf s → size (pathIdx s) = length (q s).
Proof.
  intros Hwf.
  rewrite <- (length_entries s) by apply Hwf.
  rewrite <- (length_fmap routePath (entries s)). fold (keys s).
  rewrite <- size_dom. unfold size, set_size. simpl. apply Permutation_length.
  apply NoDup_Permutation; [apply NoDup_elements|by apply wf_unique|].
  intros k. rewrite elem_of_elements, elem_of_dom, elem_of_keys by done.
  symmetry. by apply prio_of_pathIdx.
Qed.

(** What one [pop] does to a queue that is not empty, in terms of keys. *)
Lemma pop_step s :
  wf s → q s ≠ [] →
  ∃ k s1, pop s = Ok (Some k, s1) ∧ wf s1 ∧
    S (length (q s1)) = length (q s) ∧
    currentPriority s1 = currentPriority s ∧
    keys s ≡ₚ k :: keys s1 ∧ (k ∉ keys s1) ∧
    (∀ k', k' ∈ keys s1 → prio_of s1 k' = prio_of s k') ∧
    (∀ k', k' ∈ keys s1 → before s k k').
Proof.
  intros Hwf Hne.
  destruct (pop_spec s Hwf Hne)
    as (p0 & it & s1 & _ & _ & Ep & Hwf1 & Hcp & _ & _ & _ & _ & Hlen).
  destruct (pop_keys s _ s1 Hwf Ep) as (_ & Hin & Hout & _ & Hother).
  destruct (pop_min_prio s _ s1 Hwf Ep) as (zk & Hzk & Hmin).
  set (k := routePath it) in *.
  assert (Hne' : ∀ k', k' ∈ keys s1 → k' ≠ k).
  { intros k' Hk' Heq. by rewrite Heq in Hk'. }
  exists k, s1. split_and!; try done.
  - rewrite Hlen. destruct (q s); simpl; [done|lia].
  - apply NoDup_Permutation; [by apply wf_unique| |].
    + constructor; [done|by apply wf_unique].
    + intros k'. rewrite elem_of_cons. destruct (decide (k' = k)) as [->|Hk'].
      * naive_solver.
      * rewrite !elem_of_keys, Hother by done. split; [by right|by intros [?|?]].
  - intros k' Hk'. apply Hother. by apply Hne'.
  - intros k' Hk'. assert (Hk := Hk').
    apply elem_of_keys in Hk as [z Hz]; [|done].
    rewrite Hother in Hz by by apply Hne'.
    exists zk, z. split; [done|]. split; [done|].
    destruct (lessk (zk, k) (z, k')) eqn:El; [done|].
    pose proof (lessk_total _ _ El (Hmin _ _ Hz)) as Heq.
    exfalso. apply (Hne' k' Hk'). congruence.
Qed.

Lemma drain_loop_spec fuel : ∀ s,
  wf s → (length (q s) < fuel)%nat →
  ∃ ks s', drain_loop fuel s = Ok (ks, s') ∧ wf s' ∧ q s' = [] ∧
    currentPriority s' = currentPriority s ∧
    ks ≡ₚ keys s ∧ StronglySorted (before s) ks.
Proof.
  induction fuel as [|fuel IH]; intros s Hwf Hlen; [lia|].
  destruct (decide (q s = [])) as [Hq|Hq].
  - exists [], s. simpl. rewrite (pop_empty s Hq). rsimpl.
    rewrite (keys_nil s Hq). split_and!; try done. constructor.
  - destruct (pop_step s Hwf Hq)
      as (k & s1 & Ep & Hwf1 & Hlen1 & Hcp & Hperm & Hout & Hsame & Hfirst).
    destruct (IH s1 Hwf1) as (ks & s' & E & Hwf' & Hq' & Hcp' & Hperm' & Hsort);
      [lia|].
    exists (k :: ks), s'. simpl. rewrite Ep. rsimpl. rewrite E. rsimpl.
    split_and!; try done.
    + congruence.
    + by rewrite Hperm, Hperm'.
    + constructor.
      * eapply StronglySorted_impl_elem; [exact Hsort|].
        intros a b Ha Hb (za & zb & Hza & Hzb & Hl).
        rewrite Hperm' in Ha, Hb.
        exists za, zb. rewrite <- (Hsame a), <- (Hsame b) by done. done.
      * apply Forall_forall. intros k' Hk'. apply Hfirst. by rewrite <- Hperm'.
Qed.

Lemma drain_loop_fuel f1 : ∀ f2 s,
  wf s → (length (q s) < f1)%nat → (length (q s) < f2)%nat →
  drain_loop f1 s = drain_loop f2 s.
Proof.
  induction f1 as [|f1 IH]; intros f2 s Hwf H1 H2; [lia|].
  destruct f2 as [|f2]; [lia|].
  destruct (decide (q s = [])) as [Hq|Hq].
  - simpl. by rewrite (pop_empty s Hq).
  - destruct (pop_step s Hwf Hq) as (k & s1 & Ep & Hwf1 & Hlen1 & _).
    simpl. rewrite Ep. rsimpl. rewrite (IH f2 s1) by (done || lia). done.
Qed.

Lemma drain_spec s :
  wf s →
  ∃ ks s', drain s = Ok (ks, s') ∧ wf s' ∧ q s' = [] ∧
    currentPriority s' = currentPriority s ∧
    ks ≡ₚ keys s ∧ StronglySorted (before s) ks.
Proof. intros Hwf. apply drain_loop_spec; [done|lia]. Qed.

(** [drain] after one [pop]. *)
Lemma drain_cons s k s1 :
  wf s → pop s = Ok (Some k, s1) →
  drain s = (r ← drain s1; Ok (k :: r.1, r.2)).
Proof.
  intros Hwf Ep.
  destruct (decide (q s = [])) as [Hq|Hq].
  { rewrite (pop_empty s Hq) in Ep. done. }
  destruct (pop_step s Hwf Hq) as (k' & s1' & Ep' & Hwf1 & Hlen1 & _).
  assert (k' = k ∧ s1' = s1) as [-> ->] by (split; congruence).
  unfold drain at 1. simpl. rewrite Ep. rsimpl.
  rewrite (drain_loop_fuel _ (S (length (q s1))) s1) by (done || lia). done.
Qed.

Lemma drain_nil s : q s = [] → drain s = Ok ([], s).
Proof. intros Hq. unfold drain. simpl. by rewrite (pop_empty s Hq). Qed.

End drain_facts.

(* ================================================================= *)
(** * Further properties of the controller *)

Section batch_facts.
Implicit Types (c : controller) (s : queue) (ks res : list string).

Lemma drop_length_take {A} (n : nat) (l : list A) :
  drop (length (take n l)) l = drop n l.
Proof.
  rewrite length_take. destruct (decide (n ≤ length l)%nat).
  - by rewrite Nat.min_l.
  - rewrite Nat.min_r by lia. by rewrite !drop_ge by lia.
Qed.

(** The loop of [queuePopBatch] takes a prefix of what [drain] returns: as
    many route paths as the batch still lacks, or all of them when the size
    of the batch cannot be met any more. *)
Lemma queuePopBatch_loop_drain fuel : ∀ size res s ks sE,
  wf s → (length (q s) < fuel)%nat → drain s = Ok (ks, sE) →
  ∃ s', queuePopBatch_loop fuel size res s
        = Ok (res ++ take (if decide (Z.of_nat (length res) < size)%Z
                           then Z.to_nat size - length res else length ks)%nat ks,
              s') ∧
        wf s' ∧
        drain s' = Ok (drop (if decide (Z.of_nat (length res) < size)%Z
                             then Z.to_nat size - length res else length ks)%nat ks,
                       sE).
Proof.
  induction fuel as [|fuel IH]; intros size res s ks sE Hwf Hlen Hd; [lia|].
  destruct (decide (q s = [])) as [Hq|Hq].
  - rewrite (drain_nil s Hq) in Hd. injection Hd as <- <-.
    exists s. simpl. rewrite (pop_empty s Hq). rsimpl.
    rewrite take_nil, drop_nil, app_nil_r. split; [done|]. split; [done|].
    by apply drain_nil.
  - destruct (pop_step s Hwf Hq) as (k & s1 & Ep & Hwf1 & Hlen1 & _).
    rewrite (drain_cons s k s1 Hwf Ep) in Hd.
    destruct (drain_spec s1 Hwf1) as (ks1 & sE1 & Ed1 & _).
    rewrite Ed1, bind_Ok in Hd. simpl in Hd. injection Hd as <- <-.
    simpl queuePopBatch_loop. rewrite Ep. rsimpl. rewrite length_app. simpl.
    destruct (Z.of_nat (length res + 1) =? size) eqn:Esz.
    + apply Z.eqb_eq in Esz. exists s1. rewrite decide_True by lia.
      replace (Z.to_nat size - length res)%nat with 1%nat by lia.
      simpl. rewrite take_0, drop_0. done.
    + apply Z.eqb_neq in Esz.
      destruct (IH size (res ++ [k]) s1 ks1 sE1 Hwf1) as (s' & E & Hwf' & Ed');
        [lia|done|].
      rewrite length_app in E, Ed'. simpl in E, Ed'.
      exists s'. rewrite E. split; [|split; [done|]].
      * rewrite <- app_assoc. simpl. do 3 f_equal.
        repeat case_decide; try lia.
        -- replace (Z.to_nat size - length res)%nat
             with (S (Z.to_nat size - (length res + 1)))%nat by lia. done.
        -- simpl. done.
      * rewrite Ed'. do 2 f_equal.
        repeat case_decide; try lia.
        -- replace (Z.to_nat size - length res)%nat
             with (S (Z.to_nat size - (length res + 1)))%nat by lia. done.
        -- simpl. done.
Qed.

Lemma queuePopBatch_drain c ks sE :
  wf (ctrl_queue c) → drain (ctrl_queue c) = Ok (ks, sE) →
  ∃ s', queuePopBatch c
        = Ok (if 1 <=? revalidateBatchSize c
              then take (Z.to_nat (revalidateBatchSize c)) ks else ks,
              with_queue c s') ∧
        wf s' ∧
        drain s' = Ok (if 1 <=? revalidateBatchSize c
                       then drop (Z.to_nat (revalidateBatchSize c)) ks else [],
                       sE).
Proof.
  intros Hwf Hd. unfold queuePopBatch.
  destruct (queuePopBatch_loop_drain (S (length (q (ctrl_queue c))))
              (revalidateBatchSize c) [] (ctrl_queue c) ks sE Hwf)
    as (s' & E & Hwf' & Ed'); [lia|done|].
  exists s'. rewrite E. rsimpl. simpl in Ed'.
  destruct (1 <=? revalidateBatchSize c) eqn:Esz.
  - rewrite decide_True in Ed' |- * by lia. rewrite Nat.sub_0_r in Ed' |- *. done.
  - rewrite decide_False in Ed' |- * by lia.
    rewrite firstn_all. rewrite drop_all in Ed'. done.
Qed.

Lemma batches_nil fuel size : batches fuel size [] = [].
Proof. by destruct fuel. Qed.

Lemma batches_fuel f1 : ∀ f2 size ks,
  (length ks ≤ f1)%nat → (length ks ≤ f2)%nat →
  batches f1 size ks = batches f2 size ks.
Proof.
  induction f1 as [|f1 IH]; intros f2 size ks H1 H2.
  - destruct ks; [|simpl in H1; lia]. by rewrite !batches_nil.
  - destruct ks as [|k ks]; [by rewrite !batches_nil|].
    destruct f2 as [|f2]; [simpl in H2; lia|].
    simpl batches. destruct (1 <=? size) eqn:Esz; [|done].
    f_equal. simpl in H1, H2. apply IH; rewrite length_drop; simpl; lia.
Qed.

(** One round of the inner loop of [run], from its [select] back to it. *)
Lemma run_round c ks sE fuel :
  wf (ctrl_queue c) → sig c = ChanOpen → worker c = AtSelect →
  drain (ctrl_queue c) = Ok (ks, sE) → ks ≠ [] →
  ∃ s', wf s' ∧
    drain s' = Ok (if 1 <=? revalidateBatchSize c
                   then drop (Z.to_nat (revalidateBatchSize c)) ks else [], sE) ∧
    run (S (S (S fuel))) c
    = run fuel (Controller (revalidateBatchSize c) s' ChanOpen AtSelect
                  (submitted c ++ [if 1 <=? revalidateBatchSize c
                                   then take (Z.to_nat (revalidateBatchSize c)) ks
                                   else ks])).
Proof.
  intros Hwf Hsig Hw Hd Hne.
  destruct c as [size s ch w sub]. simpl in Hwf, Hsig, Hw, Hd. subst ch w.
  destruct (queuePopBatch_drain (Controller size s ChanOpen AtPopBatch sub) ks sE
              Hwf Hd) as (s' & E & Hwf' & Ed').
  simpl in E, Ed'. exists s'. split; [done|]. split; [done|].
  simpl revalidateBatchSize. simpl submitted.
  set (b := if 1 <=? size then take (Z.to_nat size) ks else ks) in *.
  assert (Hb : (Z.of_nat (length b) =? 0) = false).
  { apply Z.eqb_neq. subst b. destruct ks as [|k ks]; [done|].
    destruct (1 <=? size) eqn:Esz; simpl; [|lia].
    destruct (Z.to_nat size) eqn:En; [lia|]. simpl. lia. }
  change (run (S (S (S fuel))) (Controller size s ChanOpen AtSelect sub))
    with (r ← (r ← queuePopBatch (Controller size s ChanOpen AtPopBatch sub);
               if Z.of_nat (length r.1) =? 0
               then Ok (Some (with_worker r.2 AtReceive))
               else Ok (Some (with_worker r.2 (InRevalidate r.1))));
          match r with
          | Some c' => run (S fuel) c'
          | None => Ok (Controller size s ChanOpen AtPopBatch sub)
          end).
  rewrite E. rsimpl. rewrite Hb. done.
Qed.

(** The last round: the queue is empty and the worker parks. *)
Lemma run_parks c fuel :
  sig c = ChanOpen → worker c = AtSelect → q (ctrl_queue c) = [] →
  run (S (S (S (S fuel)))) c = Ok (with_worker c Parked).
Proof.
  intros Hsig Hw Hq.
  destruct c as [size s ch w sub]. simpl in Hsig, Hw, Hq. subst ch w.
  change (run (S (S (S (S fuel)))) (Controller size s ChanOpen AtSelect sub))
    with (r ← (r ← (r ← queuePopBatch_loop (S (length (q s))) size [] s;
                    Ok (r.1, Controller size r.2 ChanOpen AtPopBatch sub));
               if Z.of_nat (length r.1) =? 0
               then Ok (Some (with_worker r.2 AtReceive))
               else Ok (Some (with_worker r.2 (InRevalidate r.1))));
          match r with
          | Some c' => run (S (S fuel)) c'
          | None => Ok (Controller size s ChanOpen AtPopBatch sub)
          end).
  rewrite Hq. simpl queuePopBatch_loop. rewrite (pop_empty s Hq). done.
Qed.

Lemma run_drains m : ∀ c ks sE fuel,
  (length ks ≤ m)%nat →
  wf (ctrl_queue c) → sig c = ChanOpen → worker c = AtSelect →
  drain (ctrl_queue c) = Ok (ks, sE) → (3 * length ks + 4 ≤ fuel)%nat →
  run fuel c
  = Ok (Controller (revalidateBatchSize c) sE ChanOpen Parked
          (submitted c ++ batches (length ks) (revalidateBatchSize c) ks)).
Proof.
  induction m as [|m IH]; intros c ks sE fuel Hm Hwf Hsig Hw Hd Hfuel.
  - destruct ks; [|simpl in Hm; lia].
    destruct (drain_spec _ Hwf) as (ks' & sE' & Ed & _ & _ & _ & Hperm & _).
    rewrite Ed in Hd. simplify_eq.
    symmetry in Hperm. apply Permutation_nil_r in Hperm.
    assert (Hq : q (ctrl_queue c) = []).
    { apply entries_nil; [done|]. by apply fmap_nil_inv in Hperm. }
    rewrite (drain_nil _ Hq) in Ed. simplify_eq.
    destruct fuel as [|[|[|[|fuel]]]]; simpl in Hfuel; try lia.
    rewrite run_parks by done. simpl. rewrite app_nil_r.
    destruct c; simpl in *; by subst.
  - destruct ks as [|k ks].
    { apply (IH c [] sE fuel); simpl; (done || lia). }
    destruct fuel as [|[|[|fuel]]]; simpl in Hfuel; try lia.
    destruct (run_round c (k :: ks) sE fuel Hwf Hsig Hw Hd) as (s' & Hwf' & Ed' & ->);
      [done|].
    set (size := revalidateBatchSize c) in *.
    destruct (1 <=? size) eqn:Esz.
    + rewrite (IH _ (drop (Z.to_nat size) (k :: ks)) sE fuel); try done.
      * simpl revalidateBatchSize. simpl submitted. fold size.
        rewrite <- app_assoc. simpl. rewrite Esz. do 4 f_equal.
        apply batches_fuel; rewrite length_drop; simpl; lia.
      * rewrite length_drop. simpl in Hm |- *. lia.
      * rewrite length_drop. simpl length. lia.
    + rewrite (IH _ [] sE fuel); try done.
      * simpl revalidateBatchSize. simpl submitted. fold size.
        rewrite <- app_assoc. simpl. by rewrite Esz.
      * simpl. lia.
      * simpl. lia.
Qed.

End batch_facts.

Section shutdown_facts.
Implicit Types (c : controller) (s : queue).

(** A batch and what stays queued make up what was queued. *)
Lemma queuePopBatch_keys c :
  wf (ctrl_queue c) →
  ∃ b s', queuePopBatch c = Ok (b, with_queue c s') ∧ wf s' ∧
          keys (ctrl_queue c) ≡ₚ b ++ keys s'.
Proof.
  intros Hwf.
  destruct (drain_spec _ Hwf) as (ks & sE & Ed & _ & _ & _ & Hperm & _).
  destruct (queuePopBatch_drain c ks sE Hwf Ed) as (s' & E & Hwf' & Ed').
  destruct (drain_spec _ Hwf') as (ks' & sE' & Ed'' & _ & _ & _ & Hperm' & _).
  rewrite Ed'' in Ed'. injection Ed' as Hks' _.
  eexists _, s'. split; [exact E|]. split; [done|].
  rewrite <- Hperm, <- Hperm', Hks'.
  destruct (1 <=? revalidateBatchSize c).
  - by rewrite take_drop.
  - by rewrite app_nil_r.
Qed.

Lemma run_step_sig c c' : run_step c = Ok (Some c') → sig c' = sig c.
Proof.
  unfold run_step. destruct c as [size s ch w sub]. simpl.
  destruct w, ch; simpl; try (intros; simplify_eq; done).
  all: unfold queuePopBatch; cbn [ctrl_queue revalidateBatchSize];
    destruct (queuePopBatch_loop (S (length (q s))) size [] s) as [[b s']| | |];
    try done; rewrite !bind_Ok; cbn [fst snd];
    destruct (Z.of_nat (length b) =? 0); intros; simplify_eq; done.
Qed.

Lemma wg_Wait_sig fuel : ∀ c c', wg_Wait fuel c = Ok c' → sig c' = sig c.
Proof.
  induction fuel as [|fuel IH]; intros c c'.
  - simpl. destruct (worker c); intros; simplify_eq; done.
  - simpl. destruct (worker c) eqn:Ew; try (intros; simplify_eq; done).
    all: destruct (run_step c) as [[c1|]| | |] eqn:Es; rsimpl; try done.
    all: intros H; apply IH in H; rewrite H; by apply run_step_sig.
Qed.

(** With the channel closed, [revalidate] with a fetched inventory panics,
    whatever the queue. *)
Lemma revalidate_closed c documents invalidated :
  sig c = ChanClosed → revalidate (inr documents) invalidated c = Panic.
Proof.
  intros Hsig. unfold revalidate.
  destruct (enqueue_rop (RoutePath <$> invalidated) (RoutePath <$> documents)
              (ctrl_queue c)) as [->|[s' ->]]; [done|].
  rewrite bind_Ok. unfold ensureProcessQueue. simpl. by rewrite Hsig.
Qed.

End shutdown_facts.

Section counter_facts.
Implicit Types (s : queue) (k : string) (cs : list call).

Lemma pop_keeps s o s1 :
  wf s → pop s = Ok (o, s1) →
  currentPriority s1 = currentPriority s ∧
  ∀ k z, prio_of s1 k = Some z → prio_of s k = Some z.
Proof.
  intros Hwf Ep. destruct (decide (q s = [])) as [Hq|Hq].
  - rewrite (pop_empty s Hq) in Ep. by simplify_eq.
  - destruct (pop_spec s Hwf Hq)
      as (p0 & it & s' & _ & _ & Ep' & _ & Hcp & Hp & _).
    rewrite Ep' in Ep. simplify_eq. split; [done|].
    intros k z. rewrite Hp. by case_decide.
Qed.

Lemma prio_of_nonneg s k z : wf s → prio_of s k = Some z → 0 ≤ z.
Proof.
  intros Hwf. unfold prio_of.
  destruct (pathIdx s !! k) as [p|]; [|done].
  destruct (mem s !! p) as [it|] eqn:Em; [|done].
  simpl. intros [= <-]. by apply (wf_prio s Hwf p it).
Qed.

Lemma run_bounded cs : ∀ s outs s',
  wf s → (∀ k z, prio_of s k = Some z → z ≤ currentPriority s) →
  currentPriority s + count_enqueues cs ≤ uint64_max →
  run_calls cs s = Ok (outs, s') →
  ∀ k z, prio_of s' k = Some z → z ≤ currentPriority s'.
Proof.
  induction cs as [|[inv bg|] cs IH]; intros s outs s' Hwf Hb Hc E.
  - simpl in E. by simplify_eq.
  - pose proof (count_enqueues_nonneg cs) as Hnn.
    simpl in E, Hc.
    destruct (enqueue_spec inv bg s Hwf) as (s1 & E1 & Hwf1 & Hcp1 & Hp1).
    rewrite E1 in E. rewrite !bind_Ok in E. simpl in E.
    destruct (run_calls cs s1) as [[outs1 s1']| | |] eqn:Er; try done.
    rewrite bind_Ok in E. simpl in E. injection E as _ <-.
    rewrite generation_no_wrap in Hcp1, Hp1 by (done || lia).
    apply (IH s1 outs1 s1'); [done| |lia|done].
    pose proof (wf_counter s Hwf) as Hcnt.
    intros k z. rewrite Hp1, Hcp1.
    repeat case_decide; intros Hz.
    + injection Hz as <-. unfold merge_prio.
      destruct (prio_of s k) as [z0|] eqn:E0; [|lia].
      destruct (z0 =? 0); [lia|]. specialize (Hb _ _ E0). lia.
    + injection Hz as <-. destruct (prio_of s k) as [z0|] eqn:E0; simpl; [|lia].
      specialize (Hb _ _ E0). lia.
    + specialize (Hb _ _ Hz). lia.
  - simpl in E, Hc.
    destruct (pop_total s Hwf) as (o & s1 & Ep & Hwf1).
    rewrite Ep in E. rewrite bind_Ok in E. simpl in E.
    destruct (run_calls cs s1) as [[outs1 s1']| | |] eqn:Er; try done.
    rewrite bind_Ok in E. simpl in E. injection E as _ <-.
    destruct (pop_keeps s o s1 Hwf Ep) as (Hcp & Hsub).
    apply (IH s1 outs1 s1'); [done| |lia|done].
    intros k z Hz. rewrite Hcp. eauto.
Qed.

Lemma addAll_noop l : ∀ prio s,
  (∀ k, k ∈ l → settled s k prio) → addAll l prio s = Ok s.
Proof.
  induction l as [|k l IH]; intros prio s Hl; [done|]. simpl.
  rewrite addOrUpdate_noop by (apply Hl; by left). rewrite bind_Ok.
  apply IH. intros k' Hk'. apply Hl. by right.
Qed.

(** An [enqueue] call whose keys are all queued, the invalidated ones with
    a nonzero priority, only counts. *)
Lemma enqueue_noop inv bg s :
  (∀ k, k ∈ inv → ∃ z, prio_of s k = Some z ∧ z ≠ 0) →
  (∀ k, k ∈ bg → is_Some (prio_of s k)) →
  enqueue inv bg s = Ok (with_currentPriority s (generation s)).
Proof.
  intros Hinv Hbg. unfold enqueue. fold (generation s). simpl.
  rewrite addAll_noop.
  - rewrite bind_Ok. apply addAll_noop. intros k Hk.
    destruct (Hbg k Hk) as [z Hz]. exists z. split; [done|by right].
  - intros k Hk. destruct (Hinv k Hk) as (z & Hz & Hnz).
    exists z. split; [done|by left].
Qed.

End counter_facts.

Section order_facts.
Implicit Types (s : queue) (k x y : string) (ks inv bg : list string).

Lemma lessk_same_prio z x y : lessk (z, x) (z, y) = String.ltb x y.
Proof. unfold lessk, queueItems.less. simpl. by rewrite Z.eqb_refl. Qed.

Lemma lessk_zero_last z x y : z ≠ 0 → lessk (0, x) (z, y) = false.
Proof.
  intros Hz. unfold lessk, queueItems.less. simpl. by destruct z.
Qed.

(** In a sorted list the elements of a class that is closed to the front
    come first. *)
Lemma StronglySorted_partition {A} (R : A → A → Prop) (P : A → Prop)
    `{∀ a, Decision (P a)} (l : list A) :
  StronglySorted R l → (∀ a b, a ∈ l → b ∈ l → R a b → P b → P a) →
  l = filter P l ++ filter (λ a, ¬ P a) l.
Proof.
  induction 1 as [|a l Hs IH Hall]; intros Hcl; [done|].
  rewrite Forall_forall in Hall.
  assert (IH' := IH (λ b c Hb Hc, Hcl b c (list_elem_of_further _ _ _ Hb)
                                   (list_elem_of_further _ _ _ Hc))).
  destruct (decide (P a)) as [Ha|Ha].
  - rewrite filter_cons_True by done.
    rewrite (filter_cons_False (λ a, ¬ P a)) by tauto.
    simpl. by f_equal.
  - rewrite filter_cons_False by done.
    rewrite (filter_cons_True (λ a, ¬ P a)) by done.
    assert (Hnone : filter P l = []).
    { destruct (filter P l) as [|b r] eqn:Ef; [done|]. exfalso.
      assert (Hb : b ∈ filter P l) by (rewrite Ef; by left).
      apply list_elem_of_filter in Hb as [Pb Hb]. apply Ha.
      apply (Hcl a b); [by left|by right|by apply Hall|done]. }
    assert (Hall' : filter (λ a, ¬ P a) l = l).
    { rewrite Hnone in IH'. by symmetry. }
    by rewrite Hnone, Hall'.
Qed.

Lemma StronglySorted_filter_elem {A} (R : A → A → Prop) (P : A → Prop)
    `{∀ a, Decision (P a)} (l : list A) :
  StronglySorted R l → StronglySorted R (filter P l).
Proof.
  induction 1 as [|a l Hs IH Hall]; [constructor|].
  destruct (decide (P a)).
  - rewrite filter_cons_True by done. constructor; [done|].
    rewrite Forall_forall in *. intros b Hb.
    apply list_elem_of_filter in Hb as [_ Hb]. auto.
  - by rewrite filter_cons_False.
Qed.

(** The first [enqueue] on a queue without entries, and the [drain] after
    it. *)
Lemma fresh_enqueue_drain inv bg s :
  wf s → q s = [] → generation s ≠ 0 →
  ∃ s1 ka kb sE,
    enqueue inv bg s = Ok s1 ∧ wf s1 ∧
    currentPriority s1 = generation s ∧
    drain s1 = Ok (ka ++ kb, sE) ∧
    ka ≡ₚ dedup inv ∧ kb ≡ₚ dedup_seen inv bg ∧
    StronglySorted (λ x y, String.ltb x y = true) ka ∧
    StronglySorted (λ x y, String.ltb x y = true) kb ∧
    (∀ k, k ∈ ka → prio_of s1 k = Some (generation s)) ∧
    (∀ k, k ∈ kb → prio_of s1 k = Some 0).
Proof.
  intros Hwf Hq Hg.
  destruct (enqueue_spec inv bg s Hwf) as (s1 & E1 & Hwf1 & Hcp1 & Hp1).
  assert (Hnone : ∀ k, prio_of s k = None).
  { intros k. destruct (prio_of s k) eqn:E; [|done].
    assert (Hk : k ∈ keys s) by (apply elem_of_keys; [done|by eexists]).
    rewrite (keys_nil s Hq) in Hk. by apply elem_of_nil in Hk. }
  assert (Hp : ∀ k, prio_of s1 k =
                    if decide (k ∈ inv) then Some (generation s)
                    else if decide (k ∈ bg) then Some 0 else None).
  { intros k. rewrite Hp1, Hnone. done. }
  clear Hp1.
  destruct (drain_spec s1 Hwf1) as (ks & sE & Ed & _ & _ & _ & Hperm & Hsort).
  assert (Hnd : NoDup ks) by (rewrite Hperm; by apply wf_unique).
  assert (Hin : ∀ k, k ∈ ks ↔ k ∈ inv ∨ k ∈ bg).
  { intros k. rewrite Hperm, elem_of_keys, Hp by done.
    repeat case_decide; split; intros Hk; try tauto; try by eexists.
    by destruct Hk as [? ?]. }
  exists s1, (filter (λ k, k ∈ inv) ks), (filter (λ k, k ∉ inv) ks), sE.
  split; [done|]. split; [done|]. split; [done|].
  assert (Hsplit : ks = filter (λ k, k ∈ inv) ks ++ filter (λ k, k ∉ inv) ks).
  { apply (StronglySorted_partition (before s1)); [done|].
    intros a b _ _ (za & zb & Hza & Hzb & Hl) Hb.
    destruct (decide (a ∈ inv)) as [|Ha]; [done|].
    rewrite Hp in Hza, Hzb. rewrite decide_True in Hzb by done.
    rewrite decide_False in Hza by done.
    case_decide; [|done]. simplify_eq.
    by rewrite lessk_zero_last in Hl. }
  split; [by rewrite <- Hsplit|].
  split; [|split; [|split; [|split; [|split]]]].
  - apply NoDup_Permutation; [by apply NoDup_filter|apply dedup_seen_NoDup|].
    intros k. unfold dedup. rewrite list_elem_of_filter, dedup_seen_elem, Hin.
    split; [intros [? _]; split; [done|apply not_elem_of_nil]|intros [? _]; tauto].
  - apply NoDup_Permutation; [by apply NoDup_filter|apply dedup_seen_NoDup|].
    intros k. rewrite list_elem_of_filter, dedup_seen_elem, Hin. tauto.
  - eapply StronglySorted_impl_elem;
      [apply StronglySorted_filter_elem; exact Hsort|].
    intros a b [Ha _]%list_elem_of_filter [Hb _]%list_elem_of_filter
           (za & zb & Hza & Hzb & Hl).
    rewrite Hp, decide_True in Hza by done.
    rewrite Hp, decide_True in Hzb by done. simplify_eq.
    by rewrite lessk_same_prio in Hl.
  - eapply StronglySorted_impl_elem;
      [apply StronglySorted_filter_elem; exact Hsort|].
    intros a b [Ha _]%list_elem_of_filter [Hb _]%list_elem_of_filter
           (za & zb & Hza & Hzb & Hl).
    rewrite Hp, decide_False in Hza by done.
    rewrite Hp, decide_False in Hzb by done.
    repeat case_decide; try done. simplify_eq.
    by rewrite lessk_same_prio in Hl.
  - intros k [Hk _]%list_elem_of_filter. by rewrite Hp, decide_True.
  - intros k [Hk Hk']%list_elem_of_filter. apply Hin in Hk' as [?|?]; [done|].
    rewrite Hp, decide_False, decide_True by done. done.
Qed.

End order_facts.

(* ================================================================= *)
(** * Properties of the handler and of the cron logger *)

Section handler_facts.

Lemma byte_log2 a : 0 ≤ a < 256 → Z.log2 a < 8.
Proof.
  intros [H0 H1]. destruct (decide (a = 0)) as [->|]; [done|].
  apply Z.log2_lt_pow2; lia.
Qed.

Lemma log2_byte a : 0 ≤ a → Z.log2 a < 8 → 0 ≤ a < 256.
Proof.
  intros H0 Hl. split; [done|]. destruct (decide (a = 0)) as [->|]; [done|].
  change 256 with (2 ^ 8). apply Z.log2_lt_pow2; lia.
Qed.

Lemma lxor_byte a b : 0 ≤ a < 256 → 0 ≤ b < 256 → 0 ≤ Z.lxor a b < 256.
Proof.
  intros Ha Hb. apply log2_byte.
  - apply Z.lxor_nonneg. lia.
  - pose proof (Z.log2_lxor a b ltac:(lia) ltac:(lia)).
    pose proof (byte_log2 a Ha). pose proof (byte_log2 b Hb). lia.
Qed.

Lemma lor_byte a b : 0 ≤ a < 256 → 0 ≤ b < 256 → 0 ≤ Z.lor a b < 256.
Proof.
  intros Ha Hb. apply log2_byte.
  - apply Z.lor_nonneg. lia.
  - rewrite Z.log2_lor by lia.
    pose proof (byte_log2 a Ha). pose proof (byte_log2 b Hb). lia.
Qed.

Lemma ConstantTimeCompare_loop_spec (x : list Z) : ∀ (y : list Z) (v : Z),
  length x = length y →
  Forall (λ b, 0 ≤ b < 256) x → Forall (λ b, 0 ≤ b < 256) y → 0 ≤ v < 256 →
  0 ≤ ConstantTimeCompare_loop v x y < 256 ∧
  (ConstantTimeCompare_loop v x y = 0 ↔ v = 0 ∧ x = y).
Proof.
  induction x as [|a x IH]; intros [|b y] v Hlen Hx Hy Hv; simpl in *; try done.
  - split; [done|]. tauto.
  - apply Forall_cons in Hx as [Ha Hx]. apply Forall_cons in Hy as [Hb Hy].
    destruct (IH y (Z.lor v (Z.lxor a b))) as [Hr Hz]; [lia|done|done| |].
    { apply lor_byte; [done|by apply lxor_byte]. }
    split; [done|]. rewrite Hz, Z.lor_eq_0_iff, Z.lxor_eq_0_iff.
    split; [intros [[? ?] ?]; by subst|intros [? [= ? ?]]; by subst].
Qed.

Lemma ConstantTimeByteEq_zero v :
  0 ≤ v < 256 → ConstantTimeByteEq v 0 = 1 ↔ v = 0.
Proof.
  intros Hv. unfold ConstantTimeByteEq, wrap32.
  rewrite Z.lxor_0_r, Z.shiftr_div_pow2 by lia.
  destruct (decide (v = 0)) as [->|Hnz]; [done|].
  rewrite Z.mod_small by lia. rewrite Z.div_small by lia. lia.
Qed.

Lemma ConstantTimeCompare_spec (x y : list Z) :
  Forall (λ b, 0 ≤ b < 256) x → Forall (λ b, 0 ≤ b < 256) y →
  ConstantTimeCompare x y = 1 ↔ x = y.
Proof.
  intros Hx Hy. unfold ConstantTimeCompare.
  destruct (length x =? length y)%nat eqn:El; simpl.
  - apply Nat.eqb_eq in El.
    destruct (ConstantTimeCompare_loop_spec x y 0 El Hx Hy) as [Hr Hz]; [lia|].
    rewrite ConstantTimeByteEq_zero, Hz by done. tauto.
  - apply Nat.eqb_neq in El. split; [done|]. intros ->. done.
Qed.

Lemma bytes_of_range (s : string) : Forall (λ b, 0 ≤ b < 256) (bytes_of s).
Proof.
  unfold bytes_of. induction s as [|a s IH]; simpl; constructor; [|done].
  pose proof (Ascii.N_ascii_bounded a). lia.
Qed.

Lemma bytes_of_inj (s t : string) : bytes_of s = bytes_of t → s = t.
Proof.
  unfold bytes_of. revert t.
  induction s as [|a s IH]; intros [|b t]; simpl; try done.
  intros [= Hab Hst]. apply N2Z.inj in Hab.
  f_equal; [|by apply IH].
  by rewrite <- (Ascii.ascii_N_embedding a), Hab, Ascii.ascii_N_embedding.
Qed.

(** The comparison of [handleRevalidate] succeeds on the expected header
    and on no other. *)
Lemma token_check (authHeader token : string) :
  (ConstantTimeCompare (bytes_of authHeader) (bytes_of ("Bearer " ++ token)) =? 1)
  = bool_decide (authHeader = ("Bearer " ++ token)%string).
Proof.
  case_bool_decide as Heq.
  - apply Z.eqb_eq, ConstantTimeCompare_spec; try apply bytes_of_range.
    by rewrite Heq.
  - apply Z.eqb_neq. intros Hc. apply Heq, bytes_of_inj.
    by apply ConstantTimeCompare_spec in Hc; try apply bytes_of_range.
Qed.

Lemma createEntry_loop_spec {V : Type} (Sprint : V → string) (n : nat) :
  ∀ (keysAndValues : list V) (e : entry V),
  (length keysAndValues ≤ n)%nat →
  (Nat.odd (length keysAndValues) = true →
     createEntry_loop Sprint e keysAndValues = Panic) ∧
  (Nat.even (length keysAndValues) = true →
     ∃ e', createEntry_loop Sprint e keysAndValues = Ok (e ++ e') ∧
           length e' = (length keysAndValues / 2)%nat ∧
           ∀ i k v, keysAndValues !! (2 * i)%nat = Some k →
                    keysAndValues !! (2 * i + 1)%nat = Some v →
                    e' !! i = Some (Sprint k, v)).
Proof.
  induction n as [|n IH]; intros [|k [|v rest]] e Hn; simpl in Hn; try lia.
  - split; [done|]. intros _. exists []. rewrite app_nil_r. by split.
  - split; [done|]. intros _. exists []. rewrite app_nil_r. by split.
  - split; [done|]. done.
  - destruct (IH rest (e ++ [(Sprint k, v)])) as [Hodd Heven]; [lia|].
    split.
    + intros Ho. simpl. apply Hodd. exact Ho.
    + intros He. destruct Heven as (e' & E & Hlen & Hget); [exact He|].
      exists ((Sprint k, v) :: e'). simpl createEntry_loop.
      rewrite E, <- app_assoc. split; [done|]. split.
      * simpl length. rewrite Hlen.
        change (S (S (length rest))) with (1 * 2 + length rest)%nat.
        by rewrite Nat.div_add_l.
      * intros [|i] k' v'.
        -- simpl. by intros [= ->] [= ->].
        -- replace (2 * S i)%nat with (S (S (2 * i))) by lia.
           replace (S (S (2 * i)) + 1)%nat with (S (S (2 * i + 1))) by lia.
           simpl. apply Hget.
Qed.

End handler_facts.

(* ================================================================= *)
(** * Further properties *)

(** X1 (order of [Less]).  The comparison of [Less] is a strict total order
    on the pairs of priority and route path: no item is before itself, two
    items are never before each other, the comparison is transitive, and
    two items neither of which is before the other have the same priority
    and the same route path.  An item with a nonzero priority is before
    every item with priority zero. *)
Theorem Less_strict_total_order (a b c : queueItem) :
  queueItems.less a a = false ∧
  (queueItems.less a b = true → queueItems.less b a = false) ∧
  (queueItems.less a b = true → queueItems.less b c = true →
     queueItems.less a c = true) ∧
  (queueItems.less a b = false → queueItems.less b a = false →
     priority a = priority b ∧ routePath a = routePath b) ∧
  (priority a ≠ 0 → priority b = 0 → queueItems.less a b = true).
Proof.
  rewrite !less_lessk. split_and!.
  - apply lessk_irrefl.
  - apply lessk_asym.
  - apply lessk_trans.
  - intros H1 H2. pose proof (lessk_total _ _ H1 H2) as Heq.
    unfold key_of in Heq. by simplify_eq.
  - intros Ha Hb. rewrite <- less_lessk. unfold queueItems.less. simpl.
    rewrite Hb. destruct (priority a =? 0) eqn:E; [apply Z.eqb_eq in E; lia|].
    done.
Qed.

(** X2 (index bookkeeping).  After every sequence of [enqueue] and [pop]
    calls on a new queue, the [index] field of every queued item is its
    position in the slice, the key index maps the route path of every queued
    item to that item and maps no other key, no item is queued twice, and
    the key index has as many keys as the slice has items. *)
Theorem index_bookkeeping (cs : list call) :
  ∃ outs s, newQueue ≫= run_calls cs = Ok (outs, s) ∧
    (∀ i p, q s !! i = Some p →
       ∃ it, mem s !! p = Some it ∧ index it = Z.of_nat i ∧
             pathIdx s !! routePath it = Some p) ∧
    (∀ k p, pathIdx s !! k = Some p →
       ∃ i it, q s !! i = Some p ∧ mem s !! p = Some it ∧
               routePath it = k ∧ index it = Z.of_nat i) ∧
    NoDup (q s) ∧
    size (pathIdx s) = length (q s).
Proof.
  rewrite newQueue_eq.
  destruct (run_wf cs emptyQueue wf_emptyQueue) as (outs & s & E & Hwf).
  exists outs, s. split; [done|]. split_and!.
  - intros i p Hi. destruct (wf_idx s Hwf i p Hi) as (it & Hit & Hidx).
    exists it. split; [done|]. split; [done|].
    apply (wf_path s Hwf). split; [by eapply list_elem_of_lookup_2|].
    unfold rp_of. by rewrite Hit.
  - intros k p. by apply wf_lookup.
  - apply idx_ok_NoDup, Hwf.
  - by apply size_pathIdx.
Qed.

(** X3 (draining).  Calling [pop] until it returns nil returns every queued
    key exactly once, each key before all the keys whose entries are after
    its own in the order of [Less]; it leaves the queue and the key index
    empty and the generation counter as it was. *)
Theorem drain_sorted_permutation (s : queue) :
  wf s →
  ∃ ks s', drain s = Ok (ks, s') ∧
    ks ≡ₚ keys s ∧ StronglySorted (before s) ks ∧
    entries s' = [] ∧ pathIdx s' = ∅ ∧
    currentPriority s' = currentPriority s ∧
    pop s' = Ok (None, s').
Proof.
  intros Hwf.
  destruct (drain_spec s Hwf) as (ks & s' & E & Hwf' & Hq & Hcp & Hperm & Hsort).
  exists ks, s'. split_and!; try done.
  - by apply entries_nil.
  - apply map_empty. intros k. destruct (pathIdx s' !! k) as [p|] eqn:Ek; [|done].
    apply (wf_path s' Hwf') in Ek as [Hin _]. rewrite Hq in Hin.
    by apply elem_of_nil in Hin.
  - by apply pop_empty.
Qed.

Lemma drain_sorted_permutation_witness :
  wf sampleQueue ∧
  ∃ ks s', drain sampleQueue = Ok (ks, s') ∧ ks ≡ₚ keys sampleQueue ∧
           entries s' = [].
Proof.
  assert (Hwf := reachable_wf _ sampleQueue_reachable).
  split; [exact Hwf|].
  destruct (drain_sorted_permutation sampleQueue Hwf)
    as (ks & s' & E & Hperm & _ & He & _).
  exists ks, s'. split; [exact E|]. split; [exact Hperm|exact He].
Defined.

(** X4 (first message).  After one [enqueue] call on a queue without
    entries, with a generation that is not zero, draining the queue returns
    first the invalidated keys, each once and in the order of their route
    paths, and then the other keys of the inventory, each once and in the
    order of their route paths. *)
Theorem fresh_enqueue_pop_order (inv bg : list string) (s : queue) :
  wf s → entries s = [] → generation s ≠ 0 →
  ∃ s1 ka kb sE,
    enqueue inv bg s = Ok s1 ∧ drain s1 = Ok (ka ++ kb, sE) ∧
    ka ≡ₚ dedup inv ∧ kb ≡ₚ dedup_seen inv bg ∧
    StronglySorted (λ x y, String.ltb x y = true) ka ∧
    StronglySorted (λ x y, String.ltb x y = true) kb.
Proof.
  intros Hwf He Hg. apply entries_nil in He; [|done].
  destruct (fresh_enqueue_drain inv bg s Hwf He Hg)
    as (s1 & ka & kb & sE & E & _ & _ & Ed & Ha & Hb & Hsa & Hsb & _).
  by exists s1, ka, kb, sE.
Qed.

Lemma fresh_enqueue_pop_order_witness :
  wf emptyQueue ∧ entries emptyQueue = [] ∧ generation emptyQueue ≠ 0 ∧
  ∃ s1 ka kb sE,
    enqueue ["/support"; "/contact"] ["/home"; "/contact"; "/about"] emptyQueue
    = Ok s1 ∧
    drain s1 = Ok (ka ++ kb, sE) ∧
    ka ≡ₚ dedup ["/support"; "/contact"].
Proof.
  assert (Hg : generation emptyQueue ≠ 0) by (vm_compute; discriminate).
  split; [exact wf_emptyQueue|]. split; [reflexivity|]. split; [exact Hg|].
  destruct (fresh_enqueue_pop_order ["/support"; "/contact"]
              ["/home"; "/contact"; "/about"] emptyQueue wf_emptyQueue eq_refl Hg)
    as (s1 & ka & kb & sE & E & Ed & Ha & _).
  exists s1, ka, kb, sE. split; [exact E|]. split; [exact Ed|exact Ha].
Defined.

(** X5 (generation counter).  As long as the counter has not wrapped around,
    it is the number of [enqueue] calls made on the queue, and every queued
    entry has a priority between zero and the counter: no entry carries a
    generation that has not been assigned yet. *)
Theorem priorities_bounded_by_counter (cs : list call) :
  count_enqueues cs ≤ uint64_max →
  ∃ outs s, newQueue ≫= run_calls cs = Ok (outs, s) ∧
    currentPriority s = count_enqueues cs ∧
    ∀ k z, prio_of s k = Some z → 0 ≤ z ≤ currentPriority s.
Proof.
  intros Hc. rewrite newQueue_eq.
  destruct (run_wf cs emptyQueue wf_emptyQueue) as (outs & s & E & Hwf).
  exists outs, s. split; [done|]. split.
  - by rewrite (run_counter cs emptyQueue outs s wf_emptyQueue E).
  - intros k z Hz. split; [by eapply prio_of_nonneg|].
    eapply (run_bounded cs emptyQueue outs s); try done.
    apply wf_emptyQueue.
Qed.

Lemma priorities_bounded_by_counter_witness :
  count_enqueues [Enqueue ["/a"] ["/b"]; PopCall; Enqueue ["/b"] []] ≤ uint64_max ∧
  ∃ outs s,
    newQueue ≫= run_calls [Enqueue ["/a"] ["/b"]; PopCall; Enqueue ["/b"] []]
    = Ok (outs, s) ∧
    currentPriority s = 2.
Proof.
  assert (Hc : count_enqueues [Enqueue ["/a"] ["/b"]; PopCall; Enqueue ["/b"] []]
               ≤ uint64_max) by (vm_compute; discriminate).
  split; [exact Hc|].
  destruct (priorities_bounded_by_counter _ Hc) as (outs & s & E & Hcp & _).
  exists outs, s. split; [exact E|exact Hcp].
Defined.

(** X6 (repeated message).  After an [enqueue] call with a generation that
    is not zero, a further [enqueue] call that invalidates only keys the
    first call invalidated, and lists only keys of the first call, changes
    nothing but the generation counter: no entry is added, moved or
    promoted. *)
Theorem enqueue_repeated_only_counts (inv bg inv' bg' : list string) (s : queue) :
  wf s → generation s ≠ 0 → inv' ⊆ inv → bg' ⊆ inv ++ bg →
  ∃ s1, enqueue inv bg s = Ok s1 ∧
        enqueue inv' bg' s1 = Ok (with_currentPriority s1 (generation s1)).
Proof.
  intros Hwf Hg Hinv Hbg.
  destruct (enqueue_spec inv bg s Hwf) as (s1 & E1 & Hwf1 & _ & Hp).
  exists s1. split; [done|]. apply enqueue_noop.
  - intros k Hk. apply Hinv in Hk. rewrite Hp, decide_True by done.
    eexists. split; [done|]. unfold merge_prio.
    destruct (prio_of s k) as [z0|]; [|done].
    destruct (z0 =? 0) eqn:E0; [done|]. by apply Z.eqb_neq in E0.
  - intros k Hk. apply Hbg, elem_of_app in Hk. rewrite Hp.
    repeat case_decide; try done. tauto.
Qed.

Lemma enqueue_repeated_only_counts_witness :
  wf sampleQueue ∧ generation sampleQueue ≠ 0 ∧
  ∃ s1, enqueue ["/x"] ["/home"] sampleQueue = Ok s1 ∧
        enqueue ["/x"] ["/home"; "/x"] s1
        = Ok (with_currentPriority s1 (generation s1)).
Proof.
  assert (Hwf := reachable_wf _ sampleQueue_reachable).
  assert (Hg : generation sampleQueue ≠ 0) by (vm_compute; discriminate).
  split; [exact Hwf|]. split; [exact Hg|].
  apply (enqueue_repeated_only_counts ["/x"] ["/home"] ["/x"] ["/home"; "/x"]
           sampleQueue Hwf Hg).
  - intros k Hk. exact Hk.
  - intros k Hk. apply elem_of_app.
    apply elem_of_cons in Hk as [->|Hk].
    + right. apply list_elem_of_here.
    + left. exact Hk.
Defined.

Lemma concat_batches fuel : ∀ size ks,
  (length ks ≤ fuel)%nat → concat (batches fuel size ks) = ks.
Proof.
  induction fuel as [|fuel IH]; intros size ks Hlen.
  - destruct ks; [done|simpl in Hlen; lia].
  - destruct ks as [|k ks]; [done|]. simpl batches.
    destruct (1 <=? size) eqn:Esz; simpl concat.
    + rewrite IH; [by rewrite take_drop|].
      rewrite length_drop. simpl in Hlen |- *. lia.
    + by rewrite app_nil_r.
Qed.

Lemma length_keys_q (s : queue) : wf s → length (keys s) = length (q s).
Proof.
  intros Hwf. unfold keys. rewrite length_fmap. apply length_entries, Hwf.
Qed.

(** X7 (batches).  [queuePopBatch] returns the keys that [pop] would return
    next, in that order: as many as the batch size when the size is positive
    and that many are queued, and all the queued keys otherwise.  The other
    keys stay queued in their order, and the batch is empty only if the
    queue is. *)
Theorem queuePopBatch_prefix_of_drain (c : controller) :
  wf (ctrl_queue c) →
  ∃ ks sE b s',
    drain (ctrl_queue c) = Ok (ks, sE) ∧
    queuePopBatch c = Ok (b, with_queue c s') ∧
    b = (if 1 <=? revalidateBatchSize c
         then take (Z.to_nat (revalidateBatchSize c)) ks else ks) ∧
    drain s' = Ok (drop (length b) ks, sE) ∧
    (b = [] ↔ entries (ctrl_queue c) = []).
Proof.
  intros Hwf.
  destruct (drain_spec _ Hwf) as (ks & sE & Ed & _ & _ & _ & Hperm & _).
  destruct (queuePopBatch_drain c ks sE Hwf Ed) as (s' & E & Hwf' & Ed').
  eexists ks, sE, _, s'. split; [done|]. split; [exact E|]. split; [done|].
  assert (Hnil : ks = [] ↔ entries (ctrl_queue c) = []).
  { split.
    - intros ->. symmetry in Hperm. apply Permutation_nil_r in Hperm.
      by apply fmap_nil_inv in Hperm.
    - intros He. unfold keys in Hperm. rewrite He in Hperm.
      by apply Permutation_nil_r in Hperm. }
  destruct (1 <=? revalidateBatchSize c) eqn:Esz.
  - split; [by rewrite drop_length_take|].
    rewrite <- Hnil. destruct ks as [|k ks]; [by rewrite take_nil|].
    destruct (Z.to_nat (revalidateBatchSize c)) eqn:En; [lia|]. done.
  - split; [by rewrite drop_all|done].
Qed.

Lemma queuePopBatch_prefix_of_drain_witness :
  wf (ctrl_queue sampleController) ∧
  ∃ ks sE b s',
    drain (ctrl_queue sampleController) = Ok (ks, sE) ∧
    queuePopBatch sampleController = Ok (b, with_queue sampleController s') ∧
    b = take 1 ks.
Proof.
  assert (Hwf : wf (ctrl_queue sampleController))
    by exact (reachable_wf _ sampleQueue_reachable).
  split; [exact Hwf|].
  destruct (queuePopBatch_prefix_of_drain sampleController Hwf)
    as (ks & sE & b & s' & Ed & E & Hb & _).
  exists ks, sE, b, s'. split; [exact Ed|]. split; [exact E|exact Hb].
Defined.

(** X8 (the worker drains the queue).  Once the worker has been woken, and
    as long as nothing else touches the controller, it hands every queued
    key to the revalidator, in the order [pop] returns them and in batches
    of the batch size, the last one possibly shorter, and then parks with an
    empty queue. *)
Theorem run_submits_all_in_batches (c : controller) (fuel : nat) :
  wf (ctrl_queue c) → sig c = ChanOpen → worker c = AtSelect →
  (3 * length (q (ctrl_queue c)) + 4 ≤ fuel)%nat →
  ∃ ks sE,
    drain (ctrl_queue c) = Ok (ks, sE) ∧
    run fuel c
    = Ok (Controller (revalidateBatchSize c) sE ChanOpen Parked
            (submitted c ++ batches (length ks) (revalidateBatchSize c) ks)) ∧
    concat (batches (length ks) (revalidateBatchSize c) ks) = ks ∧
    entries sE = [].
Proof.
  intros Hwf Hsig Hw Hfuel.
  destruct (drain_spec _ Hwf) as (ks & sE & Ed & HwfE & HqE & _ & Hperm & _).
  assert (Hlen : length ks = length (q (ctrl_queue c))).
  { rewrite <- length_keys_q by done. by apply Permutation_length. }
  exists ks, sE. split; [done|]. split_and!.
  - apply (run_drains (length ks)); (done || lia).
  - by apply concat_batches.
  - by apply entries_nil.
Qed.

Lemma run_submits_all_in_batches_witness :
  wf (ctrl_queue (with_worker sampleController AtSelect)) ∧
  sig (with_worker sampleController AtSelect) = ChanOpen ∧
  worker (with_worker sampleController AtSelect) = AtSelect ∧
  (3 * length (q (ctrl_queue (with_worker sampleController AtSelect))) + 4 ≤ 13)%nat ∧
  ∃ ks sE,
    run 13 (with_worker sampleController AtSelect)
    = Ok (Controller 1 sE ChanOpen Parked (batches (length ks) 1 ks)) ∧
    concat (batches (length ks) 1 ks) = ks.
Proof.
  assert (Hwf : wf (ctrl_queue (with_worker sampleController AtSelect)))
    by exact (reachable_wf _ sampleQueue_reachable).
  assert (Hfuel : (3 * length (q (ctrl_queue (with_worker sampleController AtSelect)))
                   + 4 ≤ 13)%nat) by (vm_compute; lia).
  split; [exact Hwf|]. split; [reflexivity|]. split; [reflexivity|].
  split; [exact Hfuel|].
  destruct (run_submits_all_in_batches (with_worker sampleController AtSelect) 13
              Hwf eq_refl eq_refl Hfuel) as (ks & sE & _ & E & Hc & _).
  exists ks, sE. split; [exact E|exact Hc].
Defined.

(** X9 (shutdown stops the worker).  [shutdownAndWait] on an open channel
    returns after the worker has handed at most one more batch to the
    revalidator: the batch it is working on, or the batch it was about to
    pop.  The keys of the queue are not drained: what was queued is still
    queued, apart from the keys of a batch popped on the way. *)
Theorem shutdown_at_most_one_batch (c : controller) (fuel : nat) :
  wf (ctrl_queue c) → sig c = ChanOpen → (3 ≤ fuel)%nat →
  ∃ c' extra,
    shutdownAndWait fuel c = Ok c' ∧
    submitted c' = submitted c ++ extra ∧ (length extra ≤ 1)%nat ∧
    match worker c with
    | AtPopBatch => keys (ctrl_queue c) ≡ₚ concat extra ++ keys (ctrl_queue c')
    | InRevalidate b => extra = [b] ∧ ctrl_queue c' = ctrl_queue c
    | _ => extra = [] ∧ ctrl_queue c' = ctrl_queue c
    end.
Proof.
  intros Hwf Hsig Hfuel. unfold shutdownAndWait, close_sig.
  rewrite Hsig, bind_Ok.
  destruct fuel as [|[|[|fuel]]]; try lia.
  destruct c as [size s ch w sub]. simpl in Hwf, Hsig. subst ch.
  unfold with_sig. cbn [revalidateBatchSize ctrl_queue sig worker submitted].
  destruct w;
    try (eexists _, []; simpl; rewrite app_nil_r; split_and!; (done || lia)).
  - destruct (queuePopBatch_keys (Controller size s ChanClosed AtPopBatch sub) Hwf)
      as (b & s' & E & Hwf' & Hperm). simpl in Hperm.
    change (wg_Wait (S (S (S fuel))) (Controller size s ChanClosed AtPopBatch sub))
      with (r ← (r ← queuePopBatch (Controller size s ChanClosed AtPopBatch sub);
                 if Z.of_nat (length r.1) =? 0
                 then Ok (Some (with_worker r.2 AtReceive))
                 else Ok (Some (with_worker r.2 (InRevalidate r.1))));
            match r with
            | Some c' => wg_Wait (S (S fuel)) c'
            | None => Blocked
            end).
    rewrite E. rsimpl. destruct (Z.of_nat (length b) =? 0) eqn:Eb; simpl.
    + apply Z.eqb_eq in Eb. destruct b; [|simpl in Eb; lia].
      eexists _, []. simpl. rewrite app_nil_r. split_and!; (done || lia).
    + eexists _, [b]. destruct fuel; simpl; rewrite app_nil_r;
        split_and!; (done || lia).
  - eexists _, [routePaths]. simpl. split_and!; (done || lia).
Qed.

Lemma shutdown_at_most_one_batch_witness :
  wf (ctrl_queue sampleController) ∧ sig sampleController = ChanOpen ∧
  (3 ≤ 3)%nat ∧
  ∃ c' extra,
    shutdownAndWait 3 sampleController = Ok c' ∧
    submitted c' = submitted sampleController ++ extra ∧ (length extra ≤ 1)%nat.
Proof.
  assert (Hwf : wf (ctrl_queue sampleController))
    by exact (reachable_wf _ sampleQueue_reachable).
  split; [exact Hwf|]. split; [reflexivity|]. split; [lia|].
  destruct (shutdown_at_most_one_batch sampleController 3 Hwf eq_refl (le_n 3))
    as (c' & extra & E & Hsub & Hlen & _).
  exists c', extra. split; [exact E|]. split; [exact Hsub|exact Hlen].
Defined.

(** X10 (successful reconciliation).  With the channel open, a [revalidate]
    whose inventory fetch succeeds returns no error; the queue is the one
    after [enqueue] of the invalidated and the fetched route paths, so that
    every one of them is queued; the worker is woken if it was parked, and
    is never left parked; nothing else of the controller changes. *)
Theorem revalidate_enqueues_and_wakes
    (c : controller) (documents invalidated : list document) :
  wf (ctrl_queue c) → sig c = ChanOpen →
  ∃ c', revalidate (inr documents) invalidated c = Ok (None, c') ∧
    enqueue (RoutePath <$> invalidated) (RoutePath <$> documents) (ctrl_queue c)
    = Ok (ctrl_queue c') ∧
    (∀ k, k ∈ keys (ctrl_queue c') ↔
          k ∈ keys (ctrl_queue c) ∨ k ∈ RoutePath <$> invalidated ∨
          k ∈ RoutePath <$> documents) ∧
    worker c' = match worker c with Parked => AtSelect | w => w end ∧
    worker c' ≠ Parked ∧
    sig c' = ChanOpen ∧ submitted c' = submitted c ∧
    revalidateBatchSize c' = revalidateBatchSize c.
Proof.
  intros Hwf Hsig.
  destruct (enqueue_spec (RoutePath <$> invalidated) (RoutePath <$> documents)
              (ctrl_queue c) Hwf) as (s' & E & Hwf' & _).
  pose proof (enqueue_keys _ _ _ _ Hwf E) as Hkeys.
  unfold revalidate. rewrite E, bind_Ok. unfold ensureProcessQueue. simpl.
  rewrite Hsig. destruct c as [size s ch w sub]. simpl in *.
  destruct w; simpl; eexists; (split; [reflexivity|]); simpl; split_and!; done.
Qed.

Lemma revalidate_enqueues_and_wakes_witness :
  wf (ctrl_queue sampleController) ∧ sig sampleController = ChanOpen ∧
  ∃ c', revalidate (inr [Document "/home"; Document "/new"]) [Document "/new"]
          sampleController = Ok (None, c') ∧
        worker c' ≠ Parked.
Proof.
  assert (Hwf : wf (ctrl_queue sampleController))
    by exact (reachable_wf _ sampleQueue_reachable).
  split; [exact Hwf|]. split; [reflexivity|].
  destruct (revalidate_enqueues_and_wakes sampleController
              [Document "/home"; Document "/new"] [Document "/new"] Hwf eq_refl)
    as (c' & E & _ & _ & _ & Hw & _).
  exists c'. split; [exact E|exact Hw].
Defined.

(** X11 (reconciliation after shutdown).  Once [shutdownAndWait] has
    returned, every [revalidate] whose inventory fetch succeeds panics: it
    sends on the closed channel. *)
Theorem revalidate_after_shutdown_panics
    (c c' : controller) (fuel : nat) (documents invalidated : list document) :
  shutdownAndWait fuel c = Ok c' →
  sig c' = ChanClosed ∧ revalidate (inr documents) invalidated c' = Panic.
Proof.
  unfold shutdownAndWait, close_sig. destruct (sig c) eqn:Hsig; [|done].
  rewrite bind_Ok. intros Hw. apply wg_Wait_sig in Hw. simpl in Hw.
  split; [done|]. by apply revalidate_closed.
Qed.

Lemma revalidate_after_shutdown_panics_witness :
  ∃ c', shutdownAndWait 3 sampleController = Ok c' ∧
        revalidate (inr [Document "/home"]) [Document "/home"] c' = Panic.
Proof.
  eexists. split; [vm_compute; reflexivity|].
  eapply (revalidate_after_shutdown_panics sampleController _ 3).
  vm_compute. reflexivity.
Defined.

(** X12 (authorisation of the revalidate endpoint).  [handleRevalidate]
    answers 403 exactly when the [Authorization] header is not the string
    ["Bearer "] followed by the token of the handler, and then it does not
    look at the body; with the right header it answers 400 when the body
    cannot be decoded and 200 otherwise.  Only with 200 does it start a
    reconciliation, for the documents of the body.  It never touches the
    controller itself. *)
Theorem handleRevalidate_auth
    (authHeader : string) (decoded : error + list document) (h : Handler) :
  ((handleRevalidate authHeader decoded h).1 = StatusForbidden ↔
     authHeader ≠ ("Bearer " ++ revalidateToken h)%string) ∧
  ((handleRevalidate authHeader decoded h).1 = StatusBadRequest ↔
     authHeader = ("Bearer " ++ revalidateToken h)%string ∧ ∃ err, decoded = inl err) ∧
  ((handleRevalidate authHeader decoded h).1 = StatusOK ↔
     authHeader = ("Bearer " ++ revalidateToken h)%string ∧
     ∃ documents, decoded = inr documents) ∧
  ((handleRevalidate authHeader decoded h).1 ≠ StatusOK →
     (handleRevalidate authHeader decoded h).2 = h) ∧
  (∀ documents,
     handleRevalidate authHeader (inr documents) h
     = if bool_decide (authHeader = ("Bearer " ++ revalidateToken h)%string)
       then (StatusOK,
             MkHandler (revalidateToken h) (ctrl h) (started h ++ [documents]))
       else (StatusForbidden, h)) ∧
  ctrl (handleRevalidate authHeader decoded h).2 = ctrl h ∧
  revalidateToken (handleRevalidate authHeader decoded h).2 = revalidateToken h ∧
  (∀ token decoded',
     (handleRevalidate ("Bearer " ++ token) decoded' h).1 = StatusForbidden ↔
     token ≠ revalidateToken h).
Proof.
  unfold handleRevalidate. rewrite !token_check.
  split_and!.
  - case_bool_decide; destruct decoded; simpl; split; try done.
  - case_bool_decide; destruct decoded; simpl; split; try done;
      try (intros [? [? ?]]; done); eauto.
  - case_bool_decide; destruct decoded; simpl; split; try done;
      try (intros [? [? ?]]; done); eauto.
  - case_bool_decide; destruct decoded; simpl; done.
  - intros documents. by case_bool_decide.
  - case_bool_decide; destruct decoded; simpl; done.
  - case_bool_decide; destruct decoded; simpl; done.
  - intros token decoded'. rewrite token_check.
    case_bool_decide as Heq; destruct decoded'; simpl; split; try done.
    all: try (intros Hne; exfalso; apply Hne; simpl in Heq; by simplify_eq).
    all: intros _ ->; done.
Qed.


(** X14 (fields of a cron log entry).  [createEntry] starts from the field
    ["component"] and adds one field for every pair of a key and a value,
    in their order, the key printed by [fmt.Sprint]; called with an odd
    number of keys and values it panics. *)
Theorem createEntry_pairs {V : Type} (Sprint : V → string) (cron : V)
    (keysAndValues : list V) :
  (Nat.odd (length keysAndValues) = true →
     createEntry Sprint cron keysAndValues = Panic) ∧
  (Nat.even (length keysAndValues) = true →
     ∃ fields,
       createEntry Sprint cron keysAndValues = Ok (("component", cron) :: fields) ∧
       length fields = (length keysAndValues / 2)%nat ∧
       ∀ i k v, keysAndValues !! (2 * i)%nat = Some k →
                keysAndValues !! (2 * i + 1)%nat = Some v →
                fields !! i = Some (Sprint k, v)).
Proof.
  unfold createEntry.
  apply (createEntry_loop_spec Sprint (length keysAndValues)). done.
Qed.
